(** * nexus::vector<T> (vector.h): a shallow embedding and its properties

    The container of [vector.h] keeps three raw pointers ([first], [last],
    [end_ptr]) into one array obtained from [new T[n]].  The embedding
    keeps exactly that representation: a heap of array blocks, pointers as
    block/offset pairs, and every member function as a heap-passing
    computation whose outcome is a normal return, [std::exit], an
    allocation failure, undefined behaviour, or a loop that does not
    end.

    Two things of C++ that the container's behaviour depends on are part
    of the heap model.  Every slot of an array either holds an object or
    holds none, because its destructor has run: [new T[n]] constructs an
    object in every slot, [delete[]] destroys every slot, and [pop_back]
    and [clear] destroy single slots on their own.  And an argument of type
    [const T &] is a reference: when it refers to a slot of an array, it is
    read where the member function uses it, not where the call is made. *)

From Stdlib Require Import ZArith Ascii PrimFloat.
From stdpp Require Import gmap list strings pretty.

Open Scope Z_scope.

(** ** Machine integers *)

(** [size_type] is [size_t]: 64 bits, unsigned. *)
Definition size_type_modulus : Z := 2 ^ 64.

(** [static_cast<size_type>(z)] and the wrap-around of [size_type]
    arithmetic. *)
Definition wrap (z : Z) : Z := z mod size_type_modulus.

(** No array object is larger than [PTRDIFF_MAX] bytes. *)
Definition PTRDIFF_MAX : Z := 2 ^ 63 - 1.

(** ** The element type

    What the template asks of [T]: a default constructor ([T()], also run
    by [new T[n]] on every slot), assignment (values are copied as they
    are), [operator==] and [operator<], a size in bytes, and a destructor.
    [T_trivial_dtor] says whether [~T()] is trivial, as it is for [int]:
    then a destructor call runs no code and the slot keeps its object.
    For any other [T] (such as [std::string]) the destructor ends the
    object, and the slot holds none until one is constructed there. *)
Class Element (T : Type) := {
  T_default : T;
  T_sizeof : Z;
  T_sizeof_pos : 0 < T_sizeof;
  T_eq : T -> T -> bool;
  T_lt : T -> T -> bool;
  T_trivial_dtor : bool
}.

(** ** Pointers *)

Definition block := positive.

Inductive pointer :=
| nullptr
| Ptr (b : block) (off : Z).

#[global] Instance pointer_eq_dec : EqDecision pointer.
Proof. solve_decision. Defined.

(** [p + n].  ([nullptr + 0] is [nullptr]; the container never adds a
    non-zero offset to [nullptr].) *)
Definition ptr_add (p : pointer) (n : Z) : pointer :=
  match p with
  | nullptr => nullptr
  | Ptr b off => Ptr b (off + n)
  end.

(** [p - q], a [ptrdiff_t].  [nullptr - nullptr] is [0]; the difference of
    pointers into two different arrays is undefined in C++ and is [0]
    here: the container only subtracts its own three pointers. *)
Definition ptr_diff (p q : pointer) : Z :=
  match p, q with
  | Ptr b off, Ptr b' off' => if decide (b = b') then off - off' else 0
  | _, _ => 0
  end.

(** ** Fatal conditions: what is written to [std::cerr] before
    [std::exit(EXIT_FAILURE)] *)

Inductive fatal :=
| IndexOutOfRange (index : Z)   (* at *)
| EmptyFront                    (* front *)
| EmptyBack                     (* back *)
| EmptyPopBack.                 (* pop_back *)

(** The line printed on [std::cerr]. *)
Definition cerr_line (f : fatal) : string :=
  match f with
  | IndexOutOfRange index => "索引越界: " +:+ pretty index
  | EmptyFront => "vector为空，无法front()"
  | EmptyBack => "vector为空，无法back()"
  | EmptyPopBack => "vector为空，无法pop_back"
  end.

(** The two kinds of fatal condition of the specification. *)
Definition EmptyContainerAccess (f : fatal) : bool :=
  match f with
  | IndexOutOfRange _ => false
  | EmptyFront | EmptyBack | EmptyPopBack => true
  end.

(** ** Computations over a heap

    A member function runs on a heap and ends in one of five ways. *)

Section Outcome.

Context {H : Type}.

Inductive outcome (A : Type) :=
| Ok (a : A) (h : H)        (* normal return, with the heap it leaves *)
| Exit (f : fatal)          (* std::exit(EXIT_FAILURE) *)
| BadAlloc                  (* operator new[] threw *)
| Undefined                 (* undefined behaviour *)
| Diverge.                  (* a loop ran out of its iteration bound *)

Definition M (A : Type) : Type := H -> outcome A.

Definition ret {A} (a : A) : M A := fun h => Ok A a h.

Definition bind {A B} (m : M A) (k : A -> M B) : M B :=
  fun h =>
    match m h with
    | Ok _ a h' => k a h'
    | Exit _ f => Exit B f
    | BadAlloc _ => BadAlloc B
    | Undefined _ => Undefined B
    | Diverge _ => Diverge B
    end.

Definition exit {A} (f : fatal) : M A := fun _ => Exit A f.

End Outcome.

Arguments outcome H A : clear implicits.
Arguments M H A : clear implicits.
Arguments Ok {H A} a h.
Arguments Exit {H A} f.
Arguments BadAlloc {H A}.
Arguments Undefined {H A}.
Arguments Diverge {H A}.

Notation "x <~ m ;; k" := (bind m (fun x => k))
  (at level 100, m at next level, right associativity).
Notation "m ;;; k" := (bind m (fun _ => k))
  (at level 100, right associativity).

(** ** The container's three pointers *)

Record vector := Vector {
  first : pointer;
  last : pointer;
  end_ptr : pointer
}.

(** [size()] *)
Definition size (v : vector) : Z := wrap (ptr_diff (last v) (first v)).

(** [capacity()] *)
Definition capacity (v : vector) : Z := wrap (ptr_diff (end_ptr v) (first v)).

(** [empty()] *)
Definition empty (v : vector) : bool := bool_decide (size v = 0).

(** [vector()] *)
Definition vector_default : vector := Vector nullptr nullptr nullptr.

(** [swap(other)]: the two containers afterwards. *)
Definition swap (v other : vector) : vector * vector := (other, v).

(** The capacity that the doubling rule gives an append: doubled (or
    [1]) when the container was full, unchanged otherwise. *)
Definition capacity_after_push (v : vector) : Z :=
  if decide (size v = capacity v) then Z.max 1 (capacity v * 2)
  else capacity v.

(** ** The heap of arrays and the member functions *)

Section Vector.

Context {T : Type} `{ET : Element T}.

(** Each live array of [T], by block.  A slot is [Some x] while it holds
    an object, of value [x], and [None] once the object's destructor has
    run. *)
Abbreviation heap := (gmap block (list (option T))).
Abbreviation M := (M heap).

(** The longest array of [T] that [new T[n]] can return. *)
Definition max_array_len : Z := PTRDIFF_MAX / T_sizeof.

(** [new T[n]]: a fresh block of [n] default-constructed slots (also for
    [n = 0]: the result is then a non-null pointer to an array without
    elements).  For a scalar [T] the slots start without a definite
    value; they start as [T_default] here, and the container writes every
    slot before it counts it as an element.  The request throws when it
    is larger than any array can be; the heap is otherwise unbounded. *)
Definition new_array (n : Z) : M pointer :=
  fun h =>
    if decide (max_array_len < n) then BadAlloc
    else
      let b := fresh (dom h) in
      Ok (Ptr b 0) (<[b := replicate (Z.to_nat n) (Some T_default)]> h).

(** [delete[] p]: nothing for [nullptr]; otherwise [p] has to be the
    start of a live array, and [~T()] runs on every slot of it: each has
    to hold an object still. *)
Definition delete_array (p : pointer) : M unit :=
  fun h =>
    match p with
    | nullptr => Ok tt h
    | Ptr b off =>
        if decide (off = 0) then
          match h !! b with
          | Some arr =>
              if decide (Forall is_Some arr) then Ok tt (delete b h)
              else Undefined
          | None => Undefined
          end
        else Undefined
    end.

(** Reading [*p]: the slot has to hold an object. *)
Definition load (p : pointer) : M T :=
  fun h =>
    match p with
    | nullptr => Undefined
    | Ptr b off =>
        match h !! b with
        | Some arr =>
            if decide (0 <= off) then
              match arr !! Z.to_nat off with
              | Some (Some x) => Ok x h
              | _ => Undefined
              end
            else Undefined
        | None => Undefined
        end
    end.

(** [*p = x]: assignment to the object in the slot, which has to be
    there. *)
Definition store (p : pointer) (x : T) : M unit :=
  fun h =>
    match p with
    | nullptr => Undefined
    | Ptr b off =>
        match h !! b with
        | Some arr =>
            if decide (0 <= off) then
              match arr !! Z.to_nat off with
              | Some (Some _) =>
                  Ok tt (<[b := <[Z.to_nat off := Some x]> arr]> h)
              | _ => Undefined
              end
            else Undefined
        | None => Undefined
        end
    end.

(** [new (p) T(x)]: an object is constructed in the slot, whatever the
    slot held (the destructor of an object that was there is not run). *)
Definition construct (p : pointer) (x : T) : M unit :=
  fun h =>
    match p with
    | nullptr => Undefined
    | Ptr b off =>
        match h !! b with
        | Some arr =>
            if decide (0 <= off < Z.of_nat (length arr)) then
              Ok tt (<[b := <[Z.to_nat off := Some x]> arr]> h)
            else Undefined
        | None => Undefined
        end
    end.

(** [p->~T()]: the slot has to hold an object; afterwards it holds none,
    unless the destructor of [T] is trivial. *)
Definition destroy (p : pointer) : M unit :=
  fun h =>
    match p with
    | nullptr => Undefined
    | Ptr b off =>
        match h !! b with
        | Some arr =>
            if decide (0 <= off) then
              match arr !! Z.to_nat off with
              | Some (Some _) =>
                  Ok tt (if T_trivial_dtor then h
                         else <[b := <[Z.to_nat off := None]> arr]> h)
              | _ => Undefined
              end
            else Undefined
        | None => Undefined
        end
    end.

(** An argument of type [const T &]: bound to a temporary or to an object
    outside the arrays of the heap, of value [x] ([Temp x]), or to the slot
    at [p] of an array ([Ref p], as in [v.push_back(v[0])]). *)
Inductive cref :=
| Temp (x : T)
| Ref (p : pointer).

(** The value of the argument at the moment the callee reads it. *)
Definition read (value : cref) : M T :=
  match value with
  | Temp x => ret x
  | Ref p => load p
  end.

(** [for (size_type i = 0; i < count; ++i) body(i)], from [i] on with
    [n] iterations left. *)
Fixpoint for_loop (n : nat) (i : Z) (body : Z -> M unit) : M unit :=
  match n with
  | O => ret tt
  | S n' => body i ;;; for_loop n' (i + 1) body
  end.

Definition for_upto (count : Z) (body : Z -> M unit) : M unit :=
  for_loop (Z.to_nat count) 0 body.

(** ** Constructors and members *)

(** [vector(size_type count, const T &value)].  [value] is read while the
    fresh array is filled; nothing is released before, so it is given by
    its value. *)
Definition vector_fill (count : Z) (value : T) : M vector :=
  p <~ new_array count ;;
  let v := Vector p (ptr_add p count) (ptr_add p count) in
  for_upto count (fun i => store (ptr_add (first v) i) value) ;;;
  ret v.

(** The body of [vector(std::initializer_list<T>)]: [first[i++] = elem]
    for each [elem]. *)
Fixpoint init_loop (init : list T) (i : Z) (v : vector) : M unit :=
  match init with
  | [] => ret tt
  | elem :: rest => store (ptr_add (first v) i) elem ;;; init_loop rest (i + 1) v
  end.

(** [vector(std::initializer_list<T> init)] *)
Definition vector_init (init : list T) : M vector :=
  v <~ vector_fill (wrap (Z.of_nat (length init))) T_default ;;
  init_loop init 0 v ;;;
  ret v.

(** [vector(const vector &other)] *)
Definition vector_copy (other : vector) : M vector :=
  p <~ new_array (capacity other) ;;
  let v := Vector p (ptr_add p (size other)) (ptr_add p (capacity other)) in
  for_upto (size other)
    (fun i => x <~ load (ptr_add (first other) i) ;;
              store (ptr_add (first v) i) x) ;;;
  ret v.

(** [vector(vector &&other)]: the new container and what is left in
    [other]. *)
Definition vector_move (other : vector) : M (vector * vector) :=
  ret (Vector (first other) (last other) (end_ptr other),
       Vector nullptr nullptr nullptr).

(** [vector(pointer start, pointer end)] *)
Definition vector_range (start end_ : pointer) : M vector :=
  p <~ new_array (wrap (ptr_diff end_ start)) ;;
  let v := Vector p (ptr_add p (ptr_diff end_ start))
             (ptr_add p (ptr_diff end_ start)) in
  for_upto (wrap (ptr_diff end_ start))
    (fun i => x <~ load (ptr_add start i) ;;
              store (ptr_add (first v) i) x) ;;;
  ret v.

(** [~vector()] *)
Definition vector_destroy (v : vector) : M unit := delete_array (first v).

(** [operator=(const vector &other)].  [same_object] says whether
    [this == &other]; otherwise a temporary copy of [other] is built,
    swapped with [*this], and destroyed with the old array. *)
Definition copy_assign (same_object : bool) (v other : vector) : M vector :=
  if same_object then ret v
  else
    temp <~ vector_copy other ;;
    let '(v', temp') := swap v temp in
    vector_destroy temp' ;;;
    ret v'.

(** [operator=(vector &&other)]: [*this] and [other] afterwards. *)
Definition move_assign (same_object : bool) (v other : vector)
    : M (vector * vector) :=
  if same_object then ret (v, other)
  else
    delete_array (first v) ;;;
    ret (Vector (first other) (last other) (end_ptr other),
         Vector nullptr nullptr nullptr).

(** [operator[](index)] *)
Definition subscript (index : Z) (v : vector) : M T :=
  load (ptr_add (first v) index).

(** [at(index)] *)
Definition at_ (index : Z) (v : vector) : M T :=
  if decide (size v <= index) then exit (IndexOutOfRange index)
  else load (ptr_add (first v) index).

(** [front()] *)
Definition front (v : vector) : M T :=
  if empty v then exit EmptyFront else load (first v).

(** [back()] *)
Definition back (v : vector) : M T :=
  if empty v then exit EmptyBack else load (ptr_add (last v) (-1)).

(** [reallocate(new_cap)]: [new_data[i] = std::move(first[i])] assigns to
    the object that [new T[new_cap]] constructed in slot [i] and leaves
    an object in [first[i]]; [delete[] first] then destroys every slot of
    the old array. *)
Definition reallocate (new_cap : Z) (v : vector) : M vector :=
  new_data <~ new_array new_cap ;;
  let old_size := size v in
  for_upto old_size
    (fun i => x <~ load (ptr_add (first v) i) ;;
              store (ptr_add new_data i) x) ;;;
  delete_array (first v) ;;;
  ret (Vector new_data (ptr_add new_data old_size) (ptr_add new_data new_cap)).

(** [grow()] *)
Definition grow (v : vector) : M vector :=
  let old_cap := capacity v in
  let new_cap := if decide (old_cap = 0) then 1 else wrap (old_cap * 2) in
  reallocate new_cap v.

(** [push_back(const T &value)]: [value] is read in [*last++ = value],
    after [grow()] has released the old array. *)
Definition push_back (value : cref) (v : vector) : M vector :=
  v <~ (if decide (last v = end_ptr v) then grow v else ret v) ;;
  x <~ read value ;;
  store (last v) x ;;;
  ret (Vector (first v) (ptr_add (last v) 1) (end_ptr v)).

(** [emplace_back(args...)] with one argument of type [const T &], so
    that [T(args...)] is a copy of it: the copy is constructed in the
    slot at [last], after [grow()]. *)
Definition emplace_back (value : cref) (v : vector) : M vector :=
  v <~ (if decide (last v = end_ptr v) then grow v else ret v) ;;
  x <~ read value ;;
  construct (last v) x ;;;
  ret (Vector (first v) (ptr_add (last v) 1) (end_ptr v)).

(** [pop_back()]: [--last; last->~T();] *)
Definition pop_back (v : vector) : M vector :=
  if empty v then exit EmptyPopBack
  else
    let v := Vector (first v) (ptr_add (last v) (-1)) (end_ptr v) in
    destroy (last v) ;;;
    ret v.

(** [while (cond) body], at most [n] times. *)
Fixpoint while_loop (n : nat) (cond : vector -> bool)
    (body : vector -> M vector) (v : vector) : M vector :=
  if cond v then
    match n with
    | O => fun _ => Diverge
    | S n' => v' <~ body v ;; while_loop n' cond body v'
    end
  else ret v.

(** [clear()]: [while (last != first) (--last)->~T();] *)
Definition clear (v : vector) : M vector :=
  while_loop (Z.to_nat (size v))
    (fun v => negb (bool_decide (last v = first v)))
    (fun v =>
       let v := Vector (first v) (ptr_add (last v) (-1)) (end_ptr v) in
       destroy (last v) ;;;
       ret v)
    v.

(** [reserve(new_cap)] *)
Definition reserve (new_cap : Z) (v : vector) : M vector :=
  if decide (capacity v < new_cap) then reallocate new_cap v else ret v.

(** [shrink_to_fit()] *)
Definition shrink_to_fit (v : vector) : M vector :=
  if decide (size v < capacity v) then reallocate (size v) v else ret v.

(** [resize(new_size, const T &value)]: the reference [value] is handed
    on to every [push_back(value)]. *)
Definition resize (new_size : Z) (value : cref) (v : vector) : M vector :=
  if decide (new_size < size v) then
    while_loop (Z.to_nat (size v - new_size))
      (fun v => bool_decide (new_size < size v)) pop_back v
  else if decide (size v < new_size) then
    v <~ reserve new_size v ;;
    while_loop (Z.to_nat (new_size - size v))
      (fun v => bool_decide (size v < new_size)) (push_back value) v
  else ret v.

(** The loop of [operator==], from index [i] on with [n] iterations
    left. *)
Fixpoint eq_loop (n : nat) (i : Z) (lhs rhs : vector) : M bool :=
  match n with
  | O => ret true
  | S n' =>
      x <~ subscript i lhs ;;
      y <~ subscript i rhs ;;
      if negb (T_eq x y) then ret false else eq_loop n' (i + 1) lhs rhs
  end.

(** [operator==(lhs, rhs)] *)
Definition operator_eq (lhs rhs : vector) : M bool :=
  if decide (size lhs <> size rhs) then ret false
  else eq_loop (Z.to_nat (size lhs)) 0 lhs rhs.

(** [operator!=(lhs, rhs)] *)
Definition operator_ne (lhs rhs : vector) : M bool :=
  r <~ operator_eq lhs rhs ;; ret (negb r).

(** [std::lexicographical_compare(first1, last1, first2, last2)] of the
    C++ standard library, as the standard gives it: walk both ranges
    while neither is exhausted; the first position where one element is
    less decides; otherwise the first range has to end before the second.
    At most [n] iterations. *)
Fixpoint lexicographical_compare (n : nat)
    (first1 last1 first2 last2 : pointer) : M bool :=
  if bool_decide (first1 <> last1) && bool_decide (first2 <> last2) then
    match n with
    | O => fun _ => Diverge
    | S n' =>
        x <~ load first1 ;;
        y <~ load first2 ;;
        if T_lt x y then ret true
        else if T_lt y x then ret false
        else lexicographical_compare n' (ptr_add first1 1) last1
               (ptr_add first2 1) last2
    end
  else ret (bool_decide (first1 = last1) && bool_decide (first2 <> last2)).

(** [operator<(lhs, rhs)], over [lhs.begin(), lhs.end(), rhs.begin(),
    rhs.end()]. *)
Definition operator_lt (lhs rhs : vector) : M bool :=
  lexicographical_compare (Z.to_nat (size lhs))
    (first lhs) (last lhs) (first rhs) (last rhs).

(** [operator<=(lhs, rhs)] *)
Definition operator_le (lhs rhs : vector) : M bool :=
  r <~ operator_lt rhs lhs ;; ret (negb r).

(** [operator>(lhs, rhs)] *)
Definition operator_gt (lhs rhs : vector) : M bool :=
  operator_lt rhs lhs.

(** [operator>=(lhs, rhs)] *)
Definition operator_ge (lhs rhs : vector) : M bool :=
  r <~ operator_lt lhs rhs ;; ret (negb r).

(** ** What a container holds, and when its pointers are sound *)

(** The objects that a run of slots holds, in order. *)
Definition objects (slots : list (option T)) : list T := omap id slots.

(** The elements: the objects in slots [[0, size())] of the array at
    [first]. *)
Definition elements (h : heap) (v : vector) : list T :=
  match first v with
  | nullptr => []
  | Ptr b _ => objects (take (Z.to_nat (size v)) (default [] (h !! b)))
  end.

(** The representation invariant: either the three pointers are null, or
    they point into one live array, at its start, behind its elements and
    at its end.  The slots before [last] hold the elements [xs]; each of
    the spare slots behind them holds an object or none. *)
Inductive wf (h : heap) : vector -> Prop :=
| wf_null : wf h (Vector nullptr nullptr nullptr)
| wf_block (b : block) (xs : list T) (spare : list (option T)) :
    h !! b = Some ((Some <$> xs) ++ spare) ->
    Z.of_nat (length xs + length spare) <= max_array_len ->
    wf h (Vector (Ptr b 0) (Ptr b (Z.of_nat (length xs)))
            (Ptr b (Z.of_nat (length xs + length spare)))).

(** No slot of the array of [v] has lost its object: the state of an
    array since [new T[n]] as long as no destructor has run on a slot of
    it. *)
Definition intact (h : heap) (v : vector) : Prop :=
  forall b off arr,
    first v = Ptr b off -> h !! b = Some arr -> Forall is_Some arr.

(** The iterator range [[p, q)] reads as the sequence [xs]: both null, or
    both into one live array, [xs] being the objects in its slots from
    [p] up to [q]. *)
Inductive range (h : heap) : pointer -> pointer -> list T -> Prop :=
| range_null : range h nullptr nullptr []
| range_block (b : block) (arr : list (option T)) (i n : Z) (xs : list T) :
    h !! b = Some arr ->
    0 <= i <= n -> n <= Z.of_nat (length arr) ->
    drop (Z.to_nat i) (take (Z.to_nat n) arr) = Some <$> xs ->
    range h (Ptr b i) (Ptr b n) xs.

(** The states a container can be in: after one of its constructors and
    any number of calls of its members that return, whatever happens to
    the other arrays of the heap in between.  Two containers never own
    one array, which is what [reach_move_assign_to] asks of [*this] and
    [other]; a self-assignment changes nothing. *)
Inductive reachable : heap -> vector -> Prop :=
| reach_default h :
    reachable h vector_default
| reach_fill h count value v h' :
    0 <= count < size_type_modulus ->
    vector_fill count value h = Ok v h' -> reachable h' v
| reach_init h init v h' :
    Z.of_nat (length init) < size_type_modulus ->
    vector_init init h = Ok v h' -> reachable h' v
| reach_copy h other v h' :
    reachable h other ->
    vector_copy other h = Ok v h' -> reachable h' v
| reach_move_to h other v other' h' :
    reachable h other ->
    vector_move other h = Ok (v, other') h' -> reachable h' v
| reach_move_from h other v other' h' :
    reachable h other ->
    vector_move other h = Ok (v, other') h' -> reachable h' other'
| reach_push_back h v value v' h' :
    reachable h v ->
    push_back value v h = Ok v' h' -> reachable h' v'
| reach_pop_back h v v' h' :
    reachable h v ->
    pop_back v h = Ok v' h' -> reachable h' v'
| reach_clear h v v' h' :
    reachable h v ->
    clear v h = Ok v' h' -> reachable h' v'
| reach_resize h v new_size value v' h' :
    reachable h v ->
    0 <= new_size < size_type_modulus ->
    resize new_size value v h = Ok v' h' -> reachable h' v'
| reach_reserve h v new_cap v' h' :
    reachable h v ->
    0 <= new_cap < size_type_modulus ->
    reserve new_cap v h = Ok v' h' -> reachable h' v'
| reach_shrink_to_fit h v v' h' :
    reachable h v ->
    shrink_to_fit v h = Ok v' h' -> reachable h' v'
| reach_range h start end_ xs v h' :
    range h start end_ xs -> Z.of_nat (length xs) <= PTRDIFF_MAX ->
    vector_range start end_ h = Ok v h' -> reachable h' v
| reach_copy_assign h same_object v other v' h' :
    reachable h v -> reachable h other ->
    copy_assign same_object v other h = Ok v' h' -> reachable h' v'
| reach_move_assign_to h v other v' other' h' :
    reachable h v -> reachable h other ->
    first v = nullptr \/ first v <> first other ->
    move_assign false v other h = Ok (v', other') h' -> reachable h' v'
| reach_move_assign_from h v other v' other' h' :
    reachable h v -> reachable h other ->
    move_assign false v other h = Ok (v', other') h' -> reachable h' other'
| reach_emplace_back h v value v' h' :
    reachable h v ->
    emplace_back value v h = Ok v' h' -> reachable h' v'
| reach_swap h v other v' other' :
    reachable h v -> reachable h other ->
    swap v other = (v', other') -> reachable h v'
| reach_frame h v h' :
    reachable h v ->
    (forall b off, first v = Ptr b off -> h' !! b = h !! b) ->
    reachable h' v.

(** ** Sequences of calls *)

(** [push_back(value)] for each [value] of [values], in order. *)
Fixpoint push_back_all (values : list cref) (v : vector) : M vector :=
  match values with
  | [] => ret v
  | value :: rest => v' <~ push_back value v ;; push_back_all rest v'
  end.

(** ** The orders the specification speaks of *)

(** Lexicographic order of two sequences under [T_lt]: a sequence that
    ends first is less; otherwise the first position where one element is
    less than the other decides. *)
Inductive lex_lt : list T -> list T -> Prop :=
| lex_lt_nil y ys : lex_lt [] (y :: ys)
| lex_lt_head x xs y ys : T_lt x y = true -> lex_lt (x :: xs) (y :: ys)
| lex_lt_tail x xs y ys :
    T_lt x y = false -> T_lt y x = false ->
    lex_lt xs ys -> lex_lt (x :: xs) (y :: ys).

(** Two sequences of the same length that are equal element by element
    under [T_eq]. *)
Definition elementwise_eq (xs ys : list T) : Prop :=
  length xs = length ys /\
  forall i x y, xs !! i = Some x -> ys !! i = Some y -> T_eq x y = true.

(** [ys] continues [xs]: [xs] is a proper prefix of [ys]. *)
Definition proper_prefix (xs ys : list T) : Prop :=
  exists y rest, ys = xs ++ y :: rest.

(** The capacities of the doubling series [0, 1, 2, 4, 8, ...]: [c] is the
    one reached after [k] appends to an empty container, namely [0] for
    [k = 0] and otherwise the least power of two that is at least [k]. *)
Definition doubled (k c : Z) : Prop :=
  (k = 0 /\ c = 0) \/ (exists j, 0 <= j /\ c = 2 ^ j /\ k <= c < 2 * k).

(** ** Ownership of the heap *)

(** The heap without the array of [v]. *)
Definition heap_without (h : heap) (v : vector) : heap :=
  match first v with
  | nullptr => h
  | Ptr b _ => delete b h
  end.

(** [v] is sound in [h], and [h] is [h0] with the array of [v] added: the
    container holds one array that [h0] does not have, or none. *)
Definition owns (h0 h : heap) (v : vector) : Prop :=
  wf h v /\
  match first v with
  | nullptr => h = h0
  | Ptr b _ => h0 !! b = None /\ delete b h = h0
  end.

(** The argument [value] is not an element of [v] and reads as [x]: it is
    a temporary or an object outside the arrays, of value [x], or a slot
    of an array other than that of [v], with an object of value [x]. *)
Definition outside (h : heap) (v : vector) (value : cref) (x : T) : Prop :=
  read value (heap_without h v) = Ok x (heap_without h v).

(** The calls that change a container, and a sequence of them on one
    container.  [CopyAssign other] is [*this = other] for another object
    [other]. *)
Inductive call :=
| PushBack (value : cref)
| EmplaceBack (value : cref)
| PopBack
| Clear
| Resize (new_size : Z) (value : cref)
| Reserve (new_cap : Z)
| ShrinkToFit
| CopyAssign (other : vector).

Definition run_call (c : call) (v : vector) : M vector :=
  match c with
  | PushBack value => push_back value v
  | EmplaceBack value => emplace_back value v
  | PopBack => pop_back v
  | Clear => clear v
  | Resize new_size value => resize new_size value v
  | Reserve new_cap => reserve new_cap v
  | ShrinkToFit => shrink_to_fit v
  | CopyAssign other => copy_assign false v other
  end.

Fixpoint run_calls (cs : list call) (v : vector) : M vector :=
  match cs with
  | [] => ret v
  | c :: rest => v' <~ run_call c v ;; run_calls rest v'
  end.

(** The arguments of a call are of [size_type], and the source of an
    assignment is a sound container of the heap [h0] around the
    container. *)
Definition call_ok (h0 : heap) (c : call) : Prop :=
  match c with
  | Resize new_size _ => 0 <= new_size < size_type_modulus
  | Reserve new_cap => 0 <= new_cap < size_type_modulus
  | CopyAssign other => wf h0 other
  | _ => True
  end.


End Vector.

(** ** The stream operators

    [operator<<] and [operator>>] of the container go through those of
    the element type.  An output stream is the text written to it so far,
    and [os << x] appends the text [T_show x]; an input stream is any
    state [IS], and [is >> x] gives the stream and [x] afterwards. *)

Class Printable (T : Type) := {
  T_show : T -> string
}.

Class Readable (IS T : Type) := {
  T_get : IS -> T -> IS * T
}.

Section Streams.

Context {T : Type} `{ET : Element T}.

Abbreviation heap := (gmap block (list (option T))).
Abbreviation M := (M heap).

(** The loop of [operator<<], from index [i] on with [n] iterations
    left. *)
Fixpoint out_loop `{Printable T} (n : nat) (i : Z) (vec : vector)
    (os : string) : M string :=
  match n with
  | O => ret os
  | S n' =>
      x <~ subscript i vec ;;
      let os := os +:+ T_show x in
      let os := if decide (wrap (i + 1) <> size vec) then os +:+ " " else os in
      out_loop n' (i + 1) vec os
  end.

(** [operator<<(os, vec)] *)
Definition operator_out `{Printable T} (os : string) (vec : vector)
    : M string :=
  os <~ out_loop (Z.to_nat (size vec)) 0 vec os ;;
  ret (os +:+ String "010"%char EmptyString).

(** The loop of [operator>>]: [for (auto &elem : vec) is >> elem], from
    the iterator [p] on, at most [n] times. *)
Fixpoint in_loop {IS : Type} `{Readable IS T} (n : nat)
    (p last_ : pointer) (is_ : IS) : M IS :=
  if bool_decide (p <> last_) then
    match n with
    | O => fun _ => Diverge
    | S n' =>
        x <~ load p ;;
        let '(is', x') := T_get is_ x in
        store p x' ;;;
        in_loop n' (ptr_add p 1) last_ is'
    end
  else ret is_.

(** [operator>>(is, vec)] *)
Definition operator_in {IS : Type} `{Readable IS T} (is_ : IS)
    (vec : vector) : M IS :=
  in_loop (Z.to_nat (size vec)) (first vec) (last vec) is_.

(** Reading into each of [xs] in turn: the stream and the values
    afterwards. *)
Fixpoint get_all {IS : Type} `{Readable IS T} (is_ : IS) (xs : list T)
    : IS * list T :=
  match xs with
  | [] => (is_, [])
  | x :: rest =>
      let '(is', x') := T_get is_ x in
      let '(is'', rest') := get_all is' rest in
      (is'', x' :: rest')
  end.

End Streams.

(** ** Element types to run the definitions on *)

(** [int] *)
#[global] Program Instance int_Element : Element Z := {|
  T_default := 0;
  T_sizeof := 4;
  T_eq := Z.eqb;
  T_lt := Z.ltb;
  T_trivial_dtor := true
|}.
Next Obligation. lia. Qed.

(** [std::string]: an element type with a destructor. *)
#[global] Program Instance string_Element : Element string := {|
  T_default := EmptyString;
  T_sizeof := 32;
  T_eq := String.eqb;
  T_lt := String.ltb;
  T_trivial_dtor := false
|}.
Next Obligation. lia. Qed.

(** [double]: [==] and [<] of IEEE 754, under which a NaN is not equal
    to itself. *)
#[global] Program Instance double_Element : Element float := {|
  T_default := PrimFloat.zero;
  T_sizeof := 8;
  T_eq := PrimFloat.eqb;
  T_lt := PrimFloat.ltb;
  T_trivial_dtor := true
|}.
Next Obligation. lia. Qed.

(** [int] is written in decimal; the input stream for the samples is the
    list of the numbers still to be read, and a read from the exhausted
    stream leaves the variable as it is. *)
#[global] Instance int_Printable : Printable Z := {|
  T_show := pretty
|}.

#[global] Instance int_Readable : Readable (list Z) Z := {|
  T_get is_ x :=
    match is_ with
    | [] => ([], x)
    | token :: rest => (rest, token)
    end
|}.

(** Two containers of [int] in one heap, as left by
    [vector<int> a{1, 2}; vector<int> b{1, 2}; b.push_back(3);]:
    [a] is full, [b] was doubled from capacity [2] to capacity [4]. *)
Definition sample_heap : gmap block (list (option Z)) :=
  {[ 1%positive := [Some 1; Some 2];
     3%positive := [Some 1; Some 2; Some 3; Some 0] ]}.

Definition sample_a : vector :=
  Vector (Ptr 1%positive 0) (Ptr 1%positive 2) (Ptr 1%positive 2).

Definition sample_b : vector :=
  Vector (Ptr 3%positive 0) (Ptr 3%positive 3) (Ptr 3%positive 4).

(** What [vector<int> z(0, 7);] leaves in an empty heap. *)
Definition sample_zero_heap : gmap block (list (option Z)) :=
  {[ 1%positive := [] ]}.

Definition sample_zero : vector :=
  Vector (Ptr 1%positive 0) (Ptr 1%positive 0) (Ptr 1%positive 0).

(** A container of [int] with two spare slots, as left by
    [vector<int> c{1}; c.reserve(3);]. *)
Definition sample_spare_heap : gmap block (list (option Z)) :=
  {[ 2%positive := [Some 1; Some 0; Some 0] ]}.

Definition sample_spare : vector :=
  Vector (Ptr 2%positive 0) (Ptr 2%positive 1) (Ptr 2%positive 3).

(** A container of [std::string], as left by
    [vector<string> s{"a", "b"};]. *)
Definition sample_strings_heap : gmap block (list (option string)) :=
  {[ 1%positive := [Some "a"; Some "b"] ]}.

Definition sample_strings : vector :=
  Vector (Ptr 1%positive 0) (Ptr 1%positive 2) (Ptr 1%positive 2).

(** A container of [std::string] after
    [vector<string> s{"a", "b"}; s.pop_back();]: the second slot holds no
    object any more. *)
Definition sample_popped_heap : gmap block (list (option string)) :=
  {[ 1%positive := [Some "a"; None] ]}.

Definition sample_popped : vector :=
  Vector (Ptr 1%positive 0) (Ptr 1%positive 1) (Ptr 1%positive 2).

(** * Properties *)

Section Basics.

Context {T : Type} `{ET : Element T}.

Abbreviation heap := (gmap block (list (option T))).

(** ** Arithmetic of sizes *)

Lemma max_array_len_range : 0 <= max_array_len <= PTRDIFF_MAX.
Proof.
  unfold max_array_len. pose proof T_sizeof_pos as Hs. split.
  - apply Z.div_pos; [unfold PTRDIFF_MAX; lia | exact Hs].
  - apply Z.div_le_upper_bound; [exact Hs |].
    unfold PTRDIFF_MAX in *. nia.
Qed.

Lemma max_array_len_lt_modulus : 2 * max_array_len < size_type_modulus.
Proof.
  pose proof max_array_len_range.
  unfold PTRDIFF_MAX, size_type_modulus in *. lia.
Qed.

Lemma wrap_small z : 0 <= z < size_type_modulus -> wrap z = z.
Proof. intros Hz. unfold wrap. by apply Z.mod_small. Qed.

Lemma size_block b n e :
  0 <= n < size_type_modulus -> size (Vector (Ptr b 0) (Ptr b n) e) = n.
Proof.
  intros Hn. unfold size. simpl. rewrite decide_True by done.
  rewrite Z.sub_0_r. by apply wrap_small.
Qed.

Lemma capacity_block b l c :
  0 <= c < size_type_modulus -> capacity (Vector (Ptr b 0) l (Ptr b c)) = c.
Proof.
  intros Hc. unfold capacity. simpl. rewrite decide_True by done.
  rewrite Z.sub_0_r. by apply wrap_small.
Qed.

(** ** Slots and the objects in them *)

Lemma objects_fmap (xs : list T) : objects (Some <$> xs) = xs.
Proof.
  unfold objects. induction xs as [|x xs IH]; [done |].
  cbn [fmap list_fmap omap list_omap id]. simpl. f_equal. exact IH.
Qed.

Lemma live_objects (slots : list (option T)) :
  Forall is_Some slots -> slots = Some <$> objects slots.
Proof.
  unfold objects. induction 1 as [|s slots [x ->] _ IH]; [done |].
  simpl. f_equal. exact IH.
Qed.

Lemma Forall_live (xs : list T) : Forall is_Some (Some <$> xs).
Proof. apply Forall_fmap, Forall_true. by eexists. Qed.

Lemma take_slots (xs : list T) (spare : list (option T)) :
  take (length xs) ((Some <$> xs) ++ spare) = Some <$> xs.
Proof. rewrite take_app_length'; [done | by rewrite length_fmap]. Qed.

Lemma drop_slots (xs : list T) (spare : list (option T)) :
  drop (length xs) ((Some <$> xs) ++ spare) = spare.
Proof. rewrite drop_app_length'; [done | by rewrite length_fmap]. Qed.

Lemma lookup_slots_lt (xs : list T) (spare : list (option T)) (i : nat) x :
  xs !! i = Some x -> ((Some <$> xs) ++ spare) !! i = Some (Some x).
Proof.
  intros Hx. rewrite lookup_app_l.
  - by rewrite list_lookup_fmap, Hx.
  - rewrite length_fmap. by eapply lookup_lt_Some.
Qed.

Lemma slots_snoc (xs : list T) x (spare : list (option T)) :
  (Some <$> xs ++ [x]) ++ spare = (Some <$> xs) ++ Some x :: spare.
Proof. by rewrite fmap_app, <- app_assoc. Qed.

Lemma insert_slots (xs : list T) s s' (spare : list (option T)) :
  <[length xs := s']> ((Some <$> xs) ++ s :: spare)
  = (Some <$> xs) ++ s' :: spare.
Proof.
  rewrite insert_app_r_alt by (by rewrite length_fmap).
  by rewrite length_fmap, Nat.sub_diag.
Qed.

(** ** What the invariant says about [size()], [capacity()] and the
    elements *)

Lemma wf_bounds (h : heap) v :
  wf h v -> 0 <= size v <= capacity v /\ capacity v <= max_array_len.
Proof.
  pose proof max_array_len_range as Hm.
  pose proof max_array_len_lt_modulus as Hm'.
  intros [|b xs spare Hb Hlen].
  - unfold size, capacity, wrap. simpl. rewrite Z.mod_0_l; [lia | done].
  - rewrite size_block, capacity_block by lia. lia.
Qed.

Lemma elements_block (h : heap) b (xs : list T) spare c :
  h !! b = Some ((Some <$> xs) ++ spare) ->
  Z.of_nat (length xs) < size_type_modulus ->
  elements h (Vector (Ptr b 0) (Ptr b (Z.of_nat (length xs))) c) = xs.
Proof.
  intros Hb Hn. unfold elements. simpl. rewrite Hb. simpl.
  rewrite size_block by lia. rewrite Nat2Z.id, take_slots.
  apply objects_fmap.
Qed.

Lemma wf_intro (h : heap) b (xs : list T) spare n c :
  h !! b = Some ((Some <$> xs) ++ spare) ->
  n = Z.of_nat (length xs) -> c = Z.of_nat (length xs + length spare) ->
  c <= max_array_len ->
  wf h (Vector (Ptr b 0) (Ptr b n) (Ptr b c)).
Proof. intros Hb -> -> Hc. by apply wf_block. Qed.

Lemma wf_block_inv (h : heap) b off l e :
  wf h (Vector (Ptr b off) l e) ->
  exists xs spare,
    h !! b = Some ((Some <$> xs) ++ spare) /\ off = 0 /\
    l = Ptr b (Z.of_nat (length xs)) /\
    e = Ptr b (Z.of_nat (length xs + length spare)) /\
    size (Vector (Ptr b off) l e) = Z.of_nat (length xs) /\
    capacity (Vector (Ptr b off) l e)
    = Z.of_nat (length xs + length spare) /\
    elements h (Vector (Ptr b off) l e) = xs.
Proof.
  pose proof max_array_len_lt_modulus as Hm'.
  intros Hwf. inversion Hwf as [|b' xs spare Hb Hlen]; subst.
  exists xs, spare. rewrite size_block, capacity_block by lia.
  rewrite (elements_block h b xs spare) by (done || lia). done.
Qed.

Lemma length_elements (h : heap) v :
  wf h v -> Z.of_nat (length (elements h v)) = size v.
Proof.
  pose proof max_array_len_lt_modulus as Hm'.
  intros [|b xs spare Hb Hlen].
  - done.
  - rewrite (elements_block h b xs spare) by (done || lia).
    by rewrite size_block by lia.
Qed.

(** The array of a sound container: its elements, then its spare
    slots. *)
Lemma wf_array (h : heap) v b off arr :
  wf h v -> first v = Ptr b off -> h !! b = Some arr ->
  arr = (Some <$> elements h v) ++ drop (Z.to_nat (size v)) arr /\
  Z.of_nat (length arr) = capacity v.
Proof.
  pose proof max_array_len_lt_modulus as Hm'.
  intros Hwf Hfirst Harr. destruct Hwf as [|b' xs spare Hb Hlen]; [done |].
  simpl in Hfirst. injection Hfirst as <- <-.
  rewrite Hb in Harr. injection Harr as <-.
  rewrite (elements_block h b' xs spare) by (done || lia).
  rewrite size_block, capacity_block by lia.
  rewrite Nat2Z.id, drop_slots. split; [done |].
  rewrite length_app, length_fmap. lia.
Qed.

(** A full container has no spare slot to lose an object from. *)
Lemma wf_full_intact (h : heap) v :
  wf h v -> size v = capacity v -> intact h v.
Proof.
  pose proof max_array_len_lt_modulus as Hm'.
  intros [|b xs spare Hb Hlen]; [done |].
  rewrite size_block, capacity_block by lia. intros Hfull.
  intros b' off arr [= <- <-] Harr. rewrite Hb in Harr. injection Harr as <-.
  destruct spare; [| simpl in Hfull; lia].
  rewrite app_nil_r. apply Forall_live.
Qed.

Lemma intact_block (h : heap) b l e (xs : list T) spare :
  h !! b = Some ((Some <$> xs) ++ spare) ->
  intact h (Vector (Ptr b 0) l e) <-> Forall is_Some spare.
Proof.
  intros Hb. split.
  - intros Hi. specialize (Hi b 0 _ eq_refl Hb).
    by apply Forall_app in Hi as [_ Hi].
  - intros Hs b' off arr [= <- <-] Harr. rewrite Hb in Harr.
    injection Harr as <-. apply Forall_app. split; [apply Forall_live | done].
Qed.

Lemma intact_dec (h : heap) v : intact h v \/ ~ intact h v.
Proof.
  destruct v as [[|b off] l e].
  - left. by intros b off arr.
  - destruct (h !! b) as [arr |] eqn:Hb.
    + destruct (decide (Forall is_Some arr)) as [Hall | Hnot].
      * left. intros b' off' arr' [= <- <-] Harr. by simplify_eq.
      * right. intros Hi. apply Hnot. by apply (Hi b off).
    + left. intros b' off' arr' [= <- <-] Harr. by simplify_eq.
Qed.

(** ** Running a computation *)

Lemma bind_Ok {A B} (m : M heap A) (k : A -> M heap B) h a h' :
  m h = Ok a h' -> bind m k h = k a h'.
Proof. intros Hm. unfold bind. by rewrite Hm. Qed.

Lemma bind_Ok_inv {A B} (m : M heap A) (k : A -> M heap B) h b h' :
  bind m k h = Ok b h' ->
  exists a h1, m h = Ok a h1 /\ k a h1 = Ok b h'.
Proof.
  unfold bind. intros Hrun.
  destruct (m h) as [a h1 | | | |]; try done. by exists a, h1.
Qed.

Lemma fresh_block_None (h : heap) : h !! fresh (dom h) = None.
Proof. apply not_elem_of_dom. apply is_fresh. Qed.

Lemma fresh_block_ne (h : heap) b arr : h !! b = Some arr -> b <> fresh (dom h).
Proof. intros Hb ->. by rewrite fresh_block_None in Hb. Qed.

Lemma load_Ok (h : heap) b arr (j : nat) x :
  h !! b = Some arr -> arr !! j = Some (Some x) ->
  load (Ptr b (0 + Z.of_nat j)) h = Ok x h.
Proof.
  intros Hb Hj. unfold load. rewrite Hb.
  rewrite decide_True by lia.
  replace (Z.to_nat (0 + Z.of_nat j)) with j by lia. by rewrite Hj.
Qed.

Lemma store_Ok (h : heap) b arr (j : nat) x y :
  h !! b = Some arr -> arr !! j = Some (Some y) ->
  store (Ptr b (0 + Z.of_nat j)) x h = Ok tt (<[b := <[j := Some x]> arr]> h).
Proof.
  intros Hb Hj. unfold store. rewrite Hb.
  rewrite decide_True by lia.
  replace (Z.to_nat (0 + Z.of_nat j)) with j by lia. by rewrite Hj.
Qed.

(** A read does not change the heap. *)
Lemma load_heap (h : heap) p x h' : load p h = Ok x h' -> h' = h.
Proof.
  unfold load. intros Hrun. destruct p as [|b off]; [done |].
  destruct (h !! b) as [arr |]; [| done].
  destruct (decide (0 <= off)); [| done].
  destruct (arr !! Z.to_nat off) as [[y |] |]; by simplify_eq.
Qed.

Lemma read_heap (h : heap) value x h' : read value h = Ok x h' -> h' = h.
Proof.
  destruct value as [y | p]; simpl.
  - unfold ret. by intros [= _ <-].
  - apply load_heap.
Qed.

(** A read depends on the array it reads from only. *)
Lemma load_frame (h h' : heap) p x :
  load p h = Ok x h ->
  (forall b off, p = Ptr b off -> h' !! b = h !! b) ->
  load p h' = Ok x h'.
Proof.
  unfold load. intros Hrun Hsame. destruct p as [|b off]; [done |].
  rewrite (Hsame b off eq_refl).
  destruct (h !! b) as [arr |]; [| done].
  destruct (decide (0 <= off)); [| done].
  destruct (arr !! Z.to_nat off) as [[y |] |]; by simplify_eq.
Qed.

Lemma read_frame (h h' : heap) value x :
  read value h = Ok x h ->
  (forall b off, value = Ref (Ptr b off) -> h' !! b = h !! b) ->
  read value h' = Ok x h'.
Proof.
  destruct value as [y | p]; simpl.
  - unfold ret. by intros [= ->] _.
  - intros Hrun Hsame. apply (load_frame h); [done |].
    intros b off ->. by apply (Hsame b off).
Qed.

(** A read through a reference finds a live array. *)
Lemma read_Ref_live (h : heap) b off x :
  read (Ref (Ptr b off)) h = Ok x h -> exists arr, h !! b = Some arr.
Proof.
  simpl. unfold load. destruct (h !! b) as [arr |]; [by eexists | done].
Qed.

(** ** Loops that fill an array

    A counted loop whose [j]-th iteration assigns [vals !! j] to slot [j]
    of the array [bd], every slot of which holds an object, and keeps
    some property [P] of the rest of the heap, overwrites the first
    [length vals] slots with [vals]. *)
Lemma for_loop_writes (body : Z -> M heap unit) (bd : block) (vals : list T)
    (P : heap -> Prop) :
  (forall h dst, P h -> P (<[bd := dst]> h)) ->
  (forall h dst j x y,
      P h -> h !! bd = Some dst -> vals !! j = Some x ->
      dst !! j = Some (Some y) ->
      body (Z.of_nat j) h = Ok tt (<[bd := <[j := Some x]> dst]> h)) ->
  forall m k h dst,
    (m + k = length vals)%nat -> P h -> h !! bd = Some dst ->
    (length vals <= length dst)%nat -> Forall is_Some dst ->
    for_loop m (Z.of_nat k) body h
    = Ok tt (<[bd := take k dst ++ (Some <$> drop k vals)
                     ++ drop (length vals) dst]> h).
Proof.
  intros HP Hbody m.
  induction m as [|m IH]; intros k h dst Hk HPh Hbd Hlen Hlive.
  - simpl in Hk. subst k. simpl. unfold ret. f_equal.
    rewrite drop_all. simpl. rewrite take_drop. by rewrite insert_id.
  - assert (Hlt : (k < length vals)%nat) by lia.
    destruct (lookup_lt_is_Some_2 vals k Hlt) as [x Hx].
    destruct (lookup_lt_is_Some_2 dst k) as [s Hs]; [lia |].
    destruct (Forall_lookup_1 _ _ _ _ Hlive Hs) as [y ->].
    simpl. erewrite bind_Ok; [| eapply Hbody; eauto].
    replace (Z.of_nat k + 1) with (Z.of_nat (S k)) by lia.
    rewrite (IH (S k) _ (<[k := Some x]> dst)).
    + rewrite insert_insert_eq. do 2 f_equal.
      rewrite (drop_S vals x k Hx).
      rewrite drop_insert_lt by lia.
      rewrite (take_S_r (<[k := Some x]> dst) k (Some x)).
      * rewrite take_insert_ge by lia. by rewrite <- app_assoc.
      * apply list_lookup_insert_eq. lia.
    + lia.
    + by apply HP.
    + by rewrite lookup_insert_eq.
    + rewrite length_insert. lia.
    + apply Forall_insert; [done | by eexists].
Qed.

(** The copying loop of [reallocate] and of the copy constructor: from
    the elements [xs] of one array into an array of objects. *)
Lemma copy_loop_spec (h : heap) bs bd (xs : list T) rest dst :
  bs <> bd -> h !! bs = Some ((Some <$> xs) ++ rest) -> h !! bd = Some dst ->
  (length xs <= length dst)%nat -> Forall is_Some dst ->
  for_upto (Z.of_nat (length xs))
    (fun i => x <~ load (ptr_add (Ptr bs 0) i) ;;
              store (ptr_add (Ptr bd 0) i) x) h
  = Ok tt (<[bd := (Some <$> xs) ++ drop (length xs) dst]> h).
Proof.
  intros Hne Hs Hd Hlen Hlive. unfold for_upto. rewrite Nat2Z.id.
  pose proof (for_loop_writes
    (fun i => x <~ load (ptr_add (Ptr bs 0) i) ;;
              store (ptr_add (Ptr bd 0) i) x)
    bd xs (fun h => h !! bs = Some ((Some <$> xs) ++ rest))) as Hloop.
  apply (Hloop) with (m := length xs) (k := 0%nat); try done; try lia.
  - intros h0 dst0 Hh0. by rewrite lookup_insert_ne.
  - intros h0 dst0 j x y Hh0 Hd0 Hj Hy. simpl.
    erewrite bind_Ok; [| eapply load_Ok; [exact Hh0 | by apply lookup_slots_lt]].
    by eapply store_Ok.
Qed.

(** The filling loop of [vector(count, value)]. *)
Lemma fill_loop_spec (h : heap) bd dst (n : Z) value :
  h !! bd = Some dst -> n <= Z.of_nat (length dst) -> Forall is_Some dst ->
  for_upto n (fun i => store (ptr_add (Ptr bd 0) i) value) h
  = Ok tt (<[bd := replicate (Z.to_nat n) (Some value)
                   ++ drop (Z.to_nat n) dst]> h).
Proof.
  intros Hd Hnd Hlive. unfold for_upto.
  pose proof (for_loop_writes
    (fun i => store (ptr_add (Ptr bd 0) i) value)
    bd (replicate (Z.to_nat n) value) (fun _ => True)) as Hloop.
  rewrite length_replicate in Hloop.
  rewrite <- fmap_replicate.
  apply (Hloop) with (m := Z.to_nat n) (k := 0%nat); try done; try lia.
  intros h0 dst0 j x y _ Hd0 Hj Hy. simpl.
  apply lookup_replicate in Hj as [-> _]. by eapply store_Ok.
Qed.

(** ** Allocation and reallocation *)

Lemma new_array_Ok (h : heap) n :
  n <= max_array_len ->
  new_array n h
  = Ok (Ptr (fresh (dom h)) 0)
       (<[fresh (dom h) := replicate (Z.to_nat n) (Some T_default)]> h).
Proof. intros Hn. unfold new_array. by rewrite decide_False by lia. Qed.

Lemma new_array_BadAlloc (h : heap) n :
  max_array_len < n -> new_array n h = BadAlloc.
Proof. intros Hn. unfold new_array. by rewrite decide_True. Qed.

Lemma Forall_fresh_slots (n : nat) :
  Forall is_Some (replicate n (Some T_default)).
Proof. apply Forall_replicate. by eexists. Qed.

(** A request that cannot be served makes [reallocate] throw, before
    anything is touched. *)
Lemma reallocate_BadAlloc (h : heap) v new_cap :
  max_array_len < new_cap -> reallocate new_cap v h = BadAlloc.
Proof.
  intros Hn. unfold reallocate, bind. by rewrite new_array_BadAlloc.
Qed.

(** [reallocate(new_cap)] with room for the elements, up to
    [delete[] first]: the elements are in a fresh array of [new_cap]
    slots, and the old array is as it was. *)
Lemma reallocate_copy (h : heap) v new_cap :
  wf h v -> size v <= new_cap -> new_cap <= max_array_len ->
  reallocate new_cap v h
  = (delete_array (first v) ;;;
     ret (Vector (Ptr (fresh (dom h)) 0) (Ptr (fresh (dom h)) (size v))
            (Ptr (fresh (dom h)) new_cap)))
      (<[fresh (dom h) :=
           (Some <$> elements h v)
           ++ replicate (Z.to_nat (new_cap - size v)) (Some T_default)]> h).
Proof.
  pose proof max_array_len_lt_modulus as Hm.
  intros Hwf Hsz Hcap. unfold reallocate.
  erewrite bind_Ok; [| by apply new_array_Ok].
  set (b' := fresh (dom h)).
  set (dst := replicate (Z.to_nat new_cap) (Some T_default)).
  destruct Hwf as [|b xs spare Hb Hlen].
  - change (size (Vector nullptr nullptr nullptr)) with 0.
    simpl. unfold bind at 1, ret at 1. simpl.
    by rewrite Z.sub_0_r, !Z.add_0_l.
  - rewrite size_block in * by lia.
    assert (Hne : b <> b') by (by eapply fresh_block_ne).
    rewrite (elements_block h b xs spare) by (done || lia).
    erewrite bind_Ok.
    2:{ apply (copy_loop_spec _ b b' xs spare dst); try done.
        - by rewrite lookup_insert_ne.
        - by rewrite lookup_insert_eq.
        - unfold dst. rewrite length_replicate. lia.
        - apply Forall_fresh_slots. }
    rewrite insert_insert_eq. simpl. rewrite !Z.add_0_l.
    unfold dst. rewrite drop_replicate.
    replace (Z.to_nat new_cap - length xs)%nat
      with (Z.to_nat (new_cap - Z.of_nat (length xs))) by lia.
    done.
Qed.

(** [reallocate(new_cap)] on a container whose array is intact: the
    container moves to a fresh array of [new_cap] slots, all with objects
    and the first of them the elements; the old array is released and no
    other array changes. *)
Lemma reallocate_heap (h : heap) v new_cap :
  wf h v -> intact h v -> size v <= new_cap -> new_cap <= max_array_len ->
  reallocate new_cap v h
  = Ok (Vector (Ptr (fresh (dom h)) 0) (Ptr (fresh (dom h)) (size v))
          (Ptr (fresh (dom h)) new_cap))
       (heap_without
          (<[fresh (dom h) :=
               (Some <$> elements h v)
               ++ replicate (Z.to_nat (new_cap - size v)) (Some T_default)]> h)
          v).
Proof.
  intros Hwf Hi Hsz Hcap. rewrite reallocate_copy by done.
  unfold bind, delete_array, heap_without.
  destruct Hwf as [|b xs spare Hb Hlen]; simpl; [done |].
  pose proof (fresh_block_ne h b _ Hb) as Hne.
  rewrite lookup_insert_ne, Hb by done.
  by rewrite decide_True by (by apply (Hi b 0)).
Qed.

(** When a slot of the array has lost its object, [delete[] first]
    destroys it a second time. *)
Lemma reallocate_Undefined (h : heap) v new_cap :
  wf h v -> ~ intact h v -> size v <= new_cap -> new_cap <= max_array_len ->
  reallocate new_cap v h = Undefined.
Proof.
  intros Hwf Hi Hsz Hcap. rewrite reallocate_copy by done.
  unfold bind, delete_array.
  destruct Hwf as [|b xs spare Hb Hlen]; simpl.
  - exfalso. apply Hi. by intros b off arr.
  - pose proof (fresh_block_ne h b _ Hb) as Hne.
    rewrite lookup_insert_ne, Hb by done.
    rewrite decide_False; [done |]. intros Hall. apply Hi.
    intros b' off arr [= <- <-] Harr. by simplify_eq.
Qed.

(** A [reallocate] that returns found the array intact and the request
    within what an array can hold. *)
Lemma reallocate_Ok_inv (h : heap) v new_cap v' h' :
  wf h v -> size v <= new_cap -> reallocate new_cap v h = Ok v' h' ->
  intact h v /\ new_cap <= max_array_len.
Proof.
  intros Hwf Hsz Hrun.
  destruct (decide (new_cap <= max_array_len)) as [Hle | Hgt].
  - split; [| done]. destruct (intact_dec h v) as [Hi | Hi]; [done |].
    by rewrite reallocate_Undefined in Hrun.
  - by rewrite reallocate_BadAlloc in Hrun by lia.
Qed.

Lemma heap_without_fresh (h : heap) v arr' :
  wf h v ->
  heap_without (<[fresh (dom h) := arr']> h) v !! fresh (dom h) = Some arr'.
Proof.
  intros [|b xs spare Hb Hlen]; unfold heap_without; simpl.
  - apply lookup_insert_eq.
  - rewrite lookup_delete_ne by (by eapply fresh_block_ne).
    apply lookup_insert_eq.
Qed.

Lemma heap_without_other (h : heap) v b arr' :
  b <> fresh (dom h) -> (forall off, first v <> Ptr b off) ->
  heap_without (<[fresh (dom h) := arr']> h) v !! b = h !! b.
Proof.
  intros Hne Hfirst. unfold heap_without.
  destruct (first v) as [|bv off] eqn:Hfv.
  - by rewrite lookup_insert_ne.
  - rewrite lookup_delete_ne, lookup_insert_ne; [done | done |].
    intros ->. by apply (Hfirst off).
Qed.

(** What [reallocate_heap] means for the container. *)
Lemma reallocate_spec (h : heap) v new_cap :
  wf h v -> intact h v -> size v <= new_cap -> new_cap <= max_array_len ->
  exists v' h',
    reallocate new_cap v h = Ok v' h' /\
    wf h' v' /\ intact h' v' /\ size v' = size v /\ capacity v' = new_cap /\
    elements h' v' = elements h v /\
    first v' = Ptr (fresh (dom h)) 0 /\
    (forall b, b <> fresh (dom h) ->
       (forall off, first v <> Ptr b off) -> h' !! b = h !! b).
Proof.
  pose proof max_array_len_lt_modulus as Hm.
  intros Hwf Hi Hsz Hcap.
  pose proof (wf_bounds h v Hwf) as Hb.
  pose proof (length_elements h v Hwf) as Hl.
  eexists _, _. split; [by apply reallocate_heap |].
  set (arr := (Some <$> elements h v)
              ++ replicate (Z.to_nat (new_cap - size v)) (Some T_default)).
  pose proof (heap_without_fresh h v arr Hwf) as Hnew.
  split; [| split; [| split; [| split; [| split; [| split]]]]].
  - eapply wf_intro; [exact Hnew | lia | | lia].
    rewrite length_replicate. lia.
  - apply (intact_block _ _ _ _ _ _ Hnew). apply Forall_fresh_slots.
  - apply size_block. lia.
  - apply capacity_block. lia.
  - rewrite <- Hl. apply (elements_block _ _ _ _ _ Hnew). lia.
  - done.
  - intros b Hne Hfirst. by apply heap_without_other.
Qed.

End Basics.

(** * Ownership and appending *)

Section Appending.

Context {T : Type} `{ET : Element T}.

Abbreviation heap := (gmap block (list (option T))).

(** ** Ownership: one array per container *)

Lemma owns_wf (h0 h : heap) v : owns h0 h v -> wf h v.
Proof. by intros [Hwf _]. Qed.

Lemma owns_intro (h : heap) v : wf h v -> owns (heap_without h v) h v.
Proof.
  intros Hwf. split; [done |].
  destruct Hwf as [|b xs spare Hb Hlen]; [done |]. simpl.
  split; [apply lookup_delete_eq | done].
Qed.

(** Under [owns h0 h v] every array of [h0] is in [h] as it is, and is
    not the array of [v]. *)
Lemma owns_lookup (h0 h : heap) v b arr :
  owns h0 h v -> h0 !! b = Some arr ->
  h !! b = Some arr /\ forall off, first v <> Ptr b off.
Proof.
  intros [Hwf Hown] Hb.
  destruct Hwf as [|b1 xs1 spare1 Hb1 Hlen]; simpl in Hown.
  - subst h0. done.
  - destruct Hown as [Hnone <-].
    destruct (decide (b = b1)) as [-> | Hne]; [by rewrite Hnone in Hb |].
    rewrite lookup_delete_ne in Hb by done.
    split; [done |]. intros off [= ->]. done.
Qed.

(** The heap around a container is the heap without its array. *)
Lemma owns_heap_without (h0 h : heap) v : owns h0 h v -> heap_without h v = h0.
Proof.
  intros [Hwf Hown]. unfold heap_without.
  destruct Hwf as [|b xs spare Hb Hlen]; simpl in *; [done | by destruct Hown].
Qed.

(** Arrays other than the container's own may change freely. *)
Lemma wf_frame (h h' : heap) v :
  wf h v ->
  (forall b off, first v = Ptr b off -> h' !! b = h !! b) ->
  wf h' v /\ elements h' v = elements h v /\ (intact h v -> intact h' v).
Proof.
  intros [|b xs spare Hb Hlen] Hsame.
  - split; [constructor |]. split; [done |]. by intros _ b off arr.
  - specialize (Hsame b 0 eq_refl). rewrite Hb in Hsame. split; [| split].
    + by apply wf_block.
    + unfold elements. simpl. by rewrite Hsame, Hb.
    + intros Hi b' off arr [= <- <-] Harr. apply (Hi b 0); [done |].
      rewrite Hsame in Harr. by rewrite Hb.
Qed.

Lemma owns_frame (h0 h : heap) v other :
  owns h0 h v -> wf h0 other ->
  wf h other /\ elements h other = elements h0 other /\
  (first other = nullptr \/ first other <> first v).
Proof.
  intros Hown Ho.
  assert (Hsame : forall b off, first other = Ptr b off -> h !! b = h0 !! b).
  { intros b off Hfirst. destruct other as [f l e]. simpl in Hfirst. subst f.
    apply wf_block_inv in Ho as (xs & spare & Harr & _).
    destruct (owns_lookup h0 h v b _ Hown Harr) as [-> _]. done. }
  destruct (wf_frame h0 h other Ho Hsame) as (Hwf & He & _).
  split; [done |]. split; [done |].
  destruct other as [[|b off] l e]; [by left | right]. simpl.
  apply wf_block_inv in Ho as (xs & spare & Harr & _).
  destruct (owns_lookup h0 h v b _ Hown Harr) as [_ Hne]. by apply not_eq_sym.
Qed.

(** An argument that reads in the heap around the container reads the
    same in the heap with the container's array. *)
Lemma read_owns (h0 h : heap) v value x :
  owns h0 h v -> read value h0 = Ok x h0 -> read value h = Ok x h.
Proof.
  intros Hown Hread. apply (read_frame h0); [done |].
  intros b off ->. destruct (read_Ref_live h0 b off x Hread) as [arr Harr].
  destruct (owns_lookup h0 h v b arr Hown Harr) as [-> _]. done.
Qed.

(** The same array with other contents, or other pointers into it. *)
Lemma owns_update (h0 h : heap) b l e arr' v' :
  owns h0 h (Vector (Ptr b 0) l e) ->
  wf (<[b := arr']> h) v' -> first v' = Ptr b 0 ->
  owns h0 (<[b := arr']> h) v'.
Proof.
  intros [_ [Hnone Hdel]] Hwf' Hfirst. simpl in *.
  split; [done |]. rewrite Hfirst. split; [done |].
  by rewrite delete_insert_eq.
Qed.

Lemma owns_same (h0 h : heap) v v' :
  owns h0 h v -> wf h v' -> first v' = first v -> owns h0 h v'.
Proof. intros [_ Hown] Hwf' Hfirst. split; [done |]. by rewrite Hfirst. Qed.

(** A fresh array in place of the old one. *)
Lemma owns_moved (h0 h : heap) v (xs : list T) spare n c :
  owns h0 h v ->
  n = Z.of_nat (length xs) -> c = Z.of_nat (length xs + length spare) ->
  c <= max_array_len ->
  owns h0 (heap_without (<[fresh (dom h) := (Some <$> xs) ++ spare]> h) v)
    (Vector (Ptr (fresh (dom h)) 0) (Ptr (fresh (dom h)) n)
       (Ptr (fresh (dom h)) c)).
Proof.
  intros [Hwf Hown] Hn Hc Hmax.
  pose proof (fresh_block_None h) as Hfresh.
  pose proof (heap_without_fresh h v ((Some <$> xs) ++ spare) Hwf) as Hnew.
  split; [by eapply wf_intro |].
  unfold heap_without in *. simpl.
  destruct Hwf as [|b ys sp Hb Hlen]; simpl in *.
  - subst h0. split; [done |]. by rewrite delete_insert_id.
  - destruct Hown as [Hnone Hdel].
    assert (Hne : b <> fresh (dom h)) by (by eapply fresh_block_ne).
    split.
    + rewrite <- Hdel. by rewrite lookup_delete_ne.
    + rewrite delete_delete, delete_insert_id; done.
Qed.

Lemma owns_fresh (h : heap) (xs : list T) spare n c :
  n = Z.of_nat (length xs) -> c = Z.of_nat (length xs + length spare) ->
  c <= max_array_len ->
  owns h (<[fresh (dom h) := (Some <$> xs) ++ spare]> h)
    (Vector (Ptr (fresh (dom h)) 0) (Ptr (fresh (dom h)) n)
       (Ptr (fresh (dom h)) c)).
Proof.
  intros Hn Hc Hmax.
  apply (owns_moved h h vector_default xs spare n c); try done.
  split; [constructor | done].
Qed.

(** [~vector()] on a container whose array is intact gives back exactly
    that array; when a slot has lost its object, [delete[]] destroys it
    a second time. *)
Lemma vector_destroy_owns (h0 h : heap) v :
  owns h0 h v -> intact h v -> vector_destroy v h = Ok tt h0.
Proof.
  intros [Hwf Hown] Hi. unfold vector_destroy, delete_array.
  destruct Hwf as [|b xs spare Hb Hlen]; simpl in *; [by subst |].
  destruct Hown as [_ <-]. rewrite Hb.
  by rewrite decide_True by (by apply (Hi b 0)).
Qed.

Lemma vector_destroy_Undefined (h : heap) v :
  wf h v -> ~ intact h v -> vector_destroy v h = Undefined.
Proof.
  intros Hwf Hi. unfold vector_destroy, delete_array.
  destruct Hwf as [|b xs spare Hb Hlen]; simpl in *.
  - exfalso. apply Hi. by intros b off arr.
  - rewrite Hb. rewrite decide_False; [done |]. intros Hall. apply Hi.
    intros b' off arr [= <- <-] Harr. by simplify_eq.
Qed.


(** ** Reallocation of an owned array *)

Lemma reallocate_owns_spec (h0 h : heap) v new_cap :
  owns h0 h v -> intact h v -> size v <= new_cap ->
  new_cap <= max_array_len ->
  exists v' h',
    reallocate new_cap v h = Ok v' h' /\
    owns h0 h' v' /\ intact h' v' /\ size v' = size v /\
    capacity v' = new_cap /\ elements h' v' = elements h v /\
    first v' = Ptr (fresh (dom h)) 0.
Proof.
  intros Hown Hi Hsz Hcap. pose proof (owns_wf _ _ _ Hown) as Hwf.
  pose proof (wf_bounds h v Hwf) as [Hb _].
  pose proof (length_elements h v Hwf) as Hl.
  destruct (reallocate_spec h v new_cap Hwf Hi Hsz Hcap)
    as (v' & h' & Hrun & Hwf' & Hi' & Hs' & Hc' & He' & Hf' & _).
  exists v', h'. repeat (split; [done |]). split; [| done].
  rewrite reallocate_heap in Hrun by done. injection Hrun as <- <-.
  apply owns_moved; [done | lia | | lia].
  rewrite length_replicate. lia.
Qed.

Lemma reallocate_owns (h0 h : heap) v new_cap v' h' :
  owns h0 h v -> size v <= new_cap ->
  reallocate new_cap v h = Ok v' h' -> owns h0 h' v'.
Proof.
  intros Hown Hsz Hrun. pose proof (owns_wf _ _ _ Hown) as Hwf.
  destruct (reallocate_Ok_inv h v new_cap v' h' Hwf Hsz Hrun) as [Hi Hle].
  destruct (reallocate_owns_spec h0 h v new_cap Hown Hi Hsz Hle)
    as (v1 & h1 & Hrun1 & Hown1 & _).
  rewrite Hrun1 in Hrun. by injection Hrun as <- <-.
Qed.

(** ** Appending *)

Lemma wf_full_iff (h : heap) v :
  wf h v -> last v = end_ptr v <-> size v = capacity v.
Proof.
  pose proof max_array_len_lt_modulus as Hm.
  intros [|b xs spare Hb Hlen].
  - done.
  - rewrite size_block, capacity_block by lia. simpl.
    split; [intros [= Heq]; lia | intros Heq; f_equal; lia].
Qed.

(** The capacity that [grow()] asks for. *)
Lemma grow_capacity (h : heap) v :
  wf h v ->
  (if decide (capacity v = 0) then 1 else wrap (capacity v * 2))
  = Z.max 1 (capacity v * 2).
Proof.
  pose proof max_array_len_lt_modulus as Hm.
  intros Hwf. pose proof (wf_bounds h v Hwf) as [Hb Hc].
  destruct (decide (capacity v = 0)) as [-> | Hne]; [done |].
  rewrite wrap_small by lia. lia.
Qed.

(** Writing [x] into the slot at [last] of a container with a spare
    slot, and moving [last] behind it.  The placement [new] of
    [emplace_back] does so whatever the slot holds; the assignment of
    [push_back] needs an object there. *)
Lemma write_last (h0 h : heap) v x :
  owns h0 h v -> size v < capacity v ->
  exists b (xs : list T) s spare,
    first v = Ptr b 0 /\
    h !! b = Some ((Some <$> xs) ++ s :: spare) /\
    let v' := Vector (first v) (ptr_add (last v) 1) (end_ptr v) in
    let h' := <[b := (Some <$> xs) ++ Some x :: spare]> h in
    owns h0 h' v' /\ elements h' v' = elements h v ++ [x] /\
    size v' = size v + 1 /\ capacity v' = capacity v /\
    (Forall is_Some spare -> intact h' v') /\
    construct (last v) x h = Ok tt h' /\
    (is_Some s -> store (last v) x h = Ok tt h') /\
    (s = None -> store (last v) x h = Undefined).
Proof.
  pose proof max_array_len_lt_modulus as Hm.
  intros Hown Hlt. pose proof (owns_wf _ _ _ Hown) as Hwf.
  destruct Hwf as [|b xs spare Hb Hlen].
  { by vm_compute in Hlt. }
  rewrite size_block, capacity_block in Hlt by lia.
  destruct spare as [|s spare]; [simpl in Hlt; lia |].
  exists b, xs, s, spare. split; [done |]. split; [done |].
  simpl first. simpl last. simpl end_ptr. simpl ptr_add.
  set (h' := <[b := (Some <$> xs) ++ Some x :: spare]> h).
  assert (Hnew : h' !! b = Some ((Some <$> xs ++ [x]) ++ spare)).
  { unfold h'. rewrite lookup_insert_eq. by rewrite slots_snoc. }
  assert (Hlen' : (length (xs ++ [x]) = length xs + 1)%nat)
    by (rewrite length_app; simpl; lia).
  simpl length in Hlen.
  assert (Hwf' : wf h'
    (Vector (Ptr b 0) (Ptr b (Z.of_nat (length xs) + 1))
       (Ptr b (Z.of_nat (length xs + S (length spare)))))).
  { eapply wf_intro; [exact Hnew | lia | lia | lia]. }
  assert (Hidx : Z.to_nat (Z.of_nat (length xs)) = length xs) by lia.
  assert (Hs : ((Some <$> xs) ++ s :: spare) !! length xs = Some s).
  { rewrite lookup_app_r by (by rewrite length_fmap).
    by rewrite length_fmap, Nat.sub_diag. }
  split; [| split; [| split; [| split; [| split; [| split; [| split]]]]]].
  - by eapply owns_update.
  - rewrite (elements_block h b xs (s :: spare)) by (done || lia).
    replace (Z.of_nat (length xs) + 1) with (Z.of_nat (length (xs ++ [x])))
      by lia.
    apply (elements_block h' b (xs ++ [x]) spare); [done | lia].
  - rewrite !size_block by lia. done.
  - rewrite !capacity_block by (simpl; lia). done.
  - intros Hsp. by apply (intact_block h' b _ _ (xs ++ [x]) spare).
  - unfold construct. rewrite Hb, decide_True.
    + rewrite Hidx. by rewrite insert_slots.
    + rewrite length_app, length_fmap. simpl. lia.
  - intros [y Hy]. unfold store. rewrite Hb, decide_True by lia.
    rewrite Hidx, Hs, Hy. by rewrite insert_slots.
  - intros Hy. unfold store. rewrite Hb, decide_True by lia.
    by rewrite Hidx, Hs, Hy.
Qed.

(** The slot at [last] of an intact array holds an object. *)
Lemma intact_spare (h : heap) b l e (xs : list T) s spare :
  h !! b = Some ((Some <$> xs) ++ s :: spare) ->
  intact h (Vector (Ptr b 0) l e) -> is_Some s /\ Forall is_Some spare.
Proof.
  intros Hb Hi. apply (intact_block h b l e xs (s :: spare) Hb) in Hi.
  by apply Forall_cons in Hi.
Qed.

(** [push_back(value)] on a container that owns an intact array, for an
    argument that is not one of its elements: unless the doubled array
    cannot be allocated, it returns, with the value after the old
    elements and the capacity of the doubling rule. *)
Lemma push_back_owns_spec (h0 h : heap) v value x :
  owns h0 h v -> intact h v -> read value h0 = Ok x h0 ->
  if decide (capacity_after_push v <= max_array_len) then
    exists v' h',
      push_back value v h = Ok v' h' /\
      owns h0 h' v' /\ intact h' v' /\
      elements h' v' = elements h v ++ [x] /\
      size v' = size v + 1 /\ capacity v' = capacity_after_push v /\
      (size v < capacity v -> first v' = first v)
  else push_back value v h = BadAlloc.
Proof.
  pose proof max_array_len_lt_modulus as Hm.
  intros Hown Hi Hread. pose proof (owns_wf _ _ _ Hown) as Hwf.
  pose proof (wf_bounds h v Hwf) as Hbd.
  pose proof (wf_full_iff h v Hwf) as Hfull.
  unfold capacity_after_push, push_back.
  destruct (decide (size v = capacity v)) as [Heq | Hneq].
  - rewrite (decide_True (P := last v = end_ptr v)) by (by apply Hfull).
    unfold grow. rewrite (grow_capacity h v Hwf).
    destruct (decide (Z.max 1 (capacity v * 2) <= max_array_len)) as [Hle | Hgt].
    + destruct (reallocate_owns_spec h0 h v (Z.max 1 (capacity v * 2)) Hown Hi)
        as (v1 & h1 & Hr & Hown1 & Hi1 & Hs1 & Hc1 & He1 & _); [lia | lia |].
      erewrite bind_Ok; [| exact Hr].
      erewrite bind_Ok; [| by eapply read_owns].
      destruct (write_last h0 h1 v1 x Hown1)
        as (b & xs & s & spare & Hf & Hb & Hown' & He' & Hs' & Hc' & Hi'
            & _ & Hstore & _); [lia |].
      destruct v1 as [f1 l1 e1]. simpl in Hf. subst f1.
      destruct (intact_spare h1 b _ _ xs s spare Hb Hi1) as [Hs Hsp].
      erewrite bind_Ok; [| by apply Hstore].
      eexists _, _. split; [reflexivity |].
      rewrite He', He1, Hs', Hs1, Hc', Hc1.
      split; [done |]. split; [by apply Hi' |]. repeat (split; [done |]). lia.
    + unfold bind. rewrite reallocate_BadAlloc by lia. done.
  - rewrite (decide_False (P := last v = end_ptr v)) by (by rewrite Hfull).
    rewrite decide_True by lia.
    unfold bind at 1. unfold ret at 1.
    erewrite bind_Ok; [| by eapply read_owns].
    destruct (write_last h0 h v x Hown)
      as (b & xs & s & spare & Hf & Hb & Hown' & He' & Hs' & Hc' & Hi'
          & _ & Hstore & _); [lia |].
    destruct v as [f1 l1 e1]. simpl in Hf. subst f1.
    destruct (intact_spare h b _ _ xs s spare Hb Hi) as [Hs Hsp].
    erewrite bind_Ok; [| by apply Hstore].
    eexists _, _. split; [reflexivity |].
    split; [done |]. split; [by apply Hi' |]. by repeat (split; [done |]).
Qed.

End Appending.

(** * The members that change the length *)

Section Members.

Context {T : Type} `{ET : Element T}.

Abbreviation heap := (gmap block (list (option T))).

(** ** Appending, continued *)

(** The first statement of [push_back] and [emplace_back]: afterwards
    there is a spare slot. *)
Lemma grow_step (h0 h : heap) v v1 h1 :
  owns h0 h v ->
  (if decide (last v = end_ptr v) then grow v else ret v) h = Ok v1 h1 ->
  owns h0 h1 v1 /\ size v1 < capacity v1 /\ size v1 = size v /\
  elements h1 v1 = elements h v /\
  (size v < capacity v -> v1 = v /\ h1 = h) /\
  (intact h v -> intact h1 v1).
Proof.
  intros Hown Hrun. pose proof (owns_wf _ _ _ Hown) as Hwf.
  pose proof (wf_bounds h v Hwf) as [Hb Hc].
  pose proof (wf_full_iff h v Hwf) as Hfull.
  destruct (decide (last v = end_ptr v)) as [Heq | Hne].
  - apply Hfull in Heq. unfold grow in Hrun.
    rewrite (grow_capacity h v Hwf) in Hrun.
    destruct (reallocate_Ok_inv h v (Z.max 1 (capacity v * 2)) v1 h1 Hwf ltac:(lia) Hrun) as [Hi Hle].
    destruct (reallocate_owns_spec h0 h v (Z.max 1 (capacity v * 2)) Hown Hi ltac:(lia) Hle)
      as (v' & h' & Hrun' & Hown' & Hi' & Hs' & Hc' & He' & _).
    rewrite Hrun' in Hrun. injection Hrun as <- <-.
    split; [done |]. split; [lia |]. split; [done |]. split; [done |].
    split; [lia | done].
  - unfold ret in Hrun. injection Hrun as <- <-.
    assert (size v <> capacity v) by (by rewrite <- Hfull).
    split; [done |]. split; [lia |]. split; [done |]. split; [done |].
    by split.
Qed.


(** On an intact array [emplace_back] of a value is [push_back] of
    it. *)
Lemma emplace_back_push_back (h0 h : heap) v value :
  owns h0 h v -> intact h v ->
  emplace_back value v h = push_back value v h.
Proof.
  intros Hown Hi. unfold emplace_back, push_back, bind.
  destruct ((if decide (last v = end_ptr v) then grow v else ret v) h)
    as [v1 h1 | | | |] eqn:Hgrow; try done.
  destruct (grow_step h0 h v v1 h1 Hown Hgrow)
    as (Hown1 & Hlt & _ & _ & _ & Hkeep).
  pose proof (Hkeep Hi) as Hi1.
  destruct (read value h1) as [x h2 | | | |] eqn:Hread; try done.
  apply read_heap in Hread as ->.
  destruct (write_last h0 h1 v1 x Hown1 Hlt)
    as (b & xs & s & spare & Hf & Hb & _ & _ & _ & _ & _ & Hc & Hs & _).
  destruct v1 as [f1 l1 e1]. simpl in Hf. subst f1.
  destruct (intact_spare h1 b _ _ xs s spare Hb Hi1) as [Hsome _].
  by rewrite Hc, (Hs Hsome).
Qed.

(** Whenever [push_back] or [emplace_back] returns, the container owns
    one array as before. *)
Lemma push_back_owns (h0 h : heap) v value v' h' :
  owns h0 h v -> push_back value v h = Ok v' h' -> owns h0 h' v'.
Proof.
  intros Hown Hrun. unfold push_back in Hrun.
  apply bind_Ok_inv in Hrun as (v1 & h1 & Hgrow & Hrun).
  apply bind_Ok_inv in Hrun as (x & h2 & Hread & Hrun).
  apply bind_Ok_inv in Hrun as ([] & h3 & Hstore & Hret).
  unfold ret in Hret. injection Hret as <- <-.
  apply read_heap in Hread as ->.
  destruct (grow_step h0 h v v1 h1 Hown Hgrow) as (Hown1 & Hlt & _).
  destruct (write_last h0 h1 v1 x Hown1 Hlt)
    as (b & xs & s & spare & _ & _ & Hown' & _ & _ & _ & _ & _ & Hsome & Hnone).
  destruct s as [y |].
  - rewrite Hsome in Hstore by (by eexists). by injection Hstore as <-.
  - by rewrite Hnone in Hstore.
Qed.

Lemma emplace_back_owns (h0 h : heap) v value v' h' :
  owns h0 h v -> emplace_back value v h = Ok v' h' -> owns h0 h' v'.
Proof.
  intros Hown Hrun. unfold emplace_back in Hrun.
  apply bind_Ok_inv in Hrun as (v1 & h1 & Hgrow & Hrun).
  apply bind_Ok_inv in Hrun as (x & h2 & Hread & Hrun).
  apply bind_Ok_inv in Hrun as ([] & h3 & Hstore & Hret).
  unfold ret in Hret. injection Hret as <- <-.
  apply read_heap in Hread as ->.
  destruct (grow_step h0 h v v1 h1 Hown Hgrow) as (Hown1 & Hlt & _).
  destruct (write_last h0 h1 v1 x Hown1 Hlt)
    as (b & xs & s & spare & _ & _ & Hown' & _ & _ & _ & _ & Hc & _).
  rewrite Hc in Hstore. by injection Hstore as <-.
Qed.

(** An append that has to grow reads its argument after the old array is
    released: when the argument is a slot of that array, the read is
    undefined behaviour. *)
Lemma append_alias (h : heap) v b off off' :
  wf h v -> first v = Ptr b off' -> size v = capacity v ->
  capacity_after_push v <= max_array_len ->
  push_back (Ref (Ptr b off)) v h = Undefined /\
  emplace_back (Ref (Ptr b off)) v h = Undefined.
Proof.
  intros Hwf Hfirst Hfull Hcap.
  pose proof (wf_bounds h v Hwf) as [Hb Hc].
  pose proof (owns_intro h v Hwf) as Hown.
  pose proof (wf_full_intact h v Hwf Hfull) as Hi.
  unfold capacity_after_push in Hcap. rewrite decide_True in Hcap by done.
  destruct (reallocate_owns_spec _ h v (Z.max 1 (capacity v * 2)) Hown Hi ltac:(lia) Hcap)
    as (v1 & h1 & Hrun & [_ Hown1] & _ & _ & _ & _ & Hf1).
  assert (Hgone : h1 !! b = None).
  { rewrite Hf1 in Hown1. destruct Hown1 as [_ Hdel].
    destruct v as [f l e]. simpl in Hfirst. subst f.
    apply wf_block_inv in Hwf as (xs & spare & Hb' & _).
    pose proof (fresh_block_ne h b _ Hb') as Hne.
    rewrite <- (lookup_delete_ne h1 (fresh (dom h)) b) by done.
    rewrite Hdel. unfold heap_without. simpl. apply lookup_delete_eq. }
  unfold push_back, emplace_back.
  rewrite !(decide_True (P := last v = end_ptr v))
    by (by apply (wf_full_iff h v Hwf)).
  unfold grow. rewrite (grow_capacity h v Hwf).
  unfold bind. rewrite Hrun. simpl. unfold load. by rewrite Hgone.
Qed.

(** [push_back(value)] on a sound container with an intact array, for an
    argument outside the container. *)
Lemma push_back_spec (h : heap) v value x :
  wf h v -> intact h v -> outside h v value x ->
  if decide (capacity_after_push v <= max_array_len) then
    exists v' h',
      push_back value v h = Ok v' h' /\
      wf h' v' /\ intact h' v' /\
      elements h' v' = elements h v ++ [x] /\
      size v' = size v + 1 /\ capacity v' = capacity_after_push v
  else push_back value v h = BadAlloc.
Proof.
  intros Hwf Hi Hout.
  pose proof (push_back_owns_spec _ h v value x (owns_intro h v Hwf) Hi Hout)
    as Hs.
  destruct (decide (capacity_after_push v <= max_array_len)); [| done].
  destruct Hs as (v' & h' & Hrun & Hown & Hi' & He & Hsz & Hc & _).
  exists v', h'. split; [done |]. split; [by eapply owns_wf | done].
Qed.

Lemma doubled_push (v : vector) :
  0 <= size v <= capacity v -> doubled (size v) (capacity v) ->
  doubled (size v + 1) (capacity_after_push v) /\
  size v + 1 <= capacity_after_push v <= 2 * (size v + 1).
Proof.
  intros Hb Hd. unfold capacity_after_push.
  destruct (decide (size v = capacity v)) as [Heq | Hne].
  - destruct Hd as [[Hk Hc] | (j & Hj & Hc & Hlt)].
    + rewrite Hk, Hc. split; [| lia]. right. exists 0. simpl. lia.
    + split; [| lia]. right. exists (j + 1).
      replace (j + 1) with (Z.succ j) by lia.
      rewrite Z.pow_succ_r by done. lia.
  - destruct Hd as [[Hk Hc] | (j & Hj & Hc & Hlt)]; [lia |].
    split; [| lia]. right. exists j. lia.
Qed.

(** A run of appends of arguments that read in the heap around the
    container, from a container on the doubling series that owns an
    intact array. *)
Lemma push_back_all_spec (h0 : heap) (values : list cref) (xs : list T) :
  Forall2 (fun value x => read value h0 = Ok x h0) values xs ->
  forall (h : heap) v,
    owns h0 h v -> intact h v -> doubled (size v) (capacity v) ->
    match push_back_all values v h with
    | Ok v' h' =>
        owns h0 h' v' /\ intact h' v' /\
        elements h' v' = elements h v ++ xs /\
        size v' = size v + Z.of_nat (length xs) /\
        doubled (size v') (capacity v')
    | BadAlloc => max_array_len < 2 * (size v + Z.of_nat (length xs))
    | _ => False
    end.
Proof.
  induction 1 as [|value x values xs Hread _ IH]; intros h v Hown Hi Hd.
  - simpl. unfold ret. rewrite app_nil_r, Z.add_0_r. done.
  - pose proof (wf_bounds h v (owns_wf _ _ _ Hown)) as [Hb _].
    destruct (doubled_push v Hb Hd) as [Hd' Hrange].
    pose proof (push_back_owns_spec h0 h v value x Hown Hi Hread) as Hp.
    cbn [push_back_all length].
    destruct (decide (capacity_after_push v <= max_array_len)) as [Hle | Hgt].
    + destruct Hp as (v1 & h1 & Hp & Hown1 & Hi1 & He1 & Hs1 & Hc1 & _).
      erewrite bind_Ok; [| exact Hp].
      rewrite <- Hs1, <- Hc1 in Hd'.
      specialize (IH h1 v1 Hown1 Hi1 Hd').
      destruct (push_back_all values v1 h1) as [v2 h2 | | | |]; try done.
      * destruct IH as (Hown2 & Hi2 & He2 & Hs2 & Hd2).
        split; [done |]. split; [done |].
        split; [by rewrite He2, He1, <- app_assoc |].
        split; [lia | done].
      * lia.
    + unfold bind. rewrite Hp. lia.
Qed.

(** A run of appends into spare capacity. *)
Lemma push_back_all_in_place (h0 : heap) (values : list cref) (xs : list T) :
  Forall2 (fun value x => read value h0 = Ok x h0) values xs ->
  forall (h : heap) v,
    owns h0 h v -> intact h v ->
    size v + Z.of_nat (length xs) <= capacity v ->
    exists v' h',
      push_back_all values v h = Ok v' h' /\
      owns h0 h' v' /\ intact h' v' /\
      first v' = first v /\ capacity v' = capacity v /\
      size v' = size v + Z.of_nat (length xs) /\
      elements h' v' = elements h v ++ xs.
Proof.
  induction 1 as [|value x values xs Hread _ IH]; intros h v Hown Hi Hroom.
  - exists v, h. simpl. rewrite app_nil_r, Z.add_0_r.
    split; [done |]. by repeat (split; [done |]).
  - simpl length in Hroom.
    pose proof (wf_bounds h v (owns_wf _ _ _ Hown)) as [Hb Hcap].
    pose proof (push_back_owns_spec h0 h v value x Hown Hi Hread) as Hp.
    assert (Hkeep : capacity_after_push v = capacity v).
    { unfold capacity_after_push. rewrite decide_False; [done | lia]. }
    rewrite Hkeep, decide_True in Hp by done.
    destruct Hp as (v1 & h1 & Hp & Hown1 & Hi1 & He1 & Hs1 & Hc1 & Hf1).
    destruct (IH h1 v1 Hown1 Hi1)
      as (v' & h' & Hall & Hown' & Hi' & Hf' & Hc' & Hs' & He'); [lia |].
    exists v', h'. cbn [push_back_all]. erewrite bind_Ok; [| exact Hp].
    split; [done |]. split; [done |]. split; [done |].
    split; [rewrite Hf'; apply Hf1; lia |].
    split; [congruence |]. split; [simpl length; lia |].
    by rewrite He', He1, <- app_assoc.
Qed.

(** An append to a container whose slot at [last] has lost its object
    assigns to an object that is not there. *)
Lemma push_back_dead (h : heap) v value :
  wf h v -> size v < capacity v ->
  (forall y, store (last v) y h = Undefined) ->
  push_back value v h = Undefined.
Proof.
  intros Hwf Hlt Hdead. unfold push_back.
  rewrite (decide_False (P := last v = end_ptr v))
    by (rewrite (wf_full_iff h v Hwf); lia).
  unfold bind at 1. unfold ret at 1. unfold bind.
  destruct (read value h) as [x h1 | | | |] eqn:Hread; try done.
  - apply read_heap in Hread as ->. by rewrite Hdead.
  - destruct value as [x | p]; [done |]. simpl in Hread. unfold load in Hread.
    destruct p as [|b off]; [done |].
    destruct (h !! b) as [arr |]; [| done].
    destruct (decide (0 <= off)); [| done].
    by destruct (arr !! Z.to_nat off) as [[y |] |].
  - destruct value as [x | p]; [done |]. simpl in Hread. unfold load in Hread.
    destruct p as [|b off]; [done |].
    destruct (h !! b) as [arr |]; [| done].
    destruct (decide (0 <= off)); [| done].
    by destruct (arr !! Z.to_nat off) as [[y |] |].
  - destruct value as [x | p]; [done |]. simpl in Hread. unfold load in Hread.
    destruct p as [|b off]; [done |].
    destruct (h !! b) as [arr |]; [| done].
    destruct (decide (0 <= off)); [| done].
    by destruct (arr !! Z.to_nat off) as [[y |] |].
Qed.

(** ** Element access *)

Lemma subscript_Ok (h : heap) v index :
  wf h v -> 0 <= index < size v ->
  exists x,
    elements h v !! Z.to_nat index = Some x /\ subscript index v h = Ok x h.
Proof.
  pose proof max_array_len_lt_modulus as Hm.
  intros [|b xs spare Hb Hlen].
  - unfold size. simpl. unfold wrap. rewrite Z.mod_0_l by done. lia.
  - rewrite size_block by lia. intros Hi.
    rewrite (elements_block h b xs spare) by (done || lia).
    destruct (lookup_lt_is_Some_2 xs (Z.to_nat index)) as [x Hx]; [lia |].
    exists x. split; [done |].
    unfold subscript. simpl. unfold load. rewrite Hb.
    rewrite decide_True by lia. rewrite Z.add_0_l.
    by rewrite (lookup_slots_lt xs spare _ x Hx).
Qed.

(** C3: on a sound container and for an index of [size_type], [at(index)]
    ends the process exactly when [index >= size()], and then with the
    out-of-range report that carries the index; otherwise it returns the
    element at [index], and neither the container nor the heap changes. *)
Theorem at_checked (h : heap) v index :
  wf h v -> 0 <= index < size_type_modulus ->
  ((exists f, at_ index v h = Exit f) <-> size v <= index) /\
  (size v <= index ->
     at_ index v h = Exit (IndexOutOfRange index) /\
     cerr_line (IndexOutOfRange index) = "索引越界: " +:+ pretty index) /\
  (index < size v ->
     exists x,
       elements h v !! Z.to_nat index = Some x /\ at_ index v h = Ok x h).
Proof.
  intros Hwf Hi. unfold at_.
  destruct (decide (size v <= index)) as [Hge | Hlt].
  - split; [| split]; [| done | lia].
    split; [done |]. intros _. by eexists.
  - destruct (subscript_Ok h v index Hwf) as (x & Hx & Hload); [lia |].
    unfold subscript in Hload.
    split; [| split]; [| lia |].
    + split; [| lia]. intros [f Hf]. rewrite Hload in Hf. done.
    + intros _. by exists x.
Qed.

(** ** Removing the last element *)

Lemma pop_back_empty (h : heap) v :
  size v = 0 -> pop_back v h = Exit EmptyPopBack.
Proof.
  intros Hz. unfold pop_back, empty. by rewrite bool_decide_eq_true_2.
Qed.

(** [pop_back()] on a container that is not empty: the last element is
    destroyed where it is.  Its slot holds no object afterwards, unless
    the destructor is trivial and the heap is as it was. *)
Lemma pop_back_nonempty (h0 h : heap) v :
  owns h0 h v -> size v <> 0 ->
  exists v' x h',
    pop_back v h = Ok v' h' /\ owns h0 h' v' /\
    size v' = size v - 1 /\ capacity v' = capacity v /\
    elements h v = elements h' v' ++ [x] /\
    first v' = first v /\
    (forall b, (forall off, first v <> Ptr b off) -> h' !! b = h !! b) /\
    (T_trivial_dtor = true -> h' = h) /\
    (T_trivial_dtor = false ->
       ~ intact h' v' /\ forall y, store (last v') y h' = Undefined).
Proof.
  pose proof max_array_len_lt_modulus as Hm.
  intros Hown Hnz. pose proof (owns_wf _ _ _ Hown) as Hwf.
  unfold pop_back, empty. rewrite bool_decide_eq_false_2 by done.
  destruct Hwf as [|b xs spare Hb Hlen]; [done |].
  rewrite size_block in Hnz by lia.
  destruct xs as [|x xs _] using rev_ind; [done |]. clear Hnz.
  rewrite slots_snoc in Hb.
  assert (Hlen' : (length (xs ++ [x]) = length xs + 1)%nat)
    by (rewrite length_app; simpl; lia).
  rewrite Hlen' in *.
  simpl last. simpl first. simpl end_ptr. simpl ptr_add.
  replace (Z.of_nat (length xs + 1) + -1) with (Z.of_nat (length xs)) by lia.
  set (s := if T_trivial_dtor then Some x else None).
  set (h' := if T_trivial_dtor then h
             else <[b := <[length xs := None]> ((Some <$> xs) ++ Some x :: spare)]> h).
  assert (Hnew : h' !! b = Some ((Some <$> xs) ++ s :: spare)).
  { unfold h', s. destruct T_trivial_dtor; [done |].
    by rewrite lookup_insert_eq, insert_slots. }
  assert (Hdestroy : destroy (Ptr b (Z.of_nat (length xs))) h = Ok tt h').
  { unfold destroy. rewrite Hb, decide_True by lia. rewrite Nat2Z.id.
    rewrite lookup_app_r by (by rewrite length_fmap).
    by rewrite length_fmap, Nat.sub_diag. }
  exists (Vector (Ptr b 0) (Ptr b (Z.of_nat (length xs)))
            (Ptr b (Z.of_nat (length xs + 1 + length spare)))), x, h'.
  assert (Hwf' : wf h'
    (Vector (Ptr b 0) (Ptr b (Z.of_nat (length xs)))
       (Ptr b (Z.of_nat (length xs + 1 + length spare))))).
  { eapply wf_intro; [exact Hnew | done | simpl; lia | lia]. }
  split; [by erewrite bind_Ok by exact Hdestroy |].
  split; [| split; [| split; [| split; [| split; [| split; [| split]]]]]].
  - unfold h' in *. destruct T_trivial_dtor.
    + by eapply owns_same.
    + by eapply owns_update.
  - rewrite !size_block by lia. lia.
  - rewrite !capacity_block by lia. done.
  - rewrite (elements_block h' b xs (s :: spare)) by (done || lia).
    rewrite <- Hlen'. apply (elements_block h b (xs ++ [x]) spare); [| lia].
    by rewrite slots_snoc.
  - done.
  - intros b0 Hb0. unfold h'. destruct T_trivial_dtor; [done |].
    apply lookup_insert_ne. intros ->. by apply (Hb0 0).
  - intros Htriv. unfold h'. by rewrite Htriv.
  - intros Htriv. split.
    + intros Hi.
      apply (intact_block h' b _ _ xs (s :: spare) Hnew) in Hi.
      apply Forall_cons in Hi as [[y Hy] _]. unfold s in Hy.
      by rewrite Htriv in Hy.
    + intros y. unfold store. cbn [last]. rewrite Hnew, decide_True by lia.
      rewrite Nat2Z.id.
      rewrite lookup_app_r by (by rewrite length_fmap).
      rewrite length_fmap, Nat.sub_diag. unfold s. by rewrite Htriv.
Qed.

(** C5: on a sound container, [pop_back()] ends the process with the
    empty-container report when the container is empty; otherwise it
    returns, the capacity and the array are the same, the length is one
    less, and the elements are the old ones without the last; no other
    array changes, and for a trivially destructible element type the heap
    is as it was. *)
Theorem pop_back_spec (h : heap) v :
  wf h v ->
  (size v = 0 ->
     pop_back v h = Exit EmptyPopBack /\
     EmptyContainerAccess EmptyPopBack = true) /\
  (size v <> 0 ->
     exists v' x h',
       pop_back v h = Ok v' h' /\ wf h' v' /\
       size v' = size v - 1 /\ capacity v' = capacity v /\
       elements h v = elements h' v' ++ [x] /\
       first v' = first v /\
       (forall b, (forall off, first v <> Ptr b off) -> h' !! b = h !! b) /\
       (T_trivial_dtor = true -> h' = h)).
Proof.
  intros Hwf. split.
  - intros Hz. split; [by apply pop_back_empty | done].
  - intros Hnz.
    destruct (pop_back_nonempty _ h v (owns_intro h v Hwf) Hnz)
      as (v' & x & h' & Hrun & Hown & Hs & Hc & He & Hf & Hfr & Htriv & _).
    exists v', x, h'. split; [done |]. split; [by eapply owns_wf | done].
Qed.

Lemma pop_back_owns (h0 h : heap) v v' h' :
  owns h0 h v -> pop_back v h = Ok v' h' -> owns h0 h' v'.
Proof.
  intros Hown Hp.
  destruct (decide (size v = 0)) as [He | Hne].
  - by rewrite pop_back_empty in Hp.
  - destruct (pop_back_nonempty h0 h v Hown Hne)
      as (v1 & x & h1 & Hp1 & Hown1 & _).
    rewrite Hp1 in Hp. by injection Hp as <- <-.
Qed.

End Members.

(** * Capacity, moving, comparison and copying *)

Section Observers.

Context {T : Type} `{ET : Element T}.

Abbreviation heap := (gmap block (list (option T))).

(** ** Capacity *)

Lemma reserve_grow (h0 h : heap) v new_cap :
  owns h0 h v -> intact h v ->
  capacity v < new_cap -> new_cap <= max_array_len ->
  exists v' h',
    reserve new_cap v h = Ok v' h' /\ owns h0 h' v' /\ intact h' v' /\
    capacity v' = new_cap /\ size v' = size v /\
    elements h' v' = elements h v.
Proof.
  intros Hown Hi Hlt Hle.
  pose proof (wf_bounds h v (owns_wf _ _ _ Hown)) as [Hb Hc].
  unfold reserve. rewrite decide_True by done.
  destruct (reallocate_owns_spec h0 h v new_cap Hown Hi)
    as (v' & h' & Hr & ? & ? & ? & ? & ? & _); [lia | lia |].
  by exists v', h'.
Qed.

Lemma reserve_BadAlloc (h : heap) v new_cap :
  capacity v < new_cap -> max_array_len < new_cap ->
  reserve new_cap v h = BadAlloc.
Proof.
  intros Hlt Hgt. unfold reserve. rewrite decide_True by done.
  by apply reallocate_BadAlloc.
Qed.

Lemma reserve_keep (h : heap) v new_cap :
  new_cap <= capacity v -> reserve new_cap v h = Ok v h.
Proof. intros Hle. unfold reserve. by rewrite decide_False by lia. Qed.

(** A [reserve] that has to reallocate an array with a destroyed slot
    destroys that slot again. *)
Lemma reserve_Undefined (h : heap) v new_cap :
  wf h v -> ~ intact h v ->
  capacity v < new_cap -> new_cap <= max_array_len ->
  reserve new_cap v h = Undefined.
Proof.
  intros Hwf Hi Hlt Hle. pose proof (wf_bounds h v Hwf) as [Hb Hc].
  unfold reserve. rewrite decide_True by done.
  apply reallocate_Undefined; [done | done | lia | done].
Qed.

Lemma reserve_owns (h0 h : heap) v new_cap v' h' :
  owns h0 h v -> reserve new_cap v h = Ok v' h' -> owns h0 h' v'.
Proof.
  intros Hown Hrun. pose proof (owns_wf _ _ _ Hown) as Hwf.
  pose proof (wf_bounds h v Hwf) as [Hb _].
  unfold reserve in Hrun. destruct (decide (capacity v < new_cap)).
  - eapply (reallocate_owns h0 h v new_cap); [done | lia | done].
  - unfold ret in Hrun. by injection Hrun as <- <-.
Qed.

Lemma shrink_to_fit_owns (h0 h : heap) v v' h' :
  owns h0 h v -> shrink_to_fit v h = Ok v' h' -> owns h0 h' v'.
Proof.
  intros Hown Hrun. unfold shrink_to_fit in Hrun.
  destruct (decide (size v < capacity v)).
  - eapply (reallocate_owns h0 h v (size v)); [done | lia | done].
  - unfold ret in Hrun. by injection Hrun as <- <-.
Qed.

(** C10: [resize(n, x)] with [n] the current length returns at once: the
    container (its three pointers, so its length and capacity) and the
    heap (so every element) are what they were. *)
Theorem resize_same_size (h : heap) v value :
  resize (size v) value v h = Ok v h.
Proof.
  unfold resize. rewrite !decide_False by lia. done.
Qed.

(** ** Moving *)

(** C7: move construction returns without touching the heap; the new
    container has the three pointers of the source (so its array, length,
    capacity and elements), and the source is left with three null
    pointers, length [0] and capacity [0]. *)
Theorem vector_move_spec (h : heap) other :
  exists v other',
    vector_move other h = Ok (v, other') h /\
    v = other /\
    size v = size other /\ capacity v = capacity other /\
    elements h v = elements h other /\
    other' = Vector nullptr nullptr nullptr /\
    size other' = 0 /\ capacity other' = 0 /\ elements h other' = [].
Proof.
  eexists _, _. split; [reflexivity |]. by destruct other.
Qed.

(** ** Iterator ranges *)

Lemma wf_range (h : heap) v :
  wf h v -> range h (first v) (last v) (elements h v).
Proof.
  pose proof max_array_len_lt_modulus as Hm.
  intros [|b xs spare Hb Hlen].
  - apply range_null.
  - rewrite (elements_block h b xs spare) by (done || lia). simpl.
    eapply (range_block h b _ 0 _ xs); [exact Hb | lia | |].
    + rewrite length_app, length_fmap. lia.
    + rewrite Nat2Z.id. simpl. apply take_slots.
Qed.

Lemma range_length (h : heap) start end_ xs :
  range h start end_ xs -> ptr_diff end_ start = Z.of_nat (length xs).
Proof.
  intros [|b arr i n xs' Hb Hi Hn Hxs]; [done |].
  simpl. rewrite decide_True by done.
  apply (f_equal length) in Hxs.
  rewrite length_drop, length_take, length_fmap in Hxs. lia.
Qed.

Lemma range_nil_iff (h : heap) p q xs :
  range h p q xs -> p = q <-> xs = [].
Proof.
  intros Hr. pose proof (range_length h p q xs Hr) as Hlen.
  destruct Hr as [|b arr i n xs' Hb Hi Hn Hxs]; [done |].
  simpl in Hlen. rewrite decide_True in Hlen by done.
  split.
  - intros [= ->]. destruct xs'; [done | simpl in Hlen; lia].
  - intros ->. simpl in Hlen. f_equal. lia.
Qed.

Lemma range_cons (h : heap) p q x xs :
  range h p q (x :: xs) ->
  load p h = Ok x h /\ range h (ptr_add p 1) q xs.
Proof.
  intros Hr. pose proof (range_length h p q _ Hr) as Hlen.
  inversion Hr as [|b arr i n xs' Hb Hi Hn Hxs Hp Hq Hxs']; subst.
  simpl in Hlen. rewrite decide_True in Hlen by done.
  assert (Hx : arr !! Z.to_nat i = Some (Some x)).
  { rewrite <- (lookup_take_lt arr (Z.to_nat n)) by lia.
    rewrite <- (Nat.add_0_r (Z.to_nat i)), <- lookup_drop.
    by rewrite Hxs. }
  split.
  - unfold load. rewrite Hb, decide_True by lia. by rewrite Hx.
  - simpl. apply (range_block h b arr); [done | lia | lia |].
    replace (Z.to_nat (i + 1)) with (S (Z.to_nat i)) by lia.
    erewrite drop_S in Hxs; [by injection Hxs |].
    by rewrite lookup_take_lt by lia.
Qed.

Lemma range_frame (h h' : heap) start end_ xs :
  range h start end_ xs ->
  (forall b off, start = Ptr b off -> h' !! b = h !! b) ->
  range h' start end_ xs.
Proof.
  intros [|b arr i n xs' Hb Hi Hn Hxs] Hsame; [constructor |].
  eapply range_block; [| done | done | done]. by rewrite (Hsame b i eq_refl).
Qed.

(** ** Comparison *)

Lemma lexicographical_compare_unfold n first1 last1 first2 last2 :
  lexicographical_compare n first1 last1 first2 last2
  = if bool_decide (first1 <> last1) && bool_decide (first2 <> last2) then
      match n with
      | O => fun _ => Diverge
      | S n' =>
          x <~ load first1 ;;
          y <~ load first2 ;;
          if T_lt x y then ret true
          else if T_lt y x then ret false
          else lexicographical_compare n' (ptr_add first1 1) last1
                 (ptr_add first2 1) last2
      end
    else ret (bool_decide (first1 = last1) && bool_decide (first2 <> last2)).
Proof. by destruct n. Qed.

(** [std::lexicographical_compare] over two readable ranges decides the
    lexicographic order of the sequences they hold, and reads only. *)
Lemma lexicographical_compare_spec (h : heap) (xs : list T) :
  forall ys n p1 q1 p2 q2,
    range h p1 q1 xs -> range h p2 q2 ys -> (length xs <= n)%nat ->
    exists r,
      lexicographical_compare n p1 q1 p2 q2 h = Ok r h /\
      (r = true <-> lex_lt xs ys).
Proof.
  induction xs as [|x xs IH]; intros ys n p1 q1 p2 q2 Hr1 Hr2 Hn;
    rewrite lexicographical_compare_unfold;
    pose proof (range_nil_iff h p1 q1 _ Hr1) as Hnil1;
    pose proof (range_nil_iff h p2 q2 _ Hr2) as Hnil2.
  - rewrite (bool_decide_eq_false_2 (p1 <> q1)) by (intros Hne; by apply Hne, Hnil1).
    rewrite (bool_decide_eq_true_2 (p1 = q1)) by (by apply Hnil1).
    simpl. eexists. split; [reflexivity |].
    destruct ys as [|y ys].
    + rewrite bool_decide_eq_false_2 by (intros Hne; by apply Hne, Hnil2).
      split; [done | intros Hlt; inversion Hlt].
    + rewrite bool_decide_eq_true_2 by (by rewrite Hnil2).
      split; [intros _; constructor | done].
  - rewrite (bool_decide_eq_true_2 (p1 <> q1)) by (by rewrite Hnil1).
    rewrite (bool_decide_eq_false_2 (p1 = q1)) by (by rewrite Hnil1).
    destruct ys as [|y ys].
    + rewrite bool_decide_eq_false_2 by (intros Hne; by apply Hne, Hnil2).
      simpl. eexists. split; [reflexivity |].
      split; [done | intros Hlt; inversion Hlt].
    + rewrite bool_decide_eq_true_2 by (by rewrite Hnil2).
      simpl in Hn. destruct n as [|n]; [lia |]. simpl.
      destruct (range_cons h _ _ _ _ Hr1) as [Hl1 Hr1'].
      destruct (range_cons h _ _ _ _ Hr2) as [Hl2 Hr2'].
      erewrite bind_Ok; [| exact Hl1]. erewrite bind_Ok; [| exact Hl2].
      destruct (T_lt x y) eqn:Hxy.
      { exists true. split; [done |]. split; [intros _; by constructor | done]. }
      destruct (T_lt y x) eqn:Hyx.
      { exists false. split; [done |].
        split; [done | intros Hlt; inversion Hlt; congruence]. }
      destruct (IH ys n _ _ _ _ Hr1' Hr2') as (r & Hr & Hiff); [lia |].
      exists r. split; [exact Hr |]. rewrite Hiff.
      split; [intros Hlt; by constructor | intros Hlt; inversion Hlt; congruence].
Qed.

Lemma operator_lt_spec (h : heap) a b :
  wf h a -> wf h b ->
  exists r,
    operator_lt a b h = Ok r h /\
    (r = true <-> lex_lt (elements h a) (elements h b)).
Proof.
  intros Ha Hb. unfold operator_lt.
  apply lexicographical_compare_spec; [by apply wf_range .. |].
  pose proof (length_elements h a Ha). lia.
Qed.

Lemma lex_lt_proper_prefix (xs ys : list T) :
  proper_prefix xs ys -> lex_lt xs ys.
Proof.
  intros (y & rest & ->). induction xs as [|x xs IH]; simpl.
  - constructor.
  - destruct (T_lt x x) eqn:Hxx; [by apply lex_lt_head | by apply lex_lt_tail].
Qed.

(** The loop of [operator==] over two sound containers of one length. *)
Lemma eq_loop_spec (h : heap) a b (m : nat) :
  wf h a -> wf h b -> size a = size b ->
  forall k,
    0 <= k -> k + Z.of_nat m = size a ->
    exists r,
      eq_loop m k a b h = Ok r h /\
      (r = true <->
       forall i x y,
         (Z.to_nat k <= i)%nat ->
         elements h a !! i = Some x -> elements h b !! i = Some y ->
         T_eq x y = true).
Proof.
  intros Ha Hb Hsz.
  pose proof (length_elements h a Ha) as Hla.
  pose proof (length_elements h b Hb) as Hlb.
  induction m as [|m IH]; intros k Hk Hkm.
  - exists true. split; [done |]. split; [| done].
    intros _ i x y Hi Hx _. apply lookup_lt_Some in Hx. lia.
  - destruct (subscript_Ok h a k Ha) as (x & Hx & Hsa); [lia |].
    destruct (subscript_Ok h b k Hb) as (y & Hy & Hsb); [lia |].
    simpl. erewrite bind_Ok; [| exact Hsa]. erewrite bind_Ok; [| exact Hsb].
    destruct (T_eq x y) eqn:Hxy; simpl.
    + destruct (IH (k + 1)) as (r & Hr & Hiff); [lia | lia |].
      exists r. split; [exact Hr |]. rewrite Hiff. split.
      * intros Hall i x' y' Hi Hx' Hy'.
        destruct (decide (i = Z.to_nat k)) as [-> | Hne].
        -- by simplify_eq.
        -- apply (Hall i); [lia | done | done].
      * intros Hall i x' y' Hi. apply Hall. lia.
    + exists false. split; [done |]. split; [done |].
      intros Hall. rewrite (Hall (Z.to_nat k) x y) in Hxy; [done | lia | done | done].
Qed.

Lemma operator_eq_spec (h : heap) a b :
  wf h a -> wf h b ->
  exists r,
    operator_eq a b h = Ok r h /\
    (r = true <-> elementwise_eq (elements h a) (elements h b)).
Proof.
  intros Ha Hb.
  pose proof (length_elements h a Ha) as Hla.
  pose proof (length_elements h b Hb) as Hlb.
  pose proof (wf_bounds h a Ha) as [Hsa _].
  unfold operator_eq, elementwise_eq.
  destruct (decide (size a <> size b)) as [Hne | Heq].
  - exists false. split; [done |]. split; [done |]. intros [Hlen _]. lia.
  - apply dec_stable in Heq.
    destruct (eq_loop_spec h a b (Z.to_nat (size a)) Ha Hb Heq 0) as (r & Hr & Hiff);
      [lia | lia |].
    exists r. split; [exact Hr |]. rewrite Hiff. split.
    + intros Hall. split; [lia |]. intros i x y. apply Hall. lia.
    + intros [_ Hall] i x y _. apply Hall.
Qed.

(** C8: for two sound containers, [a < b] returns, reads only, and is true
    exactly when the elements of [a] are lexicographically less than those
    of [b] under the element type's [<]; it is true in particular when the
    elements of [a] are a proper prefix of those of [b]; and [a == b]
    returns, reads only, and is true exactly when the two element sequences
    have the same length and are equal element by element under the
    element type's [==]. *)
Theorem comparison_spec (h : heap) a b :
  wf h a -> wf h b ->
  (exists r,
     operator_lt a b h = Ok r h /\
     (r = true <-> lex_lt (elements h a) (elements h b)) /\
     (proper_prefix (elements h a) (elements h b) -> r = true)) /\
  (exists r,
     operator_eq a b h = Ok r h /\
     (r = true <->
      size a = size b /\ elementwise_eq (elements h a) (elements h b))).
Proof.
  intros Ha Hb. split.
  - destruct (operator_lt_spec h a b Ha Hb) as (r & Hr & Hiff).
    exists r. split; [done |]. split; [done |].
    intros Hpre. by apply Hiff, lex_lt_proper_prefix.
  - destruct (operator_eq_spec h a b Ha Hb) as (r & Hr & Hiff).
    exists r. split; [done |]. rewrite Hiff.
    pose proof (length_elements h a Ha) as Hla.
    pose proof (length_elements h b Hb) as Hlb.
    split; [intros He; split; [destruct He; lia | done] | by intros [_ He]].
Qed.

(** C9: for two sound containers all six comparisons return and read only,
    and the derived ones agree with [==] and [<]: [a != b] is the negation
    of [a == b], [a <= b] the negation of [b < a], [a > b] is [b < a], and
    [a >= b] the negation of [a < b]. *)
Theorem derived_comparisons (h : heap) a b :
  wf h a -> wf h b ->
  exists eq_ab lt_ab lt_ba,
    operator_eq a b h = Ok eq_ab h /\
    operator_lt a b h = Ok lt_ab h /\
    operator_lt b a h = Ok lt_ba h /\
    operator_ne a b h = Ok (negb eq_ab) h /\
    operator_le a b h = Ok (negb lt_ba) h /\
    operator_gt a b h = Ok lt_ba h /\
    operator_ge a b h = Ok (negb lt_ab) h.
Proof.
  intros Ha Hb.
  destruct (operator_eq_spec h a b Ha Hb) as (eq_ab & Heq & _).
  destruct (operator_lt_spec h a b Ha Hb) as (lt_ab & Hlt & _).
  destruct (operator_lt_spec h b a Hb Ha) as (lt_ba & Hgt & _).
  exists eq_ab, lt_ab, lt_ba.
  unfold operator_ne, operator_le, operator_gt, operator_ge, bind.
  rewrite Heq, Hlt, Hgt. done.
Qed.

(** ** Copying *)

Lemma vector_copy_Ok (h : heap) other :
  wf h other ->
  vector_copy other h
  = Ok (Vector (Ptr (fresh (dom h)) 0) (Ptr (fresh (dom h)) (size other))
          (Ptr (fresh (dom h)) (capacity other)))
       (<[fresh (dom h) :=
            (Some <$> elements h other)
            ++ replicate (Z.to_nat (capacity other - size other))
                 (Some T_default)]> h).
Proof.
  pose proof max_array_len_lt_modulus as Hm.
  intros Hwf. pose proof (wf_bounds h other Hwf) as [_ Hcap].
  unfold vector_copy.
  erewrite bind_Ok; [| by apply new_array_Ok].
  clear Hcap. set (b' := fresh (dom h)).
  destruct Hwf as [|b xs spare Hb Hlen].
  - change (size (Vector nullptr nullptr nullptr)) with 0.
    change (capacity (Vector nullptr nullptr nullptr)) with 0.
    reflexivity.
  - rewrite !size_block, !capacity_block by lia.
    set (dst := replicate (Z.to_nat (Z.of_nat (length xs + length spare)))
                  (Some T_default)).
    assert (Hne : b <> b') by (by eapply fresh_block_ne).
    rewrite (elements_block h b xs spare) by (done || lia).
    erewrite bind_Ok.
    2:{ apply (copy_loop_spec _ b b' xs spare dst); try done.
        - by rewrite lookup_insert_ne.
        - by rewrite lookup_insert_eq.
        - unfold dst. rewrite length_replicate. lia.
        - apply Forall_fresh_slots. }
    rewrite insert_insert_eq. simpl. unfold ret. rewrite !Z.add_0_l.
    unfold dst. rewrite drop_replicate. do 4 f_equal. lia.
Qed.

(** The copy and the source after [vector(const vector &other)]. *)
Lemma vector_copy_post (h : heap) other :
  wf h other ->
  exists v h',
    vector_copy other h = Ok v h' /\ owns h h' v /\ intact h' v /\
    capacity v = capacity other /\ size v = size other /\
    elements h' v = elements h other /\
    first v <> first other /\
    wf h' other /\ elements h' other = elements h other.
Proof.
  pose proof max_array_len_lt_modulus as Hm.
  intros Hwf. pose proof (wf_bounds h other Hwf) as [Hsz Hcap].
  pose proof (length_elements h other Hwf) as Hlen.
  set (v := Vector (Ptr (fresh (dom h)) 0) (Ptr (fresh (dom h)) (size other))
              (Ptr (fresh (dom h)) (capacity other))).
  set (spare := replicate (Z.to_nat (capacity other - size other))
                  (Some T_default)).
  set (h' := <[fresh (dom h) := (Some <$> elements h other) ++ spare]> h).
  assert (Hnew : h' !! fresh (dom h) = Some ((Some <$> elements h other) ++ spare))
    by apply lookup_insert_eq.
  assert (Hown : owns h h' v).
  { apply owns_fresh; [lia | | lia].
    unfold spare. rewrite length_replicate. lia. }
  assert (Hev : elements h' v = elements h other).
  { unfold v. rewrite <- Hlen.
    apply (elements_block h' _ _ spare); [done | lia]. }
  assert (Hsv : size v = size other) by (apply size_block; lia).
  assert (Hframe : wf h' other /\ elements h' other = elements h other).
  { destruct (wf_frame h h' other Hwf) as (? & ? & _); [| done].
    intros b off Hfirst.
    apply lookup_insert_ne. intros <-.
    destruct other as [f l e]. simpl in Hfirst. subst f.
    apply wf_block_inv in Hwf as (xs0 & spare0 & Harr0 & _).
    by rewrite fresh_block_None in Harr0. }
  destruct Hframe as [Hwfo Heo].
  exists v, h'. split; [by apply vector_copy_Ok |].
  split; [done |].
  split; [apply (intact_block h' _ _ _ _ spare Hnew), Forall_fresh_slots |].
  split; [apply capacity_block; lia |].
  split; [done |]. split; [done |].
  split; [| done].
  simpl. intros Heq. destruct Hwf as [|b xs0 spare0 Hb _]; [done |].
  simpl in Heq. injection Heq as <-. by rewrite fresh_block_None in Hb.
Qed.

(** C2, as the code has it: copy construction from a sound container
    returns; the copy sits in a fresh array whose capacity is the capacity
    of the source (not its size), has the length and the elements of the
    source, in order, and leaves the source as it was.  The copy compares
    equal to the source exactly when [==] of the element type holds
    between each element and itself. *)
Theorem vector_copy_spec (h : heap) other :
  wf h other ->
  exists v h',
    vector_copy other h = Ok v h' /\ wf h' v /\
    capacity v = capacity other /\ size v = size other /\
    elements h' v = elements h other /\
    first v <> first other /\
    wf h' other /\ elements h' other = elements h other /\
    exists r,
      operator_eq v other h' = Ok r h' /\
      (r = true <-> Forall (fun x => T_eq x x = true) (elements h other)).
Proof.
  intros Hwf.
  destruct (vector_copy_post h other Hwf)
    as (v & h' & Hrun & Hown & _ & Hc & Hs & Hev & Hne & Hwfo & Heo).
  pose proof (owns_wf _ _ _ Hown) as Hwfv.
  exists v, h'. repeat (split; [done |]).
  destruct (operator_eq_spec h' v other Hwfv Hwfo) as (r & Hr & Hiff).
  exists r. split; [done |]. rewrite Hiff, Hev, Heo.
  rewrite Forall_lookup. split.
  - intros [_ Hall] i x Hx. by apply (Hall i).
  - intros Hall. split; [done |]. intros i x y Hx Hy. simplify_eq.
    by apply (Hall i).
Qed.

End Observers.

(** * Construction, the loops over the container, and the invariant *)

Section Invariant.

Context {T : Type} `{ET : Element T}.

Abbreviation heap := (gmap block (list (option T))).

(** ** Construction *)

Lemma vector_fill_Ok (h : heap) count value :
  0 <= count <= max_array_len ->
  vector_fill count value h
  = Ok (Vector (Ptr (fresh (dom h)) 0) (Ptr (fresh (dom h)) count)
          (Ptr (fresh (dom h)) count))
       (<[fresh (dom h) := replicate (Z.to_nat count) (Some value)]> h).
Proof.
  intros Hc. unfold vector_fill.
  erewrite bind_Ok; [| apply new_array_Ok; lia].
  erewrite bind_Ok.
  2:{ apply fill_loop_spec; [apply lookup_insert_eq | |].
      - rewrite length_replicate. lia.
      - apply Forall_fresh_slots. }
  rewrite insert_insert_eq. simpl. unfold ret. rewrite !Z.add_0_l.
  rewrite drop_replicate, Nat.sub_diag. simpl. by rewrite app_nil_r.
Qed.

Lemma vector_fill_BadAlloc (h : heap) count value :
  max_array_len < count -> vector_fill count value h = BadAlloc.
Proof.
  intros Hc. unfold vector_fill, bind. by rewrite new_array_BadAlloc.
Qed.

(** The loop of the initializer-list constructor. *)
Lemma init_loop_spec (init : list T) :
  forall (k : nat) (h : heap) dst b l e,
    h !! b = Some dst -> (k + length init <= length dst)%nat ->
    Forall is_Some dst ->
    init_loop init (Z.of_nat k) (Vector (Ptr b 0) l e) h
    = Ok tt (<[b := take k dst ++ (Some <$> init)
                    ++ drop (k + length init) dst]> h).
Proof.
  induction init as [|x rest IH]; intros k h dst b l e Hb Hlen Hlive.
  - simpl. unfold ret. rewrite Nat.add_0_r, take_drop. by rewrite insert_id.
  - simpl in Hlen. cbn [init_loop]. simpl first.
    replace (k + length (x :: rest))%nat with (S k + length rest)%nat
      by (simpl; lia).
    destruct (lookup_lt_is_Some_2 dst k) as [s Hs]; [lia |].
    destruct (Forall_lookup_1 _ _ _ _ Hlive Hs) as [y ->].
    erewrite bind_Ok; [| eapply store_Ok; [exact Hb | exact Hs]].
    replace (Z.of_nat k + 1) with (Z.of_nat (S k)) by lia.
    rewrite (IH (S k) _ (<[k := Some x]> dst)).
    + rewrite insert_insert_eq. do 2 f_equal.
      rewrite drop_insert_lt by lia.
      rewrite (take_S_r (<[k := Some x]> dst) k (Some x))
        by (apply list_lookup_insert_eq; lia).
      rewrite take_insert_ge by lia. by rewrite <- app_assoc.
    + apply lookup_insert_eq.
    + rewrite length_insert. lia.
    + apply Forall_insert; [done | by eexists].
Qed.

Lemma vector_init_Ok (h : heap) init :
  Z.of_nat (length init) <= max_array_len ->
  vector_init init h
  = Ok (Vector (Ptr (fresh (dom h)) 0)
          (Ptr (fresh (dom h)) (Z.of_nat (length init)))
          (Ptr (fresh (dom h)) (Z.of_nat (length init))))
       (<[fresh (dom h) := Some <$> init]> h).
Proof.
  pose proof max_array_len_lt_modulus as Hm.
  intros Hc. unfold vector_init. rewrite wrap_small by lia.
  erewrite bind_Ok; [| apply vector_fill_Ok; lia].
  erewrite bind_Ok.
  2:{ apply (init_loop_spec init 0); [apply lookup_insert_eq | |].
      - rewrite length_replicate. lia.
      - apply Forall_fresh_slots. }
  rewrite insert_insert_eq. unfold ret. do 2 f_equal. simpl.
  rewrite drop_replicate, Nat2Z.id, Nat.sub_diag. simpl. apply app_nil_r.
Qed.

(** A fresh array that is full of elements. *)
Lemma owns_fresh_full (h : heap) (xs : list T) n :
  n = Z.of_nat (length xs) -> n <= max_array_len ->
  owns h (<[fresh (dom h) := Some <$> xs]> h)
    (Vector (Ptr (fresh (dom h)) 0) (Ptr (fresh (dom h)) n)
       (Ptr (fresh (dom h)) n)) /\
  elements (<[fresh (dom h) := Some <$> xs]> h)
    (Vector (Ptr (fresh (dom h)) 0) (Ptr (fresh (dom h)) n)
       (Ptr (fresh (dom h)) n)) = xs.
Proof.
  pose proof max_array_len_lt_modulus as Hm.
  intros -> Hmax. rewrite <- (app_nil_r (Some <$> xs)). split.
  - apply owns_fresh; [done | simpl; lia | lia].
  - apply (elements_block _ _ xs []); [apply lookup_insert_eq | lia].
Qed.

(** ** Loops over the container *)

(** What each iteration keeps, the loop keeps. *)
Lemma while_loop_inv (I : heap -> vector -> Prop) cond body :
  (forall (h : heap) v v' h',
      I h v -> cond v = true -> body v h = Ok v' h' -> I h' v') ->
  forall n (h : heap) v v' h',
    I h v -> while_loop n cond body v h = Ok v' h' ->
    I h' v' /\ cond v' = false.
Proof.
  intros Hbody n. induction n as [|n IH]; intros h v v' h' Hi Hrun;
    simpl in Hrun; destruct (cond v) eqn:Hc; try done.
  - unfold ret in Hrun. by simplify_eq.
  - unfold bind in Hrun.
    destruct (body v h) as [v1 h1 | | | |] eqn:Hb; try done.
    eapply IH; [| exact Hrun]. by eapply Hbody.
  - unfold ret in Hrun. by simplify_eq.
Qed.

Lemma while_loop_done n cond body v (h : heap) :
  cond v = false -> while_loop n cond body v h = Ok v h.
Proof. intros Hc. destruct n; simpl; by rewrite Hc. Qed.

(** ** The loops of [clear] and [resize] end

    Each loop is given as many iterations as it needs: the results below
    are normal returns. *)

(** The loop of [clear()] destroys the elements from the last to the
    first. *)
Lemma clear_loop (b : block) (e : pointer) (xs : list T) :
  forall (m : nat) (h : heap) rest,
    (length xs <= m)%nat ->
    h !! b = Some ((Some <$> xs) ++ rest) ->
    while_loop m
      (fun v => negb (bool_decide (last v = first v)))
      (fun v =>
         let v := Vector (first v) (ptr_add (last v) (-1)) (end_ptr v) in
         destroy (last v) ;;; ret v)
      (Vector (Ptr b 0) (Ptr b (Z.of_nat (length xs))) e) h
    = Ok (Vector (Ptr b 0) (Ptr b 0) e)
         (if T_trivial_dtor then h
          else <[b := replicate (length xs) None ++ rest]> h).
Proof.
  induction xs as [|x xs IH] using rev_ind; intros m h rest Hm Hb.
  - destruct m; cbn [while_loop]; simpl;
      rewrite bool_decide_eq_true_2 by done; simpl; unfold ret;
      destruct T_trivial_dtor; by rewrite ?insert_id.
  - rewrite length_app in *. simpl length in *.
    destruct m as [|m]; [lia |].
    cbn [while_loop first last end_ptr].
    rewrite bool_decide_eq_false_2 by (intros [= Heq]; lia).
    cbn [negb first last end_ptr ptr_add].
    replace (Z.of_nat (length xs + 1) + -1) with (Z.of_nat (length xs)) by lia.
    rewrite slots_snoc in Hb.
    assert (Hdestroy :
      destroy (Ptr b (Z.of_nat (length xs))) h
      = Ok tt (if T_trivial_dtor then h
               else <[b := (Some <$> xs) ++ None :: rest]> h)).
    { unfold destroy. rewrite Hb, decide_True by lia. rewrite Nat2Z.id.
      rewrite lookup_app_r by (by rewrite length_fmap).
      rewrite length_fmap, Nat.sub_diag. simpl.
      by rewrite insert_slots. }
    erewrite bind_Ok; [| erewrite bind_Ok; [reflexivity | exact Hdestroy]].
    destruct T_trivial_dtor.
    + apply (IH m h (Some x :: rest)); [lia | done].
    + rewrite (IH m _ (None :: rest)); [| lia | apply lookup_insert_eq].
      rewrite insert_insert_eq. do 2 f_equal.
      rewrite Nat.add_1_r, replicate_S_end. by rewrite <- app_assoc.
Qed.

(** [clear()] on a container that owns its array returns with the same
    array and no element; the slots of the old elements hold no objects
    any more, unless the destructor is trivial; nothing is released. *)
Lemma clear_spec (h0 h : heap) v :
  owns h0 h v ->
  exists v' h',
    clear v h = Ok v' h' /\ owns h0 h' v' /\
    size v' = 0 /\ capacity v' = capacity v /\ first v' = first v /\
    (T_trivial_dtor = true -> h' = h) /\
    (forall b off arr,
       first v = Ptr b off -> h !! b = Some arr ->
       h' !! b
       = Some (if T_trivial_dtor then arr
               else replicate (Z.to_nat (size v)) None
                    ++ drop (Z.to_nat (size v)) arr)) /\
    (forall b, (forall off, first v <> Ptr b off) -> h' !! b = h !! b).
Proof.
  pose proof max_array_len_lt_modulus as Hm.
  intros Hown. pose proof (owns_wf _ _ _ Hown) as Hwf.
  destruct Hwf as [|b xs spare Hb Hlen].
  - exists vector_default, h. split; [done |]. split; [done |].
    by repeat split.
  - unfold clear. rewrite size_block by lia.
    rewrite (clear_loop b _ xs _ h spare) by (done || lia).
    eexists _, _. split; [reflexivity |].
    set (h' := if T_trivial_dtor then h
               else <[b := replicate (length xs) None ++ spare]> h).
    assert (Hnew : exists spare',
              h' !! b = Some ((Some <$> []) ++ spare') /\
              length spare' = (length xs + length spare)%nat).
    { unfold h'. destruct T_trivial_dtor.
      - eexists. split; [exact Hb |].
        rewrite length_app, length_fmap. done.
      - eexists. split; [apply lookup_insert_eq |].
        rewrite length_app, length_replicate. done. }
    destruct Hnew as (spare' & Hnew & Hlen').
    assert (Hwf' : wf h'
      (Vector (Ptr b 0) (Ptr b 0) (Ptr b (Z.of_nat (length xs + length spare))))).
    { eapply wf_intro; [exact Hnew | done | simpl; lia | lia]. }
    split; [| split; [| split; [| split; [| split; [| split]]]]].
    + unfold h' in *. destruct T_trivial_dtor.
      * by eapply owns_same.
      * by eapply owns_update.
    + by rewrite size_block by lia.
    + by rewrite !capacity_block by lia.
    + done.
    + intros Htriv. unfold h'. by rewrite Htriv.
    + intros b0 off arr [= <- <-] Harr. rewrite Hb in Harr.
      injection Harr as <-. unfold h'. rewrite Nat2Z.id, drop_slots.
      destruct T_trivial_dtor; [done | apply lookup_insert_eq].
    + intros b0 Hb0. unfold h'. destruct T_trivial_dtor; [done |].
      apply lookup_insert_ne. intros ->. by apply (Hb0 0).
Qed.

Lemma resize_shrink_loop (h0 : heap) new_size (m : nat) :
  forall (h : heap) v,
    owns h0 h v -> 0 <= new_size <= size v ->
    (Z.to_nat (size v - new_size) <= m)%nat ->
    exists v' h',
      while_loop m (fun v => bool_decide (new_size < size v)) pop_back v h
      = Ok v' h' /\
      owns h0 h' v' /\ size v' = new_size /\ capacity v' = capacity v /\
      elements h' v' = take (Z.to_nat new_size) (elements h v) /\
      first v' = first v /\
      (T_trivial_dtor = true -> h' = h) /\
      (T_trivial_dtor = false -> new_size < size v ->
         ~ intact h' v' /\ forall y, store (last v') y h' = Undefined).
Proof.
  induction m as [|m IH]; intros h v Hown Hn Hm;
    pose proof (length_elements h v (owns_wf _ _ _ Hown)) as Hl.
  - assert (size v = new_size) as Heq by lia.
    exists v, h. simpl. rewrite bool_decide_eq_false_2 by lia.
    split; [done |]. split; [done |]. split; [done |]. split; [done |].
    split; [| split; [done |]; split; [done | lia]].
    rewrite take_ge; [done | lia].
  - destruct (decide (new_size < size v)) as [Hlt | Hge].
    + cbn [while_loop]. rewrite bool_decide_eq_true_2 by done.
      destruct (pop_back_nonempty h0 h v Hown)
        as (v1 & x & h1 & Hrun & Hown1 & Hs1 & Hc1 & He1 & Hf1 & _ & Ht1 & Hd1);
        [lia |].
      erewrite bind_Ok; [| exact Hrun].
      destruct (IH h1 v1 Hown1)
        as (v' & h' & Hloop & Hown' & Hs' & Hc' & He' & Hf' & Ht' & Hd');
        [lia | lia |].
      exists v', h'. split; [exact Hloop |]. split; [done |].
      split; [done |]. split; [congruence |].
      split; [| split; [congruence |]; split].
      * rewrite He', He1. rewrite take_app_le; [done |].
        pose proof (length_elements h1 v1 (owns_wf _ _ _ Hown1)). lia.
      * intros Htriv. rewrite (Ht' Htriv). by apply Ht1.
      * intros Htriv _.
        destruct (decide (new_size < size v1)) as [Hmore | Hdone];
          [by apply Hd' |].
        rewrite (while_loop_done m) in Hloop
          by (apply bool_decide_eq_false_2; lia).
        injection Hloop as <- <-. by apply Hd1.
    + exists v, h. cbn [while_loop]. rewrite bool_decide_eq_false_2 by done.
      split; [done |]. split; [done |]. split; [lia |]. split; [done |].
      split; [| split; [done |]; split; [done | lia]].
      rewrite take_ge; [done | lia].
Qed.

Lemma resize_grow_loop (h0 : heap) (new_size : Z) value x (m : nat) :
  read value h0 = Ok x h0 ->
  forall (h : heap) v,
    owns h0 h v -> intact h v -> size v <= new_size <= capacity v ->
    (Z.to_nat (new_size - size v) <= m)%nat ->
    exists v' h',
      while_loop m (fun v => bool_decide (size v < new_size))
        (push_back value) v h
      = Ok v' h' /\
      owns h0 h' v' /\ intact h' v' /\
      size v' = new_size /\ capacity v' = capacity v /\
      elements h' v'
      = elements h v ++ replicate (Z.to_nat (new_size - size v)) x /\
      first v' = first v.
Proof.
  intros Hread. induction m as [|m IH]; intros h v Hown Hi Hn Hm.
  - assert (size v = new_size) as Heq by lia.
    exists v, h. simpl. rewrite bool_decide_eq_false_2 by lia.
    split; [done |]. split; [done |]. split; [done |]. split; [done |].
    split; [done |]. split; [| done].
    replace (new_size - size v) with 0 by lia. simpl. by rewrite app_nil_r.
  - destruct (decide (size v < new_size)) as [Hlt | Hge].
    + cbn [while_loop]. rewrite bool_decide_eq_true_2 by done.
      pose proof (wf_bounds h v (owns_wf _ _ _ Hown)) as [_ Hcap].
      pose proof (push_back_owns_spec h0 h v value x Hown Hi Hread) as Hpush.
      assert (Hkeep : capacity_after_push v = capacity v).
      { unfold capacity_after_push. rewrite decide_False; [done | lia]. }
      rewrite Hkeep, decide_True in Hpush by done.
      destruct Hpush as (v1 & h1 & Hrun & Hown1 & Hi1 & He1 & Hs1 & Hc1 & Hf1).
      erewrite bind_Ok; [| exact Hrun].
      destruct (IH h1 v1 Hown1 Hi1)
        as (v' & h' & Hloop & Hown' & Hi' & Hs' & Hc' & He' & Hf');
        [lia | lia |].
      exists v', h'. split; [exact Hloop |]. split; [done |].
      split; [done |]. split; [done |]. split; [congruence |].
      split; [| rewrite Hf'; apply Hf1; lia].
      rewrite He', He1, <- app_assoc. f_equal.
      replace (Z.to_nat (new_size - size v))
        with (S (Z.to_nat (new_size - size v1))) by lia.
      done.
    + exists v, h. cbn [while_loop]. rewrite bool_decide_eq_false_2 by done.
      split; [done |]. split; [done |]. split; [done |]. split; [lia |].
      split; [done |]. split; [| done].
      replace (new_size - size v) with 0 by lia. simpl. by rewrite app_nil_r.
Qed.

(** [resize(new_size, value)] on a container that owns its array: down,
    it destroys the elements from [new_size] on and keeps the capacity;
    up, on an intact array and for an argument outside the container, it
    reserves [new_size] slots if there are fewer and appends copies of
    the value. *)
Lemma resize_spec (h0 h : heap) v new_size value :
  owns h0 h v -> 0 <= new_size ->
  (new_size <= size v ->
     exists v' h',
       resize new_size value v h = Ok v' h' /\ owns h0 h' v' /\
       size v' = new_size /\ capacity v' = capacity v /\
       elements h' v' = take (Z.to_nat new_size) (elements h v) /\
       first v' = first v /\
       (T_trivial_dtor = true -> h' = h) /\
       (T_trivial_dtor = false -> new_size < size v ->
          ~ intact h' v' /\ forall y, store (last v') y h' = Undefined)) /\
  (size v < new_size -> new_size <= max_array_len -> intact h v ->
   forall x, read value h0 = Ok x h0 ->
     exists v' h',
       resize new_size value v h = Ok v' h' /\ owns h0 h' v' /\
       intact h' v' /\ size v' = new_size /\
       capacity v' = Z.max (capacity v) new_size /\
       elements h' v'
       = elements h v ++ replicate (Z.to_nat (new_size - size v)) x) /\
  (max_array_len < new_size -> resize new_size value v h = BadAlloc).
Proof.
  intros Hown Hn. pose proof (owns_wf _ _ _ Hown) as Hwf.
  pose proof (wf_bounds h v Hwf) as [Hsz Hcap].
  unfold resize. split; [| split].
  - intros Hle. destruct (decide (new_size < size v)) as [Hlt | Hge].
    + apply resize_shrink_loop; [done | lia | lia].
    + rewrite decide_False by lia. exists v, h.
      split; [done |]. split; [done |]. split; [lia |]. split; [done |].
      split; [| split; [done |]; split; [done | lia]].
      pose proof (length_elements h v Hwf). rewrite take_ge; [done | lia].
  - intros Hlt Hmax Hi x Hread. rewrite decide_False, decide_True by lia.
    destruct (decide (capacity v < new_size)) as [Hres | Hres].
    + destruct (reserve_grow h0 h v new_size Hown Hi Hres Hmax)
        as (v1 & h1 & Hrun & Hown1 & Hi1 & Hc1 & Hs1 & He1).
      erewrite bind_Ok; [| exact Hrun].
      destruct (resize_grow_loop h0 new_size value x
                  (Z.to_nat (new_size - size v1)) Hread h1 v1 Hown1 Hi1)
        as (v' & h' & Hloop & Hown' & Hi' & Hs' & Hc' & He' & _);
        [lia | lia |].
      exists v', h'. split; [exact Hloop |].
      split; [done |]. split; [done |]. split; [done |]. split; [lia |].
      by rewrite He', He1, Hs1.
    + unfold reserve. rewrite (decide_False (P := capacity v < new_size)) by done.
      unfold bind at 1, ret at 1.
      destruct (resize_grow_loop h0 new_size value x
                  (Z.to_nat (new_size - size v)) Hread h v Hown Hi)
        as (v' & h' & Hloop & Hown' & Hi' & Hs' & Hc' & He' & _);
        [lia | lia |].
      exists v', h'. split; [exact Hloop |].
      split; [done |]. split; [done |]. split; [done |]. split; [lia | done].
  - intros Hmax. rewrite decide_False, decide_True by lia.
    unfold bind, reserve. rewrite decide_True by lia.
    by rewrite reallocate_BadAlloc.
Qed.

(** After a reallocation the old array is gone. *)
Lemma reallocate_gone (h : heap) v b off new_cap v1 h1 :
  wf h v -> first v = Ptr b off -> size v <= new_cap ->
  reallocate new_cap v h = Ok v1 h1 -> h1 !! b = None.
Proof.
  intros Hwf Hfirst Hsz Hrun.
  destruct (reallocate_Ok_inv h v new_cap v1 h1 Hwf Hsz Hrun) as [Hi Hle].
  rewrite reallocate_heap in Hrun by done. injection Hrun as <- <-.
  unfold heap_without. rewrite Hfirst. apply lookup_delete_eq.
Qed.

(** A [resize] that has to reallocate reads its argument after the old
    array is released: when the argument is a slot of that array, the
    read is undefined behaviour. *)
Lemma resize_alias (h : heap) v b off off' new_size :
  wf h v -> intact h v -> first v = Ptr b off' ->
  capacity v < new_size -> new_size <= max_array_len ->
  resize new_size (Ref (Ptr b off)) v h = Undefined.
Proof.
  intros Hwf Hi Hfirst Hlt Hmax.
  pose proof (wf_bounds h v Hwf) as [Hsz Hcap].
  pose proof (owns_intro h v Hwf) as Hown.
  unfold resize. rewrite decide_False, decide_True by lia.
  destruct (reserve_grow _ h v new_size Hown Hi Hlt Hmax)
    as (v1 & h1 & Hrun & Hown1 & Hi1 & Hc1 & Hs1 & He1).
  erewrite bind_Ok; [| exact Hrun].
  assert (Hgone : h1 !! b = None).
  { unfold reserve in Hrun. rewrite decide_True in Hrun by done.
    eapply (reallocate_gone h v b off' new_size); [done | done | lia | done]. }
  destruct (Z.to_nat (new_size - size v1)) as [|m] eqn:Hm; [lia |].
  cbn [while_loop]. rewrite bool_decide_eq_true_2 by lia.
  unfold push_back.
  rewrite (decide_False (P := last v1 = end_ptr v1)).
  2:{ rewrite (wf_full_iff h1 v1 (owns_wf _ _ _ Hown1)). lia. }
  unfold bind, ret. simpl. unfold load. by rewrite Hgone.
Qed.

Lemma clear_owns (h0 h : heap) v v' h' :
  owns h0 h v -> clear v h = Ok v' h' -> owns h0 h' v'.
Proof.
  intros Hown Hrun.
  destruct (clear_spec h0 h v Hown) as (v1 & h1 & Hc & Hown1 & _).
  rewrite Hc in Hrun. by injection Hrun as <- <-.
Qed.

Lemma resize_owns (h0 h : heap) v new_size value v' h' :
  owns h0 h v -> resize new_size value v h = Ok v' h' -> owns h0 h' v'.
Proof.
  intros Hown Hrun. unfold resize in Hrun.
  destruct (decide (new_size < size v)).
  - eapply (while_loop_inv (owns h0)) in Hrun as [Hr _]; [exact Hr | | exact Hown].
    intros h1 v1 v2 h2 Hown1 _. by apply pop_back_owns.
  - destruct (decide (size v < new_size)).
    + apply bind_Ok_inv in Hrun as (v1 & h1 & Hres & Hrun).
      apply (reserve_owns h0) in Hres; [| done].
      eapply (while_loop_inv (owns h0)) in Hrun as [Hr _]; [exact Hr | | exact Hres].
      intros h2 v2 v3 h3 Hown2 _. by apply push_back_owns.
    + unfold ret in Hrun. by injection Hrun as <- <-.
Qed.

(** ** The range constructor *)

(** The copying loop of the range constructor. *)
Lemma range_copy_loop_spec (h : heap) start end_ xs bd dst :
  range h start end_ xs ->
  (forall off, start <> Ptr bd off) -> h !! bd = Some dst ->
  (length xs <= length dst)%nat -> Forall is_Some dst ->
  for_upto (Z.of_nat (length xs))
    (fun i => x <~ load (ptr_add start i) ;;
              store (ptr_add (Ptr bd 0) i) x) h
  = Ok tt (<[bd := (Some <$> xs) ++ drop (length xs) dst]> h).
Proof.
  intros Hrange Hne Hd Hlen Hlive. unfold for_upto. rewrite Nat2Z.id.
  destruct Hrange as [|b arr i n xs Hb Hi Hn Hxs].
  { simpl. unfold ret. by rewrite insert_id. }
  pose proof (for_loop_writes
    (fun j => x <~ load (ptr_add (Ptr b i) j) ;;
              store (ptr_add (Ptr bd 0) j) x)
    bd xs (fun h => h !! b = Some arr)) as Hloop.
  apply (Hloop) with (m := length xs) (k := 0%nat); try done; try lia.
  - intros h0 dst0 Hh0. rewrite lookup_insert_ne; [done |].
    intros <-. by apply (Hne i).
  - intros h0 dst0 j x y Hh0 Hd0 Hj Hy. simpl.
    assert (Hx : arr !! (Z.to_nat i + j)%nat = Some (Some x)).
    { assert (Hj' : (Some <$> xs) !! j = Some (Some x))
        by (by rewrite list_lookup_fmap, Hj).
      rewrite <- Hxs, lookup_drop in Hj'.
      by apply lookup_take_Some in Hj' as [Hj' _]. }
    erewrite bind_Ok.
    2:{ unfold load. rewrite Hh0, decide_True by lia.
        replace (Z.to_nat (i + Z.of_nat j)) with (Z.to_nat i + j)%nat by lia.
        by rewrite Hx. }
    by eapply store_Ok.
Qed.

(** [vector(start, end)] over a readable range: a fresh array with the
    elements of the range, full. *)
Lemma vector_range_Ok (h : heap) start end_ xs :
  range h start end_ xs ->
  Z.of_nat (length xs) <= max_array_len ->
  vector_range start end_ h
  = Ok (Vector (Ptr (fresh (dom h)) 0)
          (Ptr (fresh (dom h)) (Z.of_nat (length xs)))
          (Ptr (fresh (dom h)) (Z.of_nat (length xs))))
       (<[fresh (dom h) := Some <$> xs]> h).
Proof.
  pose proof max_array_len_lt_modulus as Hm.
  intros Hrange Hlen. unfold vector_range.
  rewrite (range_length h start end_ xs Hrange), wrap_small by lia.
  erewrite bind_Ok; [| by apply new_array_Ok].
  erewrite bind_Ok.
  2:{ apply (range_copy_loop_spec _ start end_ xs).
      - apply (range_frame h); [done |]. intros b off ->.
        apply lookup_insert_ne. intros <-.
        inversion Hrange as [|b' arr i n xs' Hb Hi Hn Hxs]; subst.
        by rewrite fresh_block_None in Hb.
      - intros off ->. inversion Hrange as [|b arr i n xs' Hb Hi Hn Hxs]; subst.
        by rewrite fresh_block_None in Hb.
      - apply lookup_insert_eq.
      - rewrite length_replicate. lia.
      - apply Forall_fresh_slots. }
  rewrite insert_insert_eq. simpl. unfold ret. rewrite !Z.add_0_l.
  do 2 f_equal. rewrite drop_replicate, Nat2Z.id, Nat.sub_diag. simpl.
  apply app_nil_r.
Qed.

Lemma vector_range_wf (h : heap) start end_ xs v h' :
  range h start end_ xs -> Z.of_nat (length xs) <= PTRDIFF_MAX ->
  vector_range start end_ h = Ok v h' -> wf h' v.
Proof.
  pose proof max_array_len_lt_modulus as Hm.
  intros Hrange Hmax Hrun.
  destruct (decide (Z.of_nat (length xs) <= max_array_len)) as [Hle | Hgt].
  - rewrite (vector_range_Ok h start end_ xs) in Hrun by done. simplify_eq.
    eapply owns_wf, owns_fresh_full; [done | lia].
  - unfold vector_range, bind in Hrun.
    rewrite (range_length h start end_ xs Hrange) in Hrun.
    rewrite wrap_small in Hrun
      by (unfold PTRDIFF_MAX, size_type_modulus in *; lia).
    by rewrite new_array_BadAlloc in Hrun by lia.
Qed.

(** ** Assignment *)

(** [delete[]] of the old array of a container, after a fresh one has
    been allocated. *)
Lemma delete_old_array (h : heap) v arr' :
  wf h v ->
  (intact h v ->
   delete_array (first v) (<[fresh (dom h) := arr']> h)
   = Ok tt (heap_without (<[fresh (dom h) := arr']> h) v)) /\
  (~ intact h v ->
   delete_array (first v) (<[fresh (dom h) := arr']> h) = Undefined).
Proof.
  intros Hwf. unfold delete_array, heap_without.
  destruct Hwf as [|b xs spare Hb Hlen]; simpl.
  - split; [done |]. intros Hi. exfalso. apply Hi. by intros b off arr.
  - pose proof (fresh_block_ne h b _ Hb) as Hne.
    rewrite lookup_insert_ne, Hb by done. split.
    + intros Hi. by rewrite decide_True by (by apply (Hi b 0)).
    + intros Hi. rewrite decide_False; [done |]. intros Hall. apply Hi.
      intros b' off arr [= <- <-] Harr. by simplify_eq.
Qed.

(** [*this = other] between two objects, on an intact array, with the
    heap it leaves. *)
Lemma copy_assign_heap (h : heap) v other :
  wf h v -> intact h v -> wf h other ->
  copy_assign false v other h
  = Ok (Vector (Ptr (fresh (dom h)) 0) (Ptr (fresh (dom h)) (size other))
          (Ptr (fresh (dom h)) (capacity other)))
       (heap_without
          (<[fresh (dom h) :=
               (Some <$> elements h other)
               ++ replicate (Z.to_nat (capacity other - size other))
                    (Some T_default)]> h) v).
Proof.
  intros Hv Hi Ho. unfold copy_assign.
  erewrite bind_Ok; [| by apply vector_copy_Ok].
  simpl. unfold bind, vector_destroy.
  destruct (delete_old_array h v
              ((Some <$> elements h other)
               ++ replicate (Z.to_nat (capacity other - size other))
                    (Some T_default)) Hv) as [Hok _].
  by rewrite (Hok Hi).
Qed.

Lemma copy_assign_Undefined (h : heap) v other :
  wf h v -> ~ intact h v -> wf h other ->
  copy_assign false v other h = Undefined.
Proof.
  intros Hv Hi Ho. unfold copy_assign.
  erewrite bind_Ok; [| by apply vector_copy_Ok].
  simpl. unfold bind, vector_destroy.
  destruct (delete_old_array h v
              ((Some <$> elements h other)
               ++ replicate (Z.to_nat (capacity other - size other))
                    (Some T_default)) Hv) as [_ Hbad].
  by rewrite (Hbad Hi).
Qed.

Lemma copy_assign_owns (h0 h : heap) v other :
  owns h0 h v -> intact h v -> wf h other ->
  exists v' h',
    copy_assign false v other h = Ok v' h' /\ owns h0 h' v' /\
    intact h' v' /\
    size v' = size other /\ capacity v' = capacity other /\
    elements h' v' = elements h other.
Proof.
  pose proof max_array_len_lt_modulus as Hm.
  intros Hown Hi Ho. pose proof (owns_wf _ _ _ Hown) as Hv.
  pose proof (wf_bounds h other Ho) as [Hsz Hcap].
  pose proof (length_elements h other Ho) as Hlen.
  eexists _, _. split; [by apply copy_assign_heap |].
  set (spare := replicate (Z.to_nat (capacity other - size other))
                  (Some T_default)).
  pose proof (heap_without_fresh h v ((Some <$> elements h other) ++ spare) Hv)
    as Hnew.
  split; [| split; [| split; [| split]]].
  - apply owns_moved; [done | lia | | lia].
    unfold spare. rewrite length_replicate. lia.
  - apply (intact_block _ _ _ _ _ spare Hnew), Forall_fresh_slots.
  - apply size_block. lia.
  - apply capacity_block. lia.
  - rewrite <- Hlen. apply (elements_block _ _ _ spare); [done | lia].
Qed.

Lemma copy_assign_owns_inv (h0 h : heap) v other v' h' :
  owns h0 h v -> wf h other ->
  copy_assign false v other h = Ok v' h' -> owns h0 h' v'.
Proof.
  intros Hown Ho Hrun. pose proof (owns_wf _ _ _ Hown) as Hv.
  destruct (intact_dec h v) as [Hi | Hi].
  - destruct (copy_assign_owns h0 h v other Hown Hi Ho)
      as (v1 & h1 & Hrun1 & Hown1 & _).
    rewrite Hrun1 in Hrun. by injection Hrun as <- <-.
  - by rewrite copy_assign_Undefined in Hrun.
Qed.

Lemma copy_assign_wf (h : heap) same_object v other v' h' :
  wf h v -> wf h other ->
  copy_assign same_object v other h = Ok v' h' -> wf h' v'.
Proof.
  intros Hv Ho Hrun. destruct same_object.
  - unfold copy_assign, ret in Hrun. by simplify_eq.
  - eapply owns_wf, (copy_assign_owns_inv _ h v other);
      [by apply owns_intro | done | done].
Qed.

Lemma move_assign_wf (h : heap) v other v' other' h' :
  wf h v -> wf h other ->
  first v = nullptr \/ first v <> first other ->
  move_assign false v other h = Ok (v', other') h' -> wf h' v'.
Proof.
  intros Hv Ho Hown Hrun. unfold move_assign, bind, delete_array in Hrun.
  destruct Hv as [|b xs spare Hb Hlen]; simpl in Hrun.
  - unfold ret in Hrun. simplify_eq. by destruct other.
  - rewrite Hb in Hrun.
    destruct (decide (Forall is_Some ((Some <$> xs) ++ spare)))
      as [Hall | Hnot]; [| done].
    unfold ret in Hrun. simplify_eq.
    destruct Hown as [Hnull | Hne]; [done |]. simpl in Hne.
    replace (Vector (first other) (last other) (end_ptr other)) with other
      by (by destruct other).
    apply (wf_frame _ _ _ Ho). intros b0 off Hfirst.
    rewrite lookup_delete_ne; [done |]. intros <-.
    destruct other as [f l e]. simpl in *. subst f.
    apply wf_block_inv in Ho as (xs0 & spare0 & _ & -> & _). done.
Qed.

(** ** The invariant of the representation *)

(** Every reachable state satisfies the representation invariant. *)
Lemma reachable_wf (h : heap) v : reachable h v -> wf h v.
Proof.
  pose proof max_array_len_lt_modulus as Hm.
  induction 1 as
    [ h
    | h count value v h' Hc Hrun
    | h init v h' Hc Hrun
    | h other v h' _ IH Hrun
    | h other v other' h' _ IH Hrun
    | h other v other' h' _ IH Hrun
    | h v value v' h' _ IH Hrun
    | h v v' h' _ IH Hrun
    | h v v' h' _ IH Hrun
    | h v new_size value v' h' _ IH Hc Hrun
    | h v new_cap v' h' _ IH Hc Hrun
    | h v v' h' _ IH Hrun
    | h start end_ xs v h' Hrange Hmax Hrun
    | h same_object v other v' h' _ IHv _ IHo Hrun
    | h v other v' other' h' _ IHv _ IHo Hown Hrun
    | h v other v' other' h' _ IHv _ IHo Hrun
    | h v value v' h' _ IH Hrun
    | h v other v' other' _ IHv _ IHo Hswap
    | h v h' _ IH Hsame ].
  - constructor.
  - destruct (decide (count <= max_array_len)).
    + rewrite vector_fill_Ok in Hrun by lia. simplify_eq.
      rewrite <- fmap_replicate.
      eapply owns_wf, owns_fresh_full; [by rewrite length_replicate; lia | lia].
    + by rewrite vector_fill_BadAlloc in Hrun by lia.
  - destruct (decide (Z.of_nat (length init) <= max_array_len)).
    + rewrite vector_init_Ok in Hrun by lia. simplify_eq.
      eapply owns_wf, owns_fresh_full; [done | lia].
    + unfold vector_init, bind in Hrun.
      rewrite wrap_small in Hrun by lia.
      by rewrite vector_fill_BadAlloc in Hrun by lia.
  - destruct (vector_copy_post h other IH) as (v1 & h1 & Hc & Hown1 & _).
    rewrite Hc in Hrun. injection Hrun as <- <-. by eapply owns_wf.
  - unfold vector_move, ret in Hrun. simplify_eq. by destruct other.
  - unfold vector_move, ret in Hrun. simplify_eq. constructor.
  - eapply owns_wf, push_back_owns; [by apply owns_intro | done].
  - eapply owns_wf, pop_back_owns; [by apply owns_intro | done].
  - eapply owns_wf, clear_owns; [by apply owns_intro | done].
  - eapply owns_wf, resize_owns; [by apply owns_intro | done].
  - eapply owns_wf, reserve_owns; [by apply owns_intro | done].
  - eapply owns_wf, shrink_to_fit_owns; [by apply owns_intro | done].
  - by eapply (vector_range_wf h start end_ xs).
  - by eapply (copy_assign_wf h same_object v other).
  - by eapply (move_assign_wf h v other).
  - unfold move_assign, bind in Hrun.
    destruct (delete_array (first v) h); [| done ..].
    unfold ret in Hrun. simplify_eq. constructor.
  - eapply owns_wf, emplace_back_owns; [by apply owns_intro | done].
  - unfold swap in Hswap. by simplify_eq.
  - by apply (wf_frame h h' v).
Qed.

(** ** Zero capacity and the buffer *)

Lemma wf_capacity_zero (h : heap) v :
  wf h v ->
  (first v = nullptr -> capacity v = 0 /\ size v = 0) /\
  (capacity v = 0 ->
     first v = nullptr \/ exists b, first v = Ptr b 0 /\ h !! b = Some []).
Proof.
  pose proof max_array_len_lt_modulus as Hm.
  intros [|b xs spare Hb Hlen].
  - split; [done | by left].
  - split; [done |]. rewrite capacity_block by lia. intros Hz.
    right. exists b. split; [done |].
    destruct xs; [| simpl in Hz; lia]. destruct spare; [done | simpl in Hz; lia].
Qed.

(** [shrink_to_fit()] on an empty container whose array is intact. *)
Lemma shrink_to_fit_empty (h : heap) v :
  wf h v -> size v = 0 -> intact h v ->
  exists v' h',
    shrink_to_fit v h = Ok v' h' /\ capacity v' = 0 /\
    (capacity v = 0 -> v' = v /\ h' = h) /\
    (capacity v <> 0 ->
       first v' = Ptr (fresh (dom h)) 0 /\ h' !! fresh (dom h) = Some []).
Proof.
  intros Hwf Hz Hi. pose proof (wf_bounds h v Hwf) as [Hb Hc].
  pose proof max_array_len_range as Hmax.
  unfold shrink_to_fit.
  destruct (decide (size v < capacity v)) as [Hlt | Hge].
  - rewrite reallocate_heap by (done || lia).
    eexists _, _. split; [reflexivity |]. rewrite Hz.
    split; [by apply capacity_block |]. split; [lia |]. intros _.
    split; [done |]. rewrite heap_without_fresh by done.
    pose proof (length_elements h v Hwf) as Hl. rewrite Hz in Hl.
    rewrite Z.sub_diag. simpl. rewrite app_nil_r.
    destruct (elements h v); [done | simpl in Hl; lia].
  - exists v, h. split; [done |]. split; [lia |]. split; [done | lia].
Qed.

(** C4, as the code has it: in every reachable state a container without
    buffer has capacity and length [0], and a container of capacity [0] has
    no buffer or holds an array without slots.  The buffer is absent after
    default construction; construction with count [0] returns holding a
    fresh array without slots; and [shrink_to_fit()] on an empty reachable
    container whose array is intact leaves capacity [0]: nothing changes
    when the capacity was [0] already, otherwise the container moves to a
    fresh array without slots. *)
Theorem capacity_zero_buffer (h : heap) v :
  reachable h v ->
  (first v = nullptr -> capacity v = 0 /\ size v = 0) /\
  (capacity v = 0 ->
     first v = nullptr \/ exists b, first v = Ptr b 0 /\ h !! b = Some []) /\
  first vector_default = nullptr /\
  (forall value,
     vector_fill 0 value h
     = Ok (Vector (Ptr (fresh (dom h)) 0) (Ptr (fresh (dom h)) 0)
             (Ptr (fresh (dom h)) 0))
          (<[fresh (dom h) := []]> h)) /\
  (size v = 0 -> intact h v ->
     exists v' h',
       shrink_to_fit v h = Ok v' h' /\ capacity v' = 0 /\
       (capacity v = 0 -> v' = v /\ h' = h) /\
       (capacity v <> 0 ->
          first v' = Ptr (fresh (dom h)) 0 /\
          h' !! fresh (dom h) = Some [])).
Proof.
  intros Hreach. apply reachable_wf in Hreach as Hwf.
  destruct (wf_capacity_zero h v Hwf) as [Hnull Hzero].
  split; [done |]. split; [done |]. split; [done |]. split.
  - intros value. pose proof max_array_len_range.
    by rewrite vector_fill_Ok by lia.
  - by apply shrink_to_fit_empty.
Qed.

End Invariant.

(** * Intact arrays and sequences of calls *)

Section Calls.

Context {T : Type} `{ET : Element T}.

Abbreviation heap := (gmap block (list (option T))).

(** ** Calls that keep the array intact *)

Lemma intact_same (h : heap) v v' :
  intact h v -> first v' = first v -> intact h v'.
Proof. intros Hi Hf b off arr Hfirst. apply (Hi b off). congruence. Qed.

Lemma intact_null (h : heap) : intact h (Vector nullptr nullptr nullptr).
Proof. by intros b off arr. Qed.

(** Two states of one owned array: the other arrays are the same. *)
Lemma owns_same_frame (h0 h h' : heap) v v' :
  owns h0 h v -> owns h0 h' v' -> first v' = first v ->
  forall b, (forall off, first v <> Ptr b off) -> h' !! b = h !! b.
Proof.
  intros [_ Hown] [_ Hown'] Hf b Hb. rewrite Hf in Hown'.
  destruct (first v) as [|bv off]; [congruence |].
  destruct Hown as [_ Hdel], Hown' as [_ Hdel'].
  assert (Hne : bv <> b) by (intros ->; by apply (Hb off)).
  rewrite <- (lookup_delete_ne h bv b), <- (lookup_delete_ne h' bv b) by done.
  congruence.
Qed.

Lemma push_back_intact (h0 h : heap) v value v' h' :
  owns h0 h v -> intact h v ->
  push_back value v h = Ok v' h' -> intact h' v'.
Proof.
  intros Hown Hi Hrun. unfold push_back in Hrun.
  apply bind_Ok_inv in Hrun as (v1 & h1 & Hgrow & Hrun).
  apply bind_Ok_inv in Hrun as (x & h2 & Hread & Hrun).
  apply bind_Ok_inv in Hrun as ([] & h3 & Hstore & Hret).
  unfold ret in Hret. injection Hret as <- <-.
  apply read_heap in Hread as ->.
  destruct (grow_step h0 h v v1 h1 Hown Hgrow)
    as (Hown1 & Hlt & _ & _ & _ & Hkeep).
  destruct (write_last h0 h1 v1 x Hown1 Hlt)
    as (b & xs & s & spare & Hf & Hb & _ & _ & _ & _ & Hi' & _ & Hsome & _).
  destruct v1 as [f1 l1 e1]. simpl in Hf. subst f1.
  destruct (intact_spare h1 b _ _ xs s spare Hb (Hkeep Hi)) as [Hs Hsp].
  rewrite (Hsome Hs) in Hstore. injection Hstore as <-. by apply Hi'.
Qed.

Lemma emplace_back_intact (h0 h : heap) v value v' h' :
  owns h0 h v -> intact h v ->
  emplace_back value v h = Ok v' h' -> intact h' v'.
Proof.
  intros Hown Hi Hrun.
  rewrite (emplace_back_push_back h0) in Hrun by done.
  by eapply push_back_intact.
Qed.

Lemma reserve_intact (h0 h : heap) v new_cap v' h' :
  owns h0 h v -> intact h v ->
  reserve new_cap v h = Ok v' h' -> intact h' v'.
Proof.
  intros Hown Hi Hrun. pose proof (owns_wf _ _ _ Hown) as Hwf.
  pose proof (wf_bounds h v Hwf) as [Hb _].
  unfold reserve in Hrun. destruct (decide (capacity v < new_cap)).
  - destruct (reallocate_Ok_inv h v new_cap v' h' Hwf ltac:(lia) Hrun) as [_ Hle].
    destruct (reallocate_owns_spec h0 h v new_cap Hown Hi ltac:(lia) Hle)
      as (v1 & h1 & Hrun1 & _ & Hi1 & _).
    rewrite Hrun1 in Hrun. by injection Hrun as <- <-.
  - unfold ret in Hrun. by injection Hrun as <- <-.
Qed.

Lemma shrink_to_fit_intact (h0 h : heap) v v' h' :
  owns h0 h v -> intact h v ->
  shrink_to_fit v h = Ok v' h' -> intact h' v'.
Proof.
  intros Hown Hi Hrun. pose proof (owns_wf _ _ _ Hown) as Hwf.
  pose proof (wf_bounds h v Hwf) as [Hb Hc].
  unfold shrink_to_fit in Hrun. destruct (decide (size v < capacity v)).
  - destruct (reallocate_owns_spec h0 h v (size v) Hown Hi ltac:(lia) ltac:(lia))
      as (v1 & h1 & Hrun1 & _ & Hi1 & _).
    rewrite Hrun1 in Hrun. by injection Hrun as <- <-.
  - unfold ret in Hrun. by injection Hrun as <- <-.
Qed.

(** With a trivial destructor, [pop_back], [clear] and [resize] keep an
    intact array intact. *)
Lemma pop_back_intact (h0 h : heap) v v' h' :
  T_trivial_dtor = true -> owns h0 h v -> intact h v ->
  pop_back v h = Ok v' h' -> intact h' v'.
Proof.
  intros Htriv Hown Hi Hrun.
  destruct (decide (size v = 0)) as [Hz | Hnz].
  - by rewrite pop_back_empty in Hrun.
  - destruct (pop_back_nonempty h0 h v Hown Hnz)
      as (v1 & x & h1 & Hrun1 & _ & _ & _ & _ & Hf & _ & Hsame & _).
    rewrite Hrun1 in Hrun. injection Hrun as <- <-.
    rewrite (Hsame Htriv). by eapply intact_same.
Qed.

Lemma clear_intact (h0 h : heap) v v' h' :
  T_trivial_dtor = true -> owns h0 h v -> intact h v ->
  clear v h = Ok v' h' -> intact h' v'.
Proof.
  intros Htriv Hown Hi Hrun.
  destruct (clear_spec h0 h v Hown) as (v1 & h1 & Hrun1 & _ & _ & _ & Hf & Hsame & _).
  rewrite Hrun1 in Hrun. injection Hrun as <- <-.
  rewrite (Hsame Htriv). by eapply intact_same.
Qed.

Lemma resize_intact (h0 h : heap) v new_size value v' h' :
  T_trivial_dtor = true -> owns h0 h v -> intact h v ->
  resize new_size value v h = Ok v' h' -> intact h' v'.
Proof.
  intros Htriv Hown Hi Hrun. unfold resize in Hrun.
  set (I := fun (h : heap) v => owns h0 h v /\ intact h v).
  destruct (decide (new_size < size v)).
  - eapply (while_loop_inv I) in Hrun as [[_ Hr] _]; [exact Hr | | by split].
    intros h1 v1 v2 h2 [Hown1 Hi1] _ Hpop.
    split; [by eapply pop_back_owns | by eapply pop_back_intact].
  - destruct (decide (size v < new_size)).
    + apply bind_Ok_inv in Hrun as (v1 & h1 & Hres & Hrun).
      eapply (while_loop_inv I) in Hrun as [[_ Hr] _]; [exact Hr | |].
      * intros h2 v2 v3 h3 [Hown2 Hi2] _ Hpush.
        split; [by eapply push_back_owns | by eapply push_back_intact].
      * split; [by eapply reserve_owns | by eapply reserve_intact].
    + unfold ret in Hrun. by injection Hrun as <- <-.
Qed.

(** For a trivially destructible element type every reachable container
    has an intact array. *)
Lemma reachable_intact (h : heap) v :
  T_trivial_dtor = true -> reachable h v -> intact h v.
Proof.
  pose proof max_array_len_lt_modulus as Hm.
  intros Htriv.
  induction 1 as
    [ h
    | h count value v h' Hc Hrun
    | h init v h' Hc Hrun
    | h other v h' Hreach IH Hrun
    | h other v other' h' Hreach IH Hrun
    | h other v other' h' Hreach IH Hrun
    | h v value v' h' Hreach IH Hrun
    | h v v' h' Hreach IH Hrun
    | h v v' h' Hreach IH Hrun
    | h v new_size value v' h' Hreach IH Hc Hrun
    | h v new_cap v' h' Hreach IH Hc Hrun
    | h v v' h' Hreach IH Hrun
    | h start end_ xs v h' Hrange Hmax Hrun
    | h same_object v other v' h' Hreach IHv Hreacho IHo Hrun
    | h v other v' other' h' Hreach IHv Hreacho IHo Hown Hrun
    | h v other v' other' h' Hreach IHv Hreacho IHo Hrun
    | h v value v' h' Hreach IH Hrun
    | h v other v' other' Hreach IHv Hreacho IHo Hswap
    | h v h' Hreach IH Hsame ];
    try (pose proof (owns_intro h v (reachable_wf h v Hreach)) as Hown0).
  - apply intact_null.
  - destruct (decide (count <= max_array_len)).
    + rewrite vector_fill_Ok in Hrun by lia. simplify_eq.
      intros b off arr [= <- <-]. rewrite lookup_insert_eq. intros [= <-].
      apply Forall_replicate. by eexists.
    + by rewrite vector_fill_BadAlloc in Hrun by lia.
  - destruct (decide (Z.of_nat (length init) <= max_array_len)).
    + rewrite vector_init_Ok in Hrun by lia. simplify_eq.
      intros b off arr [= <- <-]. rewrite lookup_insert_eq. intros [= <-].
      apply Forall_live.
    + unfold vector_init, bind in Hrun.
      rewrite wrap_small in Hrun by lia.
      by rewrite vector_fill_BadAlloc in Hrun by lia.
  - destruct (vector_copy_post h other (reachable_wf _ _ Hreach))
      as (v1 & h1 & Hc & _ & Hi1 & _).
    rewrite Hc in Hrun. by injection Hrun as <- <-.
  - unfold vector_move, ret in Hrun. simplify_eq. by destruct other.
  - unfold vector_move, ret in Hrun. simplify_eq. apply intact_null.
  - by eapply push_back_intact.
  - by eapply pop_back_intact.
  - by eapply clear_intact.
  - by eapply resize_intact.
  - by eapply reserve_intact.
  - by eapply shrink_to_fit_intact.
  - destruct (decide (Z.of_nat (length xs) <= max_array_len)) as [Hle | Hgt].
    + rewrite (vector_range_Ok h start end_ xs) in Hrun by done. simplify_eq.
      intros b off arr [= <- <-]. rewrite lookup_insert_eq. intros [= <-].
      apply Forall_live.
    + unfold vector_range, bind in Hrun.
      rewrite (range_length h start end_ xs Hrange) in Hrun.
      rewrite wrap_small in Hrun
        by (unfold PTRDIFF_MAX, size_type_modulus in *; lia).
      by rewrite new_array_BadAlloc in Hrun by lia.
  - destruct same_object.
    + unfold copy_assign, ret in Hrun. by simplify_eq.
    + destruct (copy_assign_owns _ h v other Hown0 IHv
                  (reachable_wf _ _ Hreacho))
        as (v1 & h1 & Hrun1 & _ & Hi1 & _).
      rewrite Hrun1 in Hrun. by injection Hrun as <- <-.
  - pose proof (reachable_wf _ _ Hreach) as Hv.
    pose proof (reachable_wf _ _ Hreacho) as Ho.
    unfold move_assign, bind, delete_array in Hrun.
    destruct Hv as [|b xs spare Hb Hlen]; simpl in Hrun.
    + unfold ret in Hrun. simplify_eq. by destruct other.
    + rewrite Hb in Hrun.
      destruct (decide (Forall is_Some ((Some <$> xs) ++ spare)))
        as [Hall | Hnot]; [| done].
      unfold ret in Hrun. simplify_eq.
      destruct Hown as [Hnull | Hne]; [done |]. simpl in Hne.
      replace (Vector (first other) (last other) (end_ptr other)) with other
        by (by destruct other).
      destruct (wf_frame h (delete b h) other Ho) as (_ & _ & Hkeep);
        [| by apply Hkeep].
      intros b0 off Hfirst.
      rewrite lookup_delete_ne; [done |]. intros <-.
      destruct other as [f l e]. simpl in *. subst f.
      apply wf_block_inv in Ho as (xs0 & spare0 & _ & -> & _). done.
  - unfold move_assign, bind in Hrun.
    destruct (delete_array (first v) h); [| done ..].
    unfold ret in Hrun. simplify_eq. apply intact_null.
  - by eapply emplace_back_intact.
  - unfold swap in Hswap. by simplify_eq.
  - destruct (wf_frame h h' v (reachable_wf _ _ Hreach) Hsame) as (_ & _ & Hkeep).
    by apply Hkeep.
Qed.

(** ** Sequences of calls *)

(** Whenever a call returns, the container owns one array as before. *)
Lemma run_call_owns (h0 h : heap) v c v' h' :
  owns h0 h v -> call_ok h0 c ->
  run_call c v h = Ok v' h' -> owns h0 h' v'.
Proof.
  intros Hown Hok Hrun.
  destruct c as [value | value | | | new_size value | new_cap | | other];
    cbn [run_call call_ok] in *.
  - by eapply push_back_owns.
  - by eapply emplace_back_owns.
  - by eapply pop_back_owns.
  - by eapply clear_owns.
  - by eapply resize_owns.
  - by eapply reserve_owns.
  - by eapply shrink_to_fit_owns.
  - destruct (owns_frame h0 h v other Hown Hok) as [Ho _].
    by eapply (copy_assign_owns_inv h0 h v other).
Qed.

Lemma run_calls_owns (h0 : heap) cs :
  Forall (call_ok h0) cs ->
  forall h v v' h',
    owns h0 h v -> run_calls cs v h = Ok v' h' -> owns h0 h' v'.
Proof.
  induction 1 as [|c cs Hc _ IH]; intros h v v' h' Hown Hrun.
  - unfold run_calls, ret in Hrun. by simplify_eq.
  - cbn [run_calls] in Hrun.
    apply bind_Ok_inv in Hrun as (v1 & h1 & Hcall & Hrun).
    eapply IH; [| exact Hrun]. by eapply run_call_owns.
Qed.



Lemma wf_heap_without (h : heap) v other :
  wf h v -> wf h other ->
  first other = nullptr \/ first other <> first v ->
  wf (heap_without h v) other /\
  elements (heap_without h v) other = elements h other /\
  (intact h other -> intact (heap_without h v) other).
Proof.
  intros Hv Ho Hdistinct.
  apply wf_frame; [done |]. intros b off Hfirst. unfold heap_without.
  destruct (first v) as [|bv offv] eqn:Hfv; [done |].
  apply lookup_delete_ne. intros <-.
  destruct Hdistinct as [Hnull | Hne]; [congruence |].
  apply Hne. rewrite Hfirst.
  destruct v as [fv lv ev]. simpl in Hfv. subst fv.
  apply wf_block_inv in Hv as (_ & _ & _ & -> & _).
  destruct other as [fo lo eo]. simpl in Hfirst. subst fo.
  apply wf_block_inv in Ho as (_ & _ & _ & -> & _). done.
Qed.

End Calls.

(** * Further properties of the code *)

Section Further.

Context {T : Type} `{ET : Element T}.

Abbreviation heap := (gmap block (list (option T))).

(** ** Sequences of calls *)


(** X22: calls on one container never change another: when [other] is a
    sound container of the same heap with its own array (or none), then
    after any sequence of calls on [v] that returns, [other] is sound, has
    the elements it had, and still does not share its array with [v]. *)
Theorem calls_leave_others (h : heap) v other cs v' h' :
  wf h v -> wf h other ->
  first other = nullptr \/ first other <> first v ->
  Forall (call_ok (heap_without h v)) cs ->
  run_calls cs v h = Ok v' h' ->
  wf h' other /\ elements h' other = elements h other /\
  (first other = nullptr \/ first other <> first v').
Proof.
  intros Hv Ho Hdistinct Hcs Hrun.
  pose proof (owns_intro h v Hv) as Hown.
  destruct (wf_heap_without h v other Hv Ho Hdistinct) as (Ho0 & He0 & _).
  pose proof (run_calls_owns _ cs Hcs h v v' h' Hown Hrun) as Hown'.
  destruct (owns_frame _ h' v' other Hown' Ho0) as (Hwf' & He' & Hd').
  split; [done |]. split; [congruence | done].
Qed.

(** ** Construction *)

(** X1: [vector(count, value)] for a [count] of [size_type] returns
    holding one fresh array and leaves every other array alone; its
    length and its capacity are [count] and every element is [value].  It
    throws from [new] exactly when [count] is more than an array can
    hold. *)
Theorem vector_fill_spec (h : heap) count value :
  0 <= count < size_type_modulus ->
  (count <= max_array_len ->
     exists v h',
       vector_fill count value h = Ok v h' /\ owns h h' v /\
       size v = count /\ capacity v = count /\
       elements h' v = replicate (Z.to_nat count) value) /\
  (max_array_len < count -> vector_fill count value h = BadAlloc).
Proof.
  intros Hc. split; [| by apply vector_fill_BadAlloc].
  intros Hmax. eexists _, _. split; [apply vector_fill_Ok; lia |].
  rewrite <- fmap_replicate.
  destruct (owns_fresh_full h (replicate (Z.to_nat count) value) count)
    as [Hown He]; [by rewrite length_replicate; lia | done |].
  split; [done |].
  split; [apply size_block; lia |]. split; [apply capacity_block; lia | done].
Qed.

(** X2: the initializer-list constructor returns holding one fresh array
    and leaves every other array alone; its length and its capacity are
    the length of the list and its elements are the list, in order.  It
    throws from [new] exactly when the list is longer than an array can
    be. *)
Theorem vector_init_spec (h : heap) init :
  Z.of_nat (length init) < size_type_modulus ->
  (Z.of_nat (length init) <= max_array_len ->
     exists v h',
       vector_init init h = Ok v h' /\ owns h h' v /\
       size v = Z.of_nat (length init) /\
       capacity v = Z.of_nat (length init) /\
       elements h' v = init) /\
  (max_array_len < Z.of_nat (length init) -> vector_init init h = BadAlloc).
Proof.
  pose proof max_array_len_lt_modulus as Hm.
  intros Hc. split.
  - intros Hmax. eexists _, _. split; [by apply vector_init_Ok |].
    destruct (owns_fresh_full h init (Z.of_nat (length init)))
      as [Hown He]; [done | done |].
    split; [done |].
    split; [apply size_block; lia |]. split; [apply capacity_block; lia | done].
  - intros Hmax. unfold vector_init, bind.
    rewrite wrap_small by lia. by rewrite vector_fill_BadAlloc.
Qed.

(** X3: [vector(start, end)] over a readable range returns holding one
    fresh array and leaves every other array alone, so the range reads as
    before; its length and its capacity are [end - start] and its
    elements are those of the range, in order.  It throws from [new]
    exactly when the range is longer than an array of [T] can be. *)
Theorem vector_range_spec (h : heap) start end_ xs :
  range h start end_ xs -> Z.of_nat (length xs) <= PTRDIFF_MAX ->
  (Z.of_nat (length xs) <= max_array_len ->
     exists v h',
       vector_range start end_ h = Ok v h' /\ owns h h' v /\
       size v = ptr_diff end_ start /\ capacity v = ptr_diff end_ start /\
       elements h' v = xs /\ range h' start end_ xs) /\
  (max_array_len < Z.of_nat (length xs) ->
     vector_range start end_ h = BadAlloc).
Proof.
  pose proof max_array_len_lt_modulus as Hm.
  intros Hrange Hlen. rewrite (range_length h start end_ xs Hrange). split.
  - intros Hmax. eexists _, _.
    split; [by apply (vector_range_Ok h start end_ xs) |].
    destruct (owns_fresh_full h xs (Z.of_nat (length xs)))
      as [Hown He]; [done | done |].
    split; [done |].
    split; [apply size_block; lia |]. split; [apply capacity_block; lia |].
    split; [done |].
    apply (range_frame h); [done |]. intros b off ->.
    apply lookup_insert_ne. intros <-.
    inversion Hrange as [|b' arr i n xs' Hb Hi Hn Hxs]; subst.
    by rewrite fresh_block_None in Hb.
  - intros Hmax. unfold vector_range, bind.
    rewrite (range_length h start end_ xs Hrange).
    rewrite wrap_small
      by (unfold PTRDIFF_MAX, size_type_modulus in *; lia).
    by rewrite new_array_BadAlloc.
Qed.

(** ** Access *)

(** X4: on a sound container [front()] and [back()] end the process with
    their own report when the container is empty; otherwise they return
    the first and the last element, leave the heap as it is, and agree
    with [at(0)] and [at(size() - 1)]. *)
Theorem front_back_spec (h : heap) v :
  wf h v ->
  (size v = 0 ->
     front v h = Exit EmptyFront /\ back v h = Exit EmptyBack /\
     EmptyContainerAccess EmptyFront = true /\
     EmptyContainerAccess EmptyBack = true) /\
  (size v <> 0 ->
     exists x y,
       front v h = Ok x h /\ back v h = Ok y h /\
       elements h v !! 0%nat = Some x /\
       elements h v !! Z.to_nat (size v - 1) = Some y /\
       at_ 0 v h = Ok x h /\ at_ (size v - 1) v h = Ok y h).
Proof.
  pose proof max_array_len_lt_modulus as Hm.
  intros Hwf. pose proof (wf_bounds h v Hwf) as [Hb _].
  unfold front, back, empty. split.
  - intros Hz. by rewrite !bool_decide_eq_true_2.
  - intros Hnz. rewrite !bool_decide_eq_false_2 by done.
    destruct (subscript_Ok h v 0 Hwf) as (x & Hx & Hsx); [lia |].
    destruct (subscript_Ok h v (size v - 1) Hwf) as (y & Hy & Hsy); [lia |].
    exists x, y. unfold at_. rewrite !decide_False by lia.
    unfold subscript in Hsx, Hsy.
    destruct Hwf as [|b xs spare Hbk Hlen]; [done |].
    rewrite size_block in * by lia. simpl in *.
    rewrite Z.add_0_l in *.
    replace (Z.of_nat (length xs) + -1) with (Z.of_nat (length xs) - 1) by lia.
    done.
Qed.

(** X5: [operator[]] checks nothing.  On a sound container and below
    the length it returns the element at [index], as [at(index)] does,
    and leaves the heap as it is; from the length on, where [at(index)]
    ends the process, it never does; and from the capacity on it reads
    outside the array, which is undefined behaviour. *)
Theorem subscript_unchecked (h : heap) v index :
  wf h v -> 0 <= index ->
  (index < size v ->
     exists x,
       elements h v !! Z.to_nat index = Some x /\
       subscript index v h = Ok x h /\ at_ index v h = Ok x h) /\
  (size v <= index ->
     (exists f, at_ index v h = Exit f) /\
     forall f, subscript index v h <> Exit f) /\
  (capacity v <= index -> subscript index v h = Undefined).
Proof.
  pose proof max_array_len_lt_modulus as Hm.
  intros Hwf Hi. split; [| split].
  - intros Hlt.
    destruct (subscript_Ok h v index Hwf) as (x & Hx & Hsub); [lia |].
    exists x. split; [done |]. split; [done |].
    unfold at_. by rewrite decide_False by lia.
  - intros Hge. split.
    + unfold at_. rewrite decide_True by done. by eexists.
    + intros f. unfold subscript, load.
      destruct (ptr_add (first v) index) as [|b off]; [done |].
      destruct (h !! b) as [arr |]; [| done].
      destruct (decide (0 <= off)); [| done].
      by destruct (arr !! Z.to_nat off) as [[x |] |].
  - intros Hge. destruct Hwf as [|b xs spare Hb Hlen]; [done |].
    rewrite capacity_block in Hge by lia.
    unfold subscript, load. simpl. rewrite Hb, decide_True by lia.
    rewrite Z.add_0_l. rewrite lookup_ge_None_2; [done |].
    rewrite length_app, length_fmap. lia.
Qed.

(** ** Capacity and length *)

(** X6: [clear()] on a sound container returns; the container is empty
    and keeps its array and its capacity: nothing is released, and no
    other array changes.  Every element is destroyed where it is: for an
    element type with a destructor the slots of the old elements hold no
    objects afterwards, so the array is not intact when there were
    elements; for a trivially destructible one the heap is as it was. *)
Theorem clear_keeps_capacity (h : heap) v :
  wf h v ->
  exists v' h',
    clear v h = Ok v' h' /\ wf h' v' /\
    size v' = 0 /\ elements h' v' = [] /\
    capacity v' = capacity v /\ first v' = first v /\
    (forall b off arr,
       first v = Ptr b off -> h !! b = Some arr ->
       h' !! b
       = Some (if T_trivial_dtor then arr
               else replicate (Z.to_nat (size v)) None
                    ++ drop (Z.to_nat (size v)) arr)) /\
    (forall b, (forall off, first v <> Ptr b off) -> h' !! b = h !! b) /\
    (T_trivial_dtor = true -> h' = h) /\
    (T_trivial_dtor = false -> size v <> 0 -> ~ intact h' v').
Proof.
  intros Hwf. pose proof (wf_bounds h v Hwf) as [Hb _].
  destruct (clear_spec _ h v (owns_intro h v Hwf))
    as (v' & h' & Hrun & Hown & Hs & Hc & Hf & Htriv & Harr & Hframe).
  pose proof (owns_wf _ _ _ Hown) as Hwf'.
  exists v', h'. split; [done |]. split; [done |]. split; [done |].
  split.
  { pose proof (length_elements h' v' Hwf') as Hl. rewrite Hs in Hl.
    destruct (elements h' v'); [done | simpl in Hl; lia]. }
  repeat (split; [done |]).
  intros Hdtor Hnz Hi.
  destruct v as [[|b off] l e]; [by inversion Hwf; subst |].
  pose proof Hwf as Hwf0.
  apply wf_block_inv in Hwf0 as (xs & spare & Hbk & _).
  specialize (Harr b off _ eq_refl Hbk). rewrite Hdtor in Harr.
  destruct v' as [f' l' e']. simpl in Hf. subst f'.
  specialize (Hi b off _ eq_refl Harr).
  destruct (Z.to_nat (size (Vector (Ptr b off) l e))) as [|k] eqn:Hk; [lia |].
  simpl in Hi. apply Forall_cons in Hi as [[y Hy] _]. done.
Qed.

(** X7: [resize(new_size, value)] on a sound container, for a
    [new_size] of [size_type].  Down to a length not above the current
    one, it destroys the elements from [new_size] on, keeps the first
    [new_size], the array and the capacity; the heap is as it was when
    the destructor is trivial.  Up, on an intact array and for an argument
    that is not an element of the container, it appends copies of the
    value up to length [new_size], and the capacity becomes [new_size]
    exactly when it was less: the growth is by [reserve(new_size)], not by
    doubling.  It throws from [new] when [new_size] is more than an array
    can hold.  When it has to reallocate and the argument is an element of
    the container, the argument is read from the released array:
    undefined behaviour. *)
Theorem resize_cases (h : heap) v new_size value :
  wf h v -> 0 <= new_size < size_type_modulus ->
  (new_size <= size v ->
     exists v' h',
       resize new_size value v h = Ok v' h' /\ wf h' v' /\
       size v' = new_size /\ capacity v' = capacity v /\
       elements h' v' = take (Z.to_nat new_size) (elements h v) /\
       first v' = first v /\
       (T_trivial_dtor = true -> h' = h)) /\
  (size v < new_size -> new_size <= max_array_len -> intact h v ->
   forall x, outside h v value x ->
     exists v' h',
       resize new_size value v h = Ok v' h' /\ wf h' v' /\
       intact h' v' /\ size v' = new_size /\
       capacity v' = Z.max (capacity v) new_size /\
       elements h' v'
       = elements h v ++ replicate (Z.to_nat (new_size - size v)) x) /\
  (max_array_len < new_size -> resize new_size value v h = BadAlloc) /\
  (capacity v < new_size -> new_size <= max_array_len -> intact h v ->
   forall b off off',
     first v = Ptr b off' -> value = Ref (Ptr b off) ->
     resize new_size value v h = Undefined).
Proof.
  intros Hwf Hn.
  destruct (resize_spec _ h v new_size value (owns_intro h v Hwf))
    as (Hdown & Hup & Hbad); [lia |].
  split; [| split; [| split; [done |]]].
  - intros Hle.
    destruct (Hdown Hle) as (v' & h' & Hrun & Hown & Hs & Hc & He & Hf & Ht & _).
    exists v', h'. split; [done |]. split; [by eapply owns_wf | done].
  - intros Hlt Hmax Hi x Hout.
    destruct (Hup Hlt Hmax Hi x Hout) as (v' & h' & Hrun & Hown & Hrest).
    exists v', h'. split; [done |]. split; [by eapply owns_wf | done].
  - intros Hlt Hmax Hi b off off' Hfirst ->.
    by eapply resize_alias.
Qed.

(** X8: [resize(m, x)] down followed by [resize(n, y)] up, on a sound
    container with [m <= size()] and [m <= n].  For a trivially
    destructible element type, an intact array and an argument [y] that
    is not an element of the container: the first [m] elements are the
    old ones, the elements from [m] to [n] are [y], and the capacity is
    the old one, or [n] when that is more.  For an element type with a
    destructor, when the first call removes an element and the second
    adds one, the second call is undefined behaviour: it assigns to a
    destroyed slot, or destroys it again when it reallocates. *)
Theorem resize_down_then_up (h : heap) v m n value_x value_y :
  wf h v -> 0 <= m <= size v -> m <= n <= max_array_len ->
  (T_trivial_dtor = true -> intact h v ->
   forall y, outside h v value_y y ->
     exists v' h',
       (v1 <~ resize m value_x v ;; resize n value_y v1) h = Ok v' h' /\
       wf h' v' /\ size v' = n /\
       capacity v' = Z.max (capacity v) n /\
       elements h' v'
       = take (Z.to_nat m) (elements h v) ++ replicate (Z.to_nat (n - m)) y) /\
  (T_trivial_dtor = false -> m < size v -> m < n ->
   (v1 <~ resize m value_x v ;; resize n value_y v1) h = Undefined).
Proof.
  intros Hwf Hm Hn. pose proof (wf_bounds h v Hwf) as [Hb Hcap].
  pose proof (owns_intro h v Hwf) as Hown.
  destruct (resize_spec _ h v m value_x Hown) as (Hdown & _); [lia |].
  destruct (Hdown ltac:(lia))
    as (v1 & h1 & Hrun1 & Hown1 & Hs1 & Hc1 & He1 & Hf1 & Ht1 & Hd1).
  split.
  - intros Htriv Hi y Hout. rewrite (Ht1 Htriv) in *.
    erewrite bind_Ok; [| exact Hrun1].
    pose proof (intact_same h v v1 Hi Hf1) as Hi1.
    destruct (resize_spec _ h v1 n value_y Hown1) as (Hsame & Hup & _); [lia |].
    destruct (decide (m = n)) as [<- | Hne].
    + destruct (Hsame ltac:(lia))
        as (v' & h' & Hrun & Hown' & Hs' & Hc' & He' & _).
      exists v', h'. split; [done |]. split; [by eapply owns_wf |].
      split; [done |]. split; [lia |].
      rewrite He', He1, Z.sub_diag. simpl. rewrite app_nil_r.
      rewrite take_take. f_equal. lia.
    + destruct (Hup ltac:(lia) ltac:(lia) Hi1 y Hout)
        as (v' & h' & Hrun & Hown' & _ & Hs' & Hc' & He').
      exists v', h'. split; [done |]. split; [by eapply owns_wf |].
      split; [done |]. split; [lia |]. by rewrite He', He1, Hs1.
  - intros Hdtor Hlt Hmn. erewrite bind_Ok; [| exact Hrun1].
    destruct (Hd1 Hdtor Hlt) as [Hi1 Hdead].
    pose proof (owns_wf _ _ _ Hown1) as Hwf1.
    unfold resize. rewrite decide_False, decide_True by lia.
    destruct (decide (capacity v1 < n)) as [Hres | Hres].
    + unfold bind. rewrite reserve_Undefined by (done || lia). done.
    + rewrite (bind_Ok _ _ h1 v1 h1) by (apply reserve_keep; lia).
      destruct (Z.to_nat (n - size v1)) as [|k] eqn:Hk; [lia |].
      cbn [while_loop]. rewrite bool_decide_eq_true_2 by lia.
      unfold bind. rewrite push_back_dead; [done | done | lia | done].
Qed.

(** X9: [shrink_to_fit()] on a sound container whose array is intact
    returns with the capacity equal to the length and the same elements,
    and a second call changes nothing.  When a slot of the array has lost
    its object (so there are slots to give back), the reallocation
    destroys it again: undefined behaviour. *)
Theorem shrink_to_fit_spec (h : heap) v :
  wf h v ->
  (intact h v ->
   exists v' h',
     shrink_to_fit v h = Ok v' h' /\ wf h' v' /\ intact h' v' /\
     size v' = size v /\ capacity v' = size v /\
     elements h' v' = elements h v /\
     shrink_to_fit v' h' = Ok v' h') /\
  (~ intact h v -> shrink_to_fit v h = Undefined).
Proof.
  intros Hwf. pose proof (wf_bounds h v Hwf) as [Hb Hc]. split.
  - intros Hi. unfold shrink_to_fit at 1.
    destruct (decide (size v < capacity v)) as [Hlt | Hge].
    + destruct (reallocate_spec h v (size v) Hwf Hi)
        as (v' & h' & Hrun & Hwf' & Hi' & Hs' & Hc' & He' & _); [lia | lia |].
      exists v', h'. repeat (split; [done |]).
      unfold shrink_to_fit. by rewrite decide_False by lia.
    + exists v, h. split; [done |]. split; [done |]. split; [done |].
      split; [done |]. split; [lia |]. split; [done |].
      unfold shrink_to_fit. by rewrite decide_False.
  - intros Hi. unfold shrink_to_fit.
    destruct (decide (size v < capacity v)) as [Hlt | Hge].
    + apply reallocate_Undefined; [done | done | lia | lia].
    + exfalso. apply Hi. apply wf_full_intact; [done | lia].
Qed.

(** X24: [reserve(new_cap)] on a sound container, for a [new_cap] of
    [size_type].  With [new_cap > capacity()] and an intact array it
    moves the container to an array of exactly [new_cap] slots with the
    same length and the same elements in the same order; it throws from
    [new] exactly when [new_cap] is more than an array can hold; and when
    a slot of the array has lost its object, [delete[]] destroys it a
    second time: undefined behaviour.  With [new_cap <= capacity()] it
    changes nothing. *)
Theorem reserve_spec (h : heap) v new_cap :
  wf h v -> 0 <= new_cap < size_type_modulus ->
  (capacity v < new_cap -> new_cap <= max_array_len -> intact h v ->
     exists v' h',
       reserve new_cap v h = Ok v' h' /\ wf h' v' /\ intact h' v' /\
       capacity v' = new_cap /\ size v' = size v /\
       elements h' v' = elements h v) /\
  (capacity v < new_cap -> new_cap <= max_array_len -> ~ intact h v ->
     reserve new_cap v h = Undefined) /\
  (capacity v < new_cap -> max_array_len < new_cap ->
     reserve new_cap v h = BadAlloc) /\
  (new_cap <= capacity v -> reserve new_cap v h = Ok v h).
Proof.
  intros Hwf Hn. split; [| split; [| split]].
  - intros Hlt Hmax Hi.
    destruct (reserve_grow _ h v new_cap (owns_intro h v Hwf) Hi Hlt Hmax)
      as (v' & h' & Hrun & Hown & Hrest).
    exists v', h'. split; [done |]. split; [by eapply owns_wf | done].
  - intros Hlt Hmax Hi. by apply reserve_Undefined.
  - by apply reserve_BadAlloc.
  - by apply reserve_keep.
Qed.

(** ** Appending *)

(** X23: any number of [push_back] calls on a default-constructed
    container, with arguments that read in the heap (temporaries, or
    elements of other containers), either returns or fails in [new] (only
    when twice the number of elements is more than an array can hold);
    when it returns, the container owns one array beside the heap as it
    was, the length is the number of calls, the elements are the pushed
    values in call order, the capacity is on the doubling series
    [0, 1, 2, 4, 8, ...] (zero, or the least power of two that holds the
    elements) and so at least the length; and one more append leaves the
    capacity that the doubling rule gives: [max(1, 2 * capacity)] when it
    found the container full, the old capacity otherwise. *)
Theorem push_back_sequence (h : heap) (values : list cref) (xs : list T)
    (value : cref) (x : T) :
  Forall2 (fun value x => read value h = Ok x h) values xs ->
  read value h = Ok x h ->
  let k := Z.of_nat (length values) in
  match push_back_all values vector_default h with
  | Ok v h' =>
      owns h h' v /\
      size v = k /\ elements h' v = xs /\
      k <= capacity v /\ doubled k (capacity v) /\
      match push_back value v h' with
      | Ok v' _ => capacity v' = capacity_after_push v
      | BadAlloc =>
          size v = capacity v /\ max_array_len < Z.max 1 (capacity v * 2)
      | _ => False
      end
  | BadAlloc => max_array_len < 2 * k
  | _ => False
  end.
Proof.
  intros Hreads Hread k.
  pose proof (Forall2_length _ _ _ Hreads) as Hlen.
  assert (Hd0 : doubled (size vector_default) (capacity vector_default))
    by (by left).
  assert (Hown0 : owns h h vector_default) by (split; [constructor | done]).
  pose proof (push_back_all_spec h values xs Hreads h vector_default Hown0
                (intact_null h) Hd0) as Hall.
  change (size vector_default) with 0 in Hall. rewrite Z.add_0_l in Hall.
  destruct (push_back_all values vector_default h) as [v h' | | | |];
    try done; [| unfold k; lia].
  destruct Hall as (Hown & Hi & He & Hs & Hd).
  pose proof (wf_bounds h' v (owns_wf _ _ _ Hown)) as [Hb Hcap].
  rewrite Hs in Hd. unfold k. rewrite Hlen.
  split; [done |]. split; [done |]. split; [done |]. split; [lia |].
  split; [done |].
  pose proof (push_back_owns_spec h h' v value x Hown Hi Hread) as Hp.
  destruct (decide (capacity_after_push v <= max_array_len)) as [Hle | Hgt].
  - destruct Hp as (v1 & h1 & -> & _ & _ & _ & _ & Hc1 & _). exact Hc1.
  - rewrite Hp. unfold capacity_after_push in Hgt.
    destruct (decide (size v = capacity v)); [by split; [| lia] | lia].
Qed.

(** X10: appends into spare capacity never reallocate.  On a sound
    container with an intact array and room for all the arguments, none
    of them an element of the container, pushing them one after the other
    returns with the array where it was (so pointers and iterators into
    it stay good), the same capacity, the values after the old elements,
    and every other array of the heap as it was. *)
Theorem push_back_within_capacity (h : heap) v (values : list cref)
    (xs : list T) :
  wf h v -> intact h v -> Forall2 (outside h v) values xs ->
  size v + Z.of_nat (length xs) <= capacity v ->
  exists v' h',
    push_back_all values v h = Ok v' h' /\ wf h' v' /\ intact h' v' /\
    first v' = first v /\ capacity v' = capacity v /\
    size v' = size v + Z.of_nat (length xs) /\
    elements h' v' = elements h v ++ xs /\
    (forall b, (forall off, first v <> Ptr b off) -> h' !! b = h !! b).
Proof.
  intros Hwf Hi Hout Hroom. pose proof (owns_intro h v Hwf) as Hown.
  destruct (push_back_all_in_place _ values xs Hout h v Hown Hi Hroom)
    as (v' & h' & Hrun & Hown' & Hi' & Hf & Hc & Hs & He).
  exists v', h'. split; [done |]. split; [by eapply owns_wf |].
  repeat (split; [done |]). by eapply owns_same_frame.
Qed.

(** X11: [push_back(value)] and [emplace_back(value)] on a sound
    container.  On an intact array and for an argument that is not an
    element of the container they do the same: unless the array that the
    doubling rule asks for cannot be allocated, they return with the value
    after the old elements, which keep their places, and then [back()]
    and [at(old size)] return it; otherwise they throw from [new].  On a
    full container and for an argument that is an element of it, the
    argument is read from the array that [grow()] has released: undefined
    behaviour. *)
Theorem append_spec (h : heap) v value :
  wf h v ->
  (intact h v -> forall x, outside h v value x ->
   capacity_after_push v <= max_array_len ->
     exists v' h',
       push_back value v h = Ok v' h' /\
       emplace_back value v h = Ok v' h' /\
       wf h' v' /\ elements h' v' = elements h v ++ [x] /\
       size v' = size v + 1 /\ capacity v' = capacity_after_push v /\
       back v' h' = Ok x h' /\ at_ (size v) v' h' = Ok x h') /\
  (max_array_len < capacity_after_push v ->
     push_back value v h = BadAlloc /\ emplace_back value v h = BadAlloc) /\
  (size v = capacity v -> capacity_after_push v <= max_array_len ->
   forall b off off',
     first v = Ptr b off' -> value = Ref (Ptr b off) ->
     push_back value v h = Undefined /\ emplace_back value v h = Undefined).
Proof.
  pose proof max_array_len_lt_modulus as Hm.
  intros Hwf. pose proof (wf_bounds h v Hwf) as [Hb _].
  pose proof (length_elements h v Hwf) as Hl.
  pose proof (owns_intro h v Hwf) as Hown.
  split; [| split].
  - intros Hi x Hout Hle.
    pose proof (push_back_owns_spec _ h v value x Hown Hi Hout) as Hs.
    rewrite decide_True in Hs by done.
    destruct Hs as (v' & h' & Hrun & Hown' & Hi' & He' & Hs' & Hc' & _).
    pose proof (owns_wf _ _ _ Hown') as Hwf'.
    exists v', h'. split; [done |].
    split; [by rewrite (emplace_back_push_back _ h v value Hown Hi) |].
    repeat (split; [done |]).
    assert (Hat : at_ (size v) v' h' = Ok x h').
    { destruct (subscript_Ok h' v' (size v) Hwf') as (x' & Hx & Hsub); [lia |].
      rewrite He' in Hx. rewrite lookup_app_r in Hx by lia.
      replace (Z.to_nat (size v) - length (elements h v))%nat with 0%nat in Hx
        by lia.
      injection Hx as <-. unfold at_. by rewrite decide_False by lia. }
    split; [| done].
    unfold back, empty. rewrite bool_decide_eq_false_2 by lia.
    unfold at_ in Hat. rewrite decide_False in Hat by lia.
    destruct Hwf' as [|b xs spare Hbk Hlen]; [done |].
    rewrite size_block in Hs' by lia. simpl in *.
    rewrite Z.add_0_l in Hat.
    by replace (Z.of_nat (length xs) + -1) with (size v) by lia.
  - intros Hgt. unfold capacity_after_push in Hgt.
    pose proof (wf_bounds h v Hwf) as [_ Hcap].
    destruct (decide (size v = capacity v)) as [Hfull | Hroom]; [| lia].
    unfold push_back, emplace_back.
    rewrite !(decide_True (P := last v = end_ptr v))
      by (by apply (wf_full_iff h v Hwf)).
    unfold grow. rewrite (grow_capacity h v Hwf).
    unfold bind. by rewrite reallocate_BadAlloc by lia.
  - intros Hfull Hle b off off' Hfirst ->. by eapply append_alias.
Qed.

(** X12: [push_back(value)] followed by [pop_back()], on a sound
    container with an intact array and for an argument that is not an
    element of the container, gives back the elements and the length the
    container had; the capacity is the one the append left, so a doubling
    is not undone.  The other way round, for an element type with a
    destructor: [pop_back()] followed by [push_back(value)] assigns to
    the slot whose object [pop_back] has destroyed, which is undefined
    behaviour. *)
Theorem push_back_pop_back (h : heap) v value :
  wf h v ->
  (intact h v -> forall x, outside h v value x ->
   capacity_after_push v <= max_array_len ->
     exists v' h',
       (v1 <~ push_back value v ;; pop_back v1) h = Ok v' h' /\
       wf h' v' /\ elements h' v' = elements h v /\
       size v' = size v /\ capacity v' = capacity_after_push v) /\
  (T_trivial_dtor = false -> size v <> 0 ->
   (v1 <~ pop_back v ;; push_back value v1) h = Undefined).
Proof.
  intros Hwf. pose proof (wf_bounds h v Hwf) as [Hb _].
  pose proof (owns_intro h v Hwf) as Hown. split.
  - intros Hi x Hout Hle.
    pose proof (push_back_owns_spec _ h v value x Hown Hi Hout) as Hs.
    rewrite decide_True in Hs by done.
    destruct Hs as (v1 & h1 & Hrun & Hown1 & Hi1 & He1 & Hs1 & Hc1 & _).
    erewrite bind_Ok; [| exact Hrun].
    destruct (pop_back_nonempty _ h1 v1 Hown1)
      as (v' & y & h' & Hpop & Hown' & Hs' & Hc' & He' & _); [lia |].
    exists v', h'. split; [done |]. split; [by eapply owns_wf |].
    split; [| split; [lia | congruence]].
    rewrite He1 in He'. by apply app_inj_tail in He' as [-> _].
  - intros Hdtor Hnz.
    destruct (pop_back_nonempty _ h v Hown Hnz)
      as (v1 & y & h1 & Hpop & Hown1 & Hs1 & Hc1 & _ & _ & _ & _ & Hdead).
    erewrite bind_Ok; [| exact Hpop].
    destruct (Hdead Hdtor) as [_ Hstore].
    apply push_back_dead; [by eapply owns_wf | lia | done].
Qed.

(** ** Assignment *)

(** X13: copy assignment [*this = other] between two sound containers
    that do not share an array.  When the array of [*this] is intact it
    returns; [*this] then sits in a fresh array with the length, the
    elements and the capacity of [other] (whatever its own capacity
    was), its old array is released, [other] is as it was and no other
    array has changed.  When a slot of the array of [*this] has lost its
    object, the destructor of the temporary destroys it a second time:
    undefined behaviour.  A self-assignment returns at once and changes
    nothing. *)
Theorem copy_assign_spec (h : heap) v other :
  wf h v -> wf h other ->
  first other = nullptr \/ first other <> first v ->
  (intact h v ->
   exists v' h',
     copy_assign false v other h = Ok v' h' /\
     owns (heap_without h v) h' v' /\ intact h' v' /\
     size v' = size other /\ capacity v' = capacity other /\
     elements h' v' = elements h other /\
     wf h' other /\ elements h' other = elements h other) /\
  (~ intact h v -> copy_assign false v other h = Undefined) /\
  copy_assign true v v h = Ok v h.
Proof.
  intros Hv Ho Hdistinct.
  split; [| split; [intros Hi; by apply copy_assign_Undefined | done]].
  intros Hi. pose proof (owns_intro h v Hv) as Hown.
  destruct (wf_heap_without h v other Hv Ho Hdistinct) as (Ho0 & He0 & _).
  destruct (copy_assign_owns _ h v other Hown Hi Ho)
    as (v' & h' & Hrun & Hown' & Hi' & Hs & Hc & He).
  destruct (owns_frame _ h' v' other Hown' Ho0) as (Hwf' & He' & _).
  exists v', h'. repeat (split; [done |]). congruence.
Qed.

(** X14: move assignment [*this = std::move(other)] between two sound
    containers that do not share an array.  When the array of [*this] is
    intact it returns; [*this] takes the three pointers of [other], so
    its array with its elements, length and capacity; [other] is left
    with three null pointers; the old array of [*this] is released and no
    other array changes.  When a slot of the array of [*this] has lost
    its object, [delete[]] destroys it a second time: undefined
    behaviour.  A self-assignment returns at once and changes nothing. *)
Theorem move_assign_spec (h : heap) v other :
  wf h v -> wf h other ->
  first other = nullptr \/ first other <> first v ->
  (intact h v ->
   move_assign false v other h
   = Ok (other, Vector nullptr nullptr nullptr) (heap_without h v) /\
   owns (heap_without (heap_without h v) other) (heap_without h v) other /\
   elements (heap_without h v) other = elements h other /\
   (forall b off, first v = Ptr b off -> heap_without h v !! b = None)) /\
  (~ intact h v -> move_assign false v other h = Undefined) /\
  move_assign true v v h = Ok (v, v) h.
Proof.
  intros Hv Ho Hdistinct.
  destruct (wf_heap_without h v other Hv Ho Hdistinct) as (Ho0 & He0 & _).
  split; [| split; [| done]].
  - intros Hi.
    split; [| split; [by apply owns_intro | split; [done |]]].
    + pose proof (vector_destroy_owns _ h v (owns_intro h v Hv) Hi) as Hdel.
      unfold vector_destroy in Hdel. unfold move_assign, bind.
      rewrite Hdel. unfold ret. by destruct other.
    + intros b off Hfirst. unfold heap_without. rewrite Hfirst.
      apply lookup_delete_eq.
  - intros Hi. pose proof (vector_destroy_Undefined h v Hv Hi) as Hdel.
    unfold vector_destroy in Hdel. unfold move_assign, bind.
    by rewrite Hdel.
Qed.

(** ** The invariant of the representation *)

(** X15: in every reachable state the three pointers are all null, or
    point to the start of one live array, to a position in it and to its
    end: the length is at most the capacity, the capacity is the number
    of slots of the array and at most what an array can hold, and the
    first [size()] slots hold the elements.  For a trivially destructible
    element type every slot of the array holds an object. *)
Theorem reachable_invariant (h : heap) v :
  reachable h v ->
  0 <= size v <= capacity v /\ capacity v <= max_array_len /\
  Z.of_nat (length (elements h v)) = size v /\
  (v = Vector nullptr nullptr nullptr \/
   exists b arr,
     v = Vector (Ptr b 0) (Ptr b (size v)) (Ptr b (capacity v)) /\
     h !! b = Some arr /\ Z.of_nat (length arr) = capacity v /\
     take (Z.to_nat (size v)) arr = Some <$> elements h v) /\
  (T_trivial_dtor = true -> intact h v).
Proof.
  intros Hreach. apply reachable_wf in Hreach as Hwf.
  pose proof (wf_bounds h v Hwf) as [Hb Hc].
  split; [done |]. split; [done |].
  split; [by apply length_elements |].
  split; [| intros Htriv; by apply reachable_intact].
  destruct v as [[|b off] l e].
  - left. by inversion Hwf.
  - right.
    apply wf_block_inv in Hwf as (xs & spare & Harr & -> & Hl & He & Hs & Hcap & Hel).
    exists b, ((Some <$> xs) ++ spare). rewrite Hs, Hcap, Hel.
    split; [congruence |]. split; [done |].
    split; [rewrite length_app, length_fmap; lia |].
    rewrite Nat2Z.id. apply take_slots.
Qed.

(** ** The stream operators *)

Lemma string_app_assoc (s t u : string) : (s +:+ t) +:+ u = s +:+ (t +:+ u).
Proof.
  induction s as [|c s IH]; [done |].
  change (String c ((s +:+ t) +:+ u) = String c (s +:+ (t +:+ u))).
  by rewrite IH.
Qed.

Lemma string_app_nil_r (s : string) : s +:+ EmptyString = s.
Proof.
  induction s as [|c s IH]; [done |].
  change (String c (s +:+ EmptyString) = String c s). by rewrite IH.
Qed.

Lemma out_loop_spec `{Printable T} (h : heap) v (m : nat) :
  wf h v ->
  forall k os,
    0 <= k -> k + Z.of_nat m = size v ->
    out_loop m k v os h
    = Ok (os +:+ String.concat " "
                   (T_show <$> drop (Z.to_nat k) (elements h v))) h.
Proof.
  pose proof max_array_len_lt_modulus as Hm.
  intros Hwf. pose proof (length_elements h v Hwf) as Hl.
  pose proof (wf_bounds h v Hwf) as [Hb Hcap].
  induction m as [|m IH]; intros k os Hk Hkm.
  - simpl. unfold ret. rewrite drop_ge by lia. simpl.
    by rewrite string_app_nil_r.
  - destruct (subscript_Ok h v k Hwf) as (x & Hx & Hsub); [lia |].
    cbn [out_loop]. erewrite bind_Ok; [| exact Hsub].
    rewrite (drop_S _ _ _ Hx). rewrite wrap_small by lia.
    replace (S (Z.to_nat k)) with (Z.to_nat (k + 1)) by lia.
    rewrite IH by lia.
    destruct (decide (k + 1 <> size v)) as [Hne | Heq].
    + destruct (drop (Z.to_nat (k + 1)) (elements h v)) as [|y rest] eqn:Hd.
      { apply (f_equal length) in Hd. rewrite length_drop in Hd.
        simpl in Hd. lia. }
      cbn [fmap list_fmap String.concat].
      by rewrite !string_app_assoc.
    + apply dec_stable in Heq.
      rewrite drop_ge by lia. simpl. by rewrite string_app_nil_r.
Qed.

(** X16: [os << vec] on a sound container appends to the stream the
    texts of the elements in order, with one space between neighbours and
    none at either end, and then one line feed; an empty container writes
    the line feed alone.  It reads the heap only. *)
Theorem operator_out_spec `{Printable T} (h : heap) v os :
  wf h v ->
  operator_out os v h
  = Ok (os +:+ String.concat " " (T_show <$> elements h v)
           +:+ String "010"%char EmptyString) h.
Proof.
  intros Hwf. pose proof (wf_bounds h v Hwf) as [Hb _].
  unfold operator_out.
  erewrite bind_Ok; [| apply (out_loop_spec h v _ Hwf); lia].
  unfold ret. simpl. by rewrite string_app_assoc.
Qed.

Lemma get_all_length {IS : Type} `{Readable IS T} (xs : list T) :
  forall is_ : IS, length (get_all is_ xs).2 = length xs.
Proof.
  induction xs as [|x rest IH]; intros is_; [done |].
  simpl. destruct (T_get is_ x) as [is1 x'].
  specialize (IH is1). destruct (get_all is1 rest) as [is2 rest'].
  simpl in *. by rewrite IH.
Qed.

Lemma in_loop_unfold {IS : Type} `{Readable IS T} n p last_ (is_ : IS) :
  in_loop n p last_ is_
  = if bool_decide (p <> last_) then
      match n with
      | O => fun _ => Diverge
      | S n' =>
          x <~ load p ;;
          let '(is', x') := T_get is_ x in
          store p x' ;;;
          in_loop n' (ptr_add p 1) last_ is'
      end
    else ret is_.
Proof. by destruct n. Qed.

(** The loop of [operator>>] over the elements [xs] that follow the
    elements [pre] in the array [b]. *)
Lemma in_loop_spec {IS : Type} `{Readable IS T} (b : block)
    (rest : list (option T)) (xs : list T) :
  forall (pre : list T) (m : nat) (i n : Z) (is_ : IS) (h : heap),
    h !! b = Some ((Some <$> pre) ++ (Some <$> xs) ++ rest) ->
    i = Z.of_nat (length pre) -> n = Z.of_nat (length pre + length xs) ->
    (length xs <= m)%nat ->
    in_loop m (Ptr b i) (Ptr b n) is_ h
    = Ok (get_all is_ xs).1
         (<[b := (Some <$> pre) ++ (Some <$> (get_all is_ xs).2) ++ rest]> h).
Proof.
  induction xs as [|x xs IH]; intros pre m i n is_ h Hb -> -> Hm;
    rewrite in_loop_unfold.
  - rewrite Nat.add_0_r.
    rewrite bool_decide_eq_false_2 by (intros Hne; by apply Hne).
    simpl. unfold ret. by rewrite insert_id.
  - simpl length in *.
    rewrite bool_decide_eq_true_2 by (intros [= Heq]; lia).
    destruct m as [|m]; [lia |].
    assert (Hload : load (Ptr b (Z.of_nat (length pre))) h = Ok x h).
    { unfold load. rewrite Hb, decide_True by lia. rewrite Nat2Z.id.
      rewrite lookup_app_r by (by rewrite length_fmap).
      by rewrite length_fmap, Nat.sub_diag. }
    erewrite bind_Ok; [| exact Hload].
    cbn [get_all]. destruct (T_get is_ x) as [is1 x'].
    assert (Hstore :
      store (Ptr b (Z.of_nat (length pre))) x' h
      = Ok tt (<[b := (Some <$> pre ++ [x']) ++ (Some <$> xs) ++ rest]> h)).
    { unfold store. rewrite Hb, decide_True by lia. rewrite Nat2Z.id.
      rewrite lookup_app_r by (by rewrite length_fmap).
      rewrite length_fmap, Nat.sub_diag. simpl.
      by rewrite insert_slots, slots_snoc. }
    erewrite bind_Ok; [| exact Hstore].
    simpl ptr_add.
    rewrite (IH (pre ++ [x']) m _ _ is1 _ (lookup_insert_eq _ _ _)).
    + rewrite insert_insert_eq.
      destruct (get_all is1 xs) as [is2 rest']. simpl.
      by rewrite slots_snoc.
    + rewrite length_app. simpl. lia.
    + rewrite length_app. simpl. lia.
    + lia.
Qed.

(** X17: [is >> vec] on a sound container reads into the elements in
    order, first to last, each read starting from the stream the one
    before left; it touches no slot past the length and no other array,
    and the length and the capacity stay: the container is not grown to
    take more input.  An empty container leaves the stream and the heap
    as they are. *)
Theorem operator_in_spec {IS : Type} `{Readable IS T} (h : heap) v
    (is_ : IS) :
  wf h v ->
  exists h',
    operator_in is_ v h = Ok (get_all is_ (elements h v)).1 h' /\
    owns (heap_without h v) h' v /\
    elements h' v = (get_all is_ (elements h v)).2 /\
    (forall b off arr,
       first v = Ptr b off -> h !! b = Some arr ->
       exists arr',
         h' !! b = Some arr' /\
         drop (Z.to_nat (size v)) arr' = drop (Z.to_nat (size v)) arr) /\
    (size v = 0 -> (get_all is_ (elements h v)).1 = is_ /\ h' = h).
Proof.
  pose proof max_array_len_lt_modulus as Hm.
  intros Hwf. pose proof (owns_intro h v Hwf) as Hown.
  destruct Hwf as [|b xs spare Hb Hlen].
  - exists h. split; [reflexivity |]. split; [exact Hown |].
    split; [done |]. by split.
  - unfold operator_in. rewrite size_block by lia. simpl first. simpl last.
    rewrite (elements_block h b xs spare) by (done || lia).
    rewrite (in_loop_spec b spare xs [] (Z.to_nat (Z.of_nat (length xs))) 0
               (Z.of_nat (length xs)) is_ h) by (done || simpl; lia).
    pose proof (get_all_length xs is_) as Hlen'.
    set (r := get_all is_ xs) in *. simpl app.
    assert (Hnew : <[b := (Some <$> r.2) ++ spare]> h !! b
                   = Some ((Some <$> r.2) ++ spare))
      by apply lookup_insert_eq.
    eexists. split; [reflexivity |]. split; [| split; [| split]].
    + eapply owns_update; [exact Hown | | done].
      eapply wf_intro; [exact Hnew | lia | lia | lia].
    + rewrite <- Hlen'. apply (elements_block _ _ _ spare); [done | lia].
    + intros b0 off arr0 [= <- <-] Harr0. rewrite Hb in Harr0.
      injection Harr0 as <-. eexists. split; [exact Hnew |].
      rewrite Nat2Z.id. rewrite <- Hlen' at 1. by rewrite !drop_slots.
    + intros Hz. destruct xs; [| simpl in Hz; lia]. unfold r. simpl.
      split; [done |]. by rewrite insert_id.
Qed.

(** ** Order and equality of containers *)

Lemma lex_lt_irrefl (xs : list T) :
  (forall x, T_lt x x = false) -> ~ lex_lt xs xs.
Proof.
  intros Hirr. induction xs as [|x xs IH]; intros Hlt;
    inversion Hlt; subst; [| by apply IH].
  by rewrite Hirr in *.
Qed.

Lemma lex_lt_trans (xs ys zs : list T) :
  (forall x y z, T_lt x y = true -> T_lt y z = true -> T_lt x z = true) ->
  (forall x y z, T_lt x y = true -> T_lt x z = true \/ T_lt z y = true) ->
  lex_lt xs ys -> lex_lt ys zs -> lex_lt xs zs.
Proof.
  intros Htrans Hweak Hxy. revert zs.
  induction Hxy as [y ys | x xs y ys Hlt | x xs y ys Hnlt Hngt _ IH];
    intros zs Hyz; inversion Hyz as [| ? ? z zs' Hyz' | ? ? z zs' Hnyz Hnzy Hrest];
    subst.
  - constructor.
  - constructor.
  - apply lex_lt_head. by eapply Htrans.
  - apply lex_lt_head. destruct (Hweak x y z Hlt) as [H1 | H1]; [done | congruence].
  - apply lex_lt_head. destruct (Hweak y z x Hyz') as [H1 | H1]; [congruence | done].
  - apply lex_lt_tail; [| | by apply IH].
    + destruct (T_lt x z) eqn:Hxz; [| done].
      destruct (Hweak x z y Hxz) as [H1 | H1]; congruence.
    + destruct (T_lt z x) eqn:Hzx; [| done].
      destruct (Hweak z x y Hzx) as [H1 | H1]; congruence.
Qed.

(** X18: when [<] of the element type is a strict weak order
    (irreflexive, transitive, and with [x < y] every [z] is above [x] or
    below [y]), [<] of sound containers is a strict order: [a < a] is
    false, [a < b] excludes [b < a], and [a < b] with [b < c] gives
    [a < c]. *)
Theorem operator_lt_strict_order (h : heap) a b c :
  (forall x, T_lt x x = false) ->
  (forall x y z, T_lt x y = true -> T_lt y z = true -> T_lt x z = true) ->
  (forall x y z, T_lt x y = true -> T_lt x z = true \/ T_lt z y = true) ->
  wf h a -> wf h b -> wf h c ->
  operator_lt a a h = Ok false h /\
  (operator_lt a b h = Ok true h -> operator_lt b a h = Ok false h) /\
  (operator_lt a b h = Ok true h -> operator_lt b c h = Ok true h ->
   operator_lt a c h = Ok true h).
Proof.
  intros Hirr Htrans Hweak Ha Hb Hc.
  destruct (operator_lt_spec h a a Ha Ha) as (raa & Haa & Iaa).
  destruct (operator_lt_spec h a b Ha Hb) as (rab & Hab & Iab).
  destruct (operator_lt_spec h b a Hb Ha) as (rba & Hba & Iba).
  destruct (operator_lt_spec h b c Hb Hc) as (rbc & Hbc & Ibc).
  destruct (operator_lt_spec h a c Ha Hc) as (rac & Hac & Iac).
  rewrite Haa, Hab, Hba, Hbc, Hac. split; [| split].
  - f_equal. destruct raa; [| done].
    exfalso. by apply (lex_lt_irrefl (elements h a) Hirr), Iaa.
  - intros [= ->]. f_equal. destruct rba; [| done].
    exfalso. apply (lex_lt_irrefl (elements h a) Hirr).
    apply (lex_lt_trans _ (elements h b)); [done | done | by apply Iab | by apply Iba].
  - intros [= ->] [= ->]. f_equal. apply Iac.
    apply (lex_lt_trans _ (elements h b)); [done | done | by apply Iab | by apply Ibc].
Qed.

(** X19: when [==] of the element type is an equivalence, [==] of sound
    containers is one: [a == a] is true, [a == b] gives [b == a], and
    [a == b] with [b == c] gives [a == c]. *)
Theorem operator_eq_equivalence (h : heap) a b c :
  (forall x, T_eq x x = true) ->
  (forall x y, T_eq x y = true -> T_eq y x = true) ->
  (forall x y z, T_eq x y = true -> T_eq y z = true -> T_eq x z = true) ->
  wf h a -> wf h b -> wf h c ->
  operator_eq a a h = Ok true h /\
  (operator_eq a b h = Ok true h -> operator_eq b a h = Ok true h) /\
  (operator_eq a b h = Ok true h -> operator_eq b c h = Ok true h ->
   operator_eq a c h = Ok true h).
Proof.
  intros Hrefl Hsym Htrans Ha Hb Hc.
  destruct (operator_eq_spec h a a Ha Ha) as (raa & Haa & Iaa).
  destruct (operator_eq_spec h a b Ha Hb) as (rab & Hab & Iab).
  destruct (operator_eq_spec h b a Hb Ha) as (rba & Hba & Iba).
  destruct (operator_eq_spec h b c Hb Hc) as (rbc & Hbc & Ibc).
  destruct (operator_eq_spec h a c Ha Hc) as (rac & Hac & Iac).
  rewrite Haa, Hab, Hba, Hbc, Hac. split; [| split].
  - f_equal. apply Iaa. split; [done |].
    intros i x y Hx Hy. simplify_eq. apply Hrefl.
  - intros [= ->]. f_equal. apply Iba.
    destruct Iab as [[Hlen Hall] _]; [done |]. split; [done |].
    intros i x y Hx Hy. apply Hsym. by apply (Hall i).
  - intros [= ->] [= ->]. f_equal. apply Iac.
    destruct Iab as [[Hlen1 Hall1] _]; [done |].
    destruct Ibc as [[Hlen2 Hall2] _]; [done |].
    split; [congruence |]. intros i x z Hx Hz.
    destruct (lookup_lt_is_Some_2 (elements h b) i) as [y Hy].
    { rewrite <- Hlen1. by eapply lookup_lt_Some. }
    apply (Htrans x y z); [by apply (Hall1 i) | by apply (Hall2 i)].
Qed.

(** X20: when elements that are [==] are never [<] one another, equal
    sound containers are not ordered: [a == b] gives that [a < b] and
    [b < a] are false, and that [a <= b] and [a >= b] are true. *)
Theorem equal_not_less (h : heap) a b :
  (forall x y, T_eq x y = true -> T_lt x y = false /\ T_lt y x = false) ->
  wf h a -> wf h b ->
  operator_eq a b h = Ok true h ->
  operator_lt a b h = Ok false h /\ operator_lt b a h = Ok false h /\
  operator_le a b h = Ok true h /\ operator_ge a b h = Ok true h.
Proof.
  intros Hcompat Ha Hb Heq.
  destruct (operator_eq_spec h a b Ha Hb) as (r & Hr & Iab).
  rewrite Hr in Heq. injection Heq as ->.
  destruct Iab as [[Hlen Hall] _]; [done |].
  assert (Hno : forall xs ys : list T,
    length xs = length ys ->
    (forall i x y, xs !! i = Some x -> ys !! i = Some y -> T_eq x y = true) ->
    ~ lex_lt xs ys /\ ~ lex_lt ys xs).
  { clear -Hcompat. intros xs.
    induction xs as [|x xs IH]; intros [|y ys] Hlen Hall;
      try done.
    - split; intros Hlt; inversion Hlt.
    - destruct (Hcompat x y (Hall 0%nat x y eq_refl eq_refl)) as [Hxy Hyx].
      destruct (IH ys) as [IH1 IH2].
      + simpl in Hlen. lia.
      + intros i x' y'. apply (Hall (S i)).
      + split; intros Hlt; inversion Hlt; subst; congruence || done. }
  destruct (Hno _ _ Hlen Hall) as [Hab Hba].
  destruct (operator_lt_spec h a b Ha Hb) as (rab & Hlab & Ilab).
  destruct (operator_lt_spec h b a Hb Ha) as (rba & Hlba & Ilba).
  assert (rab = false) as -> by (destruct rab; [exfalso; by apply Hab, Ilab | done]).
  assert (rba = false) as -> by (destruct rba; [exfalso; by apply Hba, Ilba | done]).
  unfold operator_le, operator_ge, bind. by rewrite Hlab, Hlba.
Qed.

End Further.

(** * The definitions at work *)

Example sample_built :
  (a <~ vector_init [1; 2] ;;
   b <~ vector_init [1; 2] ;;
   b <~ push_back (Temp 3) b ;;
   ret (a, b)) ∅
  = Ok (sample_a, sample_b) sample_heap.
Proof. vm_compute. reflexivity. Qed.

Example sample_zero_built :
  vector_fill 0 7 ∅ = Ok sample_zero sample_zero_heap.
Proof. vm_compute. reflexivity. Qed.

Example sample_spare_built :
  (c <~ vector_init [1] ;; reserve 3 c) ∅
  = Ok sample_spare sample_spare_heap.
Proof. vm_compute. reflexivity. Qed.

Example sample_strings_built :
  vector_init ["a"; "b"] ∅ = Ok sample_strings sample_strings_heap.
Proof. vm_compute. reflexivity. Qed.

Example sample_popped_built :
  pop_back sample_strings sample_strings_heap
  = Ok sample_popped sample_popped_heap.
Proof. vm_compute. reflexivity. Qed.

(** The first example of the specification: [{1, 2, 3}], then
    [push_back(4)], then [pop_back()] twice. *)
Example spec_example_init :
  (v <~ vector_init [1; 2; 3] ;;
   x0 <~ at_ 0 v ;; x2 <~ at_ 2 v ;;
   ret (size v, x0, x2)) ∅
  = Ok (3, 1, 3) {[ 1%positive := [Some 1; Some 2; Some 3] ]}.
Proof. vm_compute. reflexivity. Qed.

Example spec_example_push_pop :
  (v <~ vector_init [1; 2; 3] ;;
   v <~ push_back (Temp 4) v ;;
   let after_push := (size v, capacity v) in
   v <~ pop_back v ;; v <~ pop_back v ;;
   fun h => Ok (after_push, size v, elements h v) h) ∅
  = Ok ((4, 6), 2, [1; 2])
       {[ 2%positive := [Some 1; Some 2; Some 3; Some 4; Some 0; Some 0] ]}.
Proof. vm_compute. reflexivity. Qed.

Example spec_example_at_5 :
  (v <~ vector_init [1; 2; 3] ;;
   v <~ push_back (Temp 4) v ;;
   v <~ pop_back v ;; v <~ pop_back v ;;
   at_ 5 v) ∅
  = Exit (IndexOutOfRange 5).
Proof. vm_compute. reflexivity. Qed.

(** The second example of the specification. *)
Example spec_example_compare :
  (a <~ vector_init [1; 2] ;;
   b <~ vector_init [1; 2] ;;
   r1 <~ operator_eq a b ;;
   b <~ push_back (Temp 3) b ;;
   r2 <~ operator_eq a b ;;
   r3 <~ operator_lt a b ;;
   ret (r1, r2, r3)) ∅
  = Ok (true, false, true) sample_heap.
Proof. vm_compute. reflexivity. Qed.

(** Five appends to an empty container: capacities [1, 2, 4, 4, 8]. *)
Example push_back_five :
  (v <~ push_back_all [Temp 10; Temp 20; Temp 30; Temp 40; Temp 50]
          vector_default ;;
   fun h => Ok (size v, capacity v, elements h v) h) ∅
  = Ok (5, 8, [10; 20; 30; 40; 50])
       {[ 4%positive := [Some 10; Some 20; Some 30; Some 40; Some 50;
                         Some 0; Some 0; Some 0] ]}.
Proof. vm_compute. reflexivity. Qed.

(** [resize] down and up again, on [int]. *)
Example resize_down_up :
  (v <~ vector_init [1; 2; 3] ;;
   v <~ resize 5 (Temp 9) v ;; v <~ resize 2 (Temp 9) v ;;
   v <~ resize 4 (Temp 8) v ;;
   fun h => Ok (size v, capacity v, elements h v) h) ∅
  = Ok (4, 5, [1; 2; 8; 8])
       {[ 2%positive := [Some 1; Some 2; Some 8; Some 8; Some 9] ]}.
Proof. vm_compute. reflexivity. Qed.

(** An append that does not grow may take an element of the container
    itself: [vector<int> v{7}; v.reserve(2); v.push_back(v[0]);]. *)
Example push_back_own_element_in_place :
  (v <~ vector_init [7] ;; v <~ reserve 2 v ;;
   v <~ push_back (Ref (ptr_add (first v) 0)) v ;;
   fun h => Ok (size v, capacity v, elements h v) h) ∅
  = Ok (2, 2, [7; 7]) {[ 2%positive := [Some 7; Some 7] ]}.
Proof. vm_compute. reflexivity. Qed.

(** On [std::string], [pop_back()] then [push_back]: the assignment goes
    to a destroyed slot. *)
Example pop_back_push_back_string :
  (v <~ vector_init ["a"; "b"] ;; v <~ pop_back v ;;
   push_back (Temp "c") v) (∅ : gmap block (list (option string)))
  = Undefined.
Proof. vm_compute. reflexivity. Qed.

(** On [std::string], [emplace_back] after [pop_back()] constructs a
    new object in the destroyed slot. *)
Example pop_back_emplace_back_string :
  (v <~ vector_init ["a"; "b"] ;; v <~ pop_back v ;;
   v <~ emplace_back (Temp "c") v ;;
   fun h => Ok (size v, elements h v) h) ∅
  = Ok (2, ["a"; "c"]) {[ 1%positive := [Some "a"; Some "c"] ]}.
Proof. vm_compute. reflexivity. Qed.

(** * Where the code departs from the specification *)

(** C1 fails on the code at
    [vector<int> v; v.push_back(1); v.push_back(v[0]);].  The claim gives
    length 2 and the elements [1, 1].  The second call finds the
    container full; [grow()] moves the element to a new array and
    releases the old one, of which the argument [v[0]] is a slot; then
    [*last++ = value] reads the argument: undefined behaviour. *)
Theorem push_back_own_element :
  (v <~ push_back (Temp 1) vector_default ;;
   push_back (Ref (ptr_add (first v) 0)) v)
    (∅ : gmap block (list (option Z)))
  = Undefined.
Proof. vm_compute. reflexivity. Qed.

(** C6 fails on the code at
    [vector<std::string> v; v.push_back("a"); v.pop_back();
    v.reserve(10);].  The claim gives capacity 10 and no element.
    [pop_back()] has run the destructor of the object in slot 0;
    [reserve(10)] reallocates, and [delete[] first] runs the destructor
    on every slot of the old array, on slot 0 for the second time:
    undefined behaviour. *)
Theorem reserve_after_pop_back :
  (v <~ push_back (Temp "a") vector_default ;;
   v <~ pop_back v ;;
   reserve 10 v)
    (∅ : gmap block (list (option string)))
  = Undefined.
Proof. vm_compute. reflexivity. Qed.

(** The same calls on [vector<int>] return. *)
Example reserve_after_pop_back_int :
  (v <~ push_back (Temp 1) vector_default ;;
   v <~ pop_back v ;;
   v <~ reserve 10 v ;;
   ret (size v, capacity v)) (∅ : gmap block (list (option Z)))
  = Ok (0, 10) {[ 2%positive := replicate 10 (Some 0) ]}.
Proof. vm_compute. reflexivity. Qed.

(** The invariant of a container given by block, elements and spare
    slots. *)
Ltac sample_wf b xs spare :=
  apply (wf_block _ b xs spare); [reflexivity | by vm_compute].

(** Every slot of the array of a sample holds an object. *)
Ltac sample_intact :=
  let Harr := fresh "Harr" in
  intros ? ? ? [= <- <-] Harr; vm_compute in Harr;
  injection Harr as <-; repeat constructor; by eexists.

(** C2 as the specification states it fails: a copy of
    [vector<double>{NaN}] has the length, the capacity and the element of
    the source and does not compare equal to it, because [NaN == NaN] is
    false. *)
Lemma vector_copy_nan :
  (v <~ vector_init [nan] ;;
   w <~ vector_copy v ;;
   r <~ operator_eq w v ;;
   ret (size w, capacity w, r)) (∅ : gmap block (list (option float)))
  = Ok (1, 1, false)
       {[ 1%positive := [Some nan]; 2%positive := [Some nan] ]} /\
  ~ (forall (h : gmap block (list (option float))) other,
       wf h other ->
       exists v h',
         vector_copy other h = Ok v h' /\
         operator_eq v other h' = Ok true h').
Proof.
  split; [vm_compute; reflexivity |]. intros Hclaim.
  destruct (Hclaim {[ 1%positive := [Some nan] ]}
              (Vector (Ptr 1%positive 0) (Ptr 1%positive 1) (Ptr 1%positive 1)))
    as (v & h' & Hcopy & Heq).
  { apply (wf_block _ 1%positive [nan] []); [reflexivity | by vm_compute]. }
  vm_compute in Hcopy. injection Hcopy as <- <-.
  vm_compute in Heq. discriminate Heq.
Qed.

(** C4 as the specification states it fails: [vector<int> z(0, 7)] is
    reachable, has capacity [0], and holds the array [new int[0]] returned;
    and so does an empty container of capacity [1] after
    [shrink_to_fit()]. *)
Lemma capacity_zero_buffer_held :
  reachable sample_zero_heap sample_zero /\
  capacity sample_zero = 0 /\
  first sample_zero = Ptr 1%positive 0 /\
  sample_zero_heap !! 1%positive = Some [] /\
  (v <~ reserve 1 vector_default ;; shrink_to_fit v)
    (∅ : gmap block (list (option Z)))
  = Ok (Vector (Ptr 2%positive 0) (Ptr 2%positive 0) (Ptr 2%positive 0))
       {[ 2%positive := [] ]} /\
  ~ (forall (h : gmap block (list (option Z))) v,
       reachable h v -> capacity v = 0 -> first v = nullptr).
Proof.
  assert (Hreach : reachable sample_zero_heap sample_zero).
  { apply (reach_fill ∅ 0 7); [by vm_compute | by vm_compute]. }
  split; [exact Hreach |]. split; [reflexivity |]. split; [reflexivity |].
  split; [reflexivity |]. split; [by vm_compute |].
  intros Hclaim.
  specialize (Hclaim sample_zero_heap sample_zero Hreach eq_refl).
  discriminate Hclaim.
Qed.

(** * The theorems at the samples *)

(** Copying [sample_b]: capacity [4], not [3]. *)
Lemma vector_copy_witness :
  wf sample_heap sample_b /\
  exists v h',
    vector_copy sample_b sample_heap = Ok v h' /\
    capacity v = 4 /\ size v = 3 /\ elements h' v = [1; 2; 3] /\
    first v <> first sample_b /\
    operator_eq v sample_b h' = Ok true h'.
Proof.
  assert (Hwf : wf sample_heap sample_b)
    by sample_wf 3%positive [1; 2; 3] [Some 0].
  split; [exact Hwf |].
  destruct (vector_copy_spec sample_heap sample_b Hwf)
    as (v & h' & Hrun & _ & Hc & Hs & He & Hne & _ & _ & r & Heq & Hiff).
  exists v, h'. repeat split; try done.
  rewrite Heq. f_equal. apply Hiff. vm_compute. repeat constructor.
Defined.

(** [sample_b.at(5)] exits, [sample_b.at(1)] returns. *)
Lemma at_checked_witness :
  wf sample_heap sample_b /\ 0 <= 5 < size_type_modulus /\
  at_ 5 sample_b sample_heap = Exit (IndexOutOfRange 5) /\
  exists x,
    elements sample_heap sample_b !! Z.to_nat 1 = Some x /\
    at_ 1 sample_b sample_heap = Ok x sample_heap.
Proof.
  assert (Hwf : wf sample_heap sample_b)
    by sample_wf 3%positive [1; 2; 3] [Some 0].
  assert (H5 : 0 <= 5 < size_type_modulus) by (by vm_compute).
  assert (H1 : 0 <= 1 < size_type_modulus) by (by vm_compute).
  split; [exact Hwf |]. split; [exact H5 |]. split.
  - destruct (at_checked sample_heap sample_b 5 Hwf H5) as (_ & Hexit & _).
    apply Hexit. by vm_compute.
  - destruct (at_checked sample_heap sample_b 1 Hwf H1) as (_ & _ & Hok).
    apply Hok. by vm_compute.
Defined.

(** [vector<int> z(0, 7)] has capacity [0] and holds an array without
    slots; [sample_spare] after [clear()] is empty with capacity [3], and
    [shrink_to_fit()] moves it to a fresh array without slots. *)
Lemma capacity_zero_buffer_witness :
  reachable sample_zero_heap sample_zero /\
  (first sample_zero = nullptr \/
   exists b, first sample_zero = Ptr b 0 /\ sample_zero_heap !! b = Some []) /\
  reachable sample_spare_heap
    (Vector (Ptr 2%positive 0) (Ptr 2%positive 0) (Ptr 2%positive 3)) /\
  exists v' h',
    shrink_to_fit
      (Vector (Ptr 2%positive 0) (Ptr 2%positive 0) (Ptr 2%positive 3))
      sample_spare_heap = Ok v' h' /\
    capacity v' = 0 /\ first v' = Ptr 3%positive 0 /\
    h' !! 3%positive = Some [].
Proof.
  assert (Hreach : reachable sample_zero_heap sample_zero).
  { apply (reach_fill ∅ 0 7); [by vm_compute | by vm_compute]. }
  set (c := Vector (Ptr 2%positive 0) (Ptr 2%positive 0) (Ptr 2%positive 3)).
  assert (Hreach' : reachable sample_spare_heap c).
  { apply (reach_clear sample_spare_heap sample_spare); [| by vm_compute].
    apply (reach_reserve {[ 1%positive := [Some 1] ]}
             (Vector (Ptr 1%positive 0) (Ptr 1%positive 1) (Ptr 1%positive 1)) 3);
      [| by vm_compute | by vm_compute].
    apply (reach_init ∅ [1]); [by vm_compute | by vm_compute]. }
  split; [exact Hreach |]. split.
  - destruct (capacity_zero_buffer sample_zero_heap sample_zero Hreach)
      as (_ & Hzero & _).
    apply Hzero. reflexivity.
  - split; [exact Hreach' |].
    destruct (capacity_zero_buffer sample_spare_heap c Hreach')
      as (_ & _ & _ & _ & Hshrink).
    destruct Hshrink as (v' & h' & Hrun & Hc & _ & Hmoved);
      [reflexivity | sample_intact |].
    exists v', h'. split; [exact Hrun |]. split; [exact Hc |].
    destruct Hmoved as [Hf Hh]; [by vm_compute |].
    split; [exact Hf | exact Hh].
Defined.

(** [sample_b.pop_back()]: length [2], capacity still [4], the heap as it
    was. *)
Lemma pop_back_witness :
  wf sample_heap sample_b /\
  exists v' x,
    pop_back sample_b sample_heap = Ok v' sample_heap /\
    size v' = 2 /\ capacity v' = 4 /\
    elements sample_heap sample_b = elements sample_heap v' ++ [x].
Proof.
  assert (Hwf : wf sample_heap sample_b)
    by sample_wf 3%positive [1; 2; 3] [Some 0].
  split; [exact Hwf |].
  destruct (pop_back_spec sample_heap sample_b Hwf) as [_ Hpop].
  destruct Hpop as (v' & x & h' & Hrun & _ & Hs & Hc & He & _ & _ & Hsame);
    [by vm_compute |].
  rewrite (Hsame eq_refl) in *. by exists v', x.
Defined.

(** [{1, 2} < {1, 2, 3}]. *)
Lemma comparison_witness :
  wf sample_heap sample_a /\ wf sample_heap sample_b /\
  operator_lt sample_a sample_b sample_heap = Ok true sample_heap /\
  exists r,
    operator_eq sample_a sample_b sample_heap = Ok r sample_heap /\
    (r = true <->
     size sample_a = size sample_b /\
     elementwise_eq (elements sample_heap sample_a)
       (elements sample_heap sample_b)).
Proof.
  assert (Ha : wf sample_heap sample_a) by sample_wf 1%positive [1; 2] (@nil (option Z)).
  assert (Hb : wf sample_heap sample_b)
    by sample_wf 3%positive [1; 2; 3] [Some 0].
  split; [exact Ha |]. split; [exact Hb |].
  destruct (comparison_spec sample_heap sample_a sample_b Ha Hb)
    as [(r & Hrun & _ & Hprefix) Heq].
  split; [| exact Heq].
  rewrite Hrun. f_equal. apply Hprefix. by exists 3, [].
Defined.

(** The six comparisons of [sample_a] with [sample_b]. *)
Lemma derived_comparisons_witness :
  wf sample_heap sample_a /\ wf sample_heap sample_b /\
  exists eq_ab lt_ab lt_ba,
    operator_eq sample_a sample_b sample_heap = Ok eq_ab sample_heap /\
    operator_lt sample_a sample_b sample_heap = Ok lt_ab sample_heap /\
    operator_lt sample_b sample_a sample_heap = Ok lt_ba sample_heap /\
    operator_ne sample_a sample_b sample_heap = Ok (negb eq_ab) sample_heap /\
    operator_le sample_a sample_b sample_heap = Ok (negb lt_ba) sample_heap /\
    operator_gt sample_a sample_b sample_heap = Ok lt_ba sample_heap /\
    operator_ge sample_a sample_b sample_heap = Ok (negb lt_ab) sample_heap.
Proof.
  assert (Ha : wf sample_heap sample_a) by sample_wf 1%positive [1; 2] (@nil (option Z)).
  assert (Hb : wf sample_heap sample_b)
    by sample_wf 3%positive [1; 2; 3] [Some 0].
  split; [exact Ha |]. split; [exact Hb |].
  exact (derived_comparisons sample_heap sample_a sample_b Ha Hb).
Defined.

(** * The further properties at the samples *)


Lemma vector_fill_spec_witness :
  0 <= 3 < size_type_modulus /\
  exists v h',
    vector_fill 3 7 sample_heap = Ok v h' /\ owns sample_heap h' v /\
    size v = 3 /\ capacity v = 3 /\ elements h' v = [7; 7; 7].
Proof.
  assert (H3 : 0 <= 3 < size_type_modulus) by (by vm_compute).
  split; [exact H3 |].
  destruct (vector_fill_spec sample_heap 3 7 H3) as [Hok _].
  apply Hok. by vm_compute.
Defined.

Lemma vector_init_spec_witness :
  Z.of_nat (length [4; 5; 6]) < size_type_modulus /\
  exists v h',
    vector_init [4; 5; 6] sample_heap = Ok v h' /\ owns sample_heap h' v /\
    size v = 3 /\ capacity v = 3 /\ elements h' v = [4; 5; 6].
Proof.
  assert (H3 : Z.of_nat (length [4; 5; 6]) < size_type_modulus)
    by (by vm_compute).
  split; [exact H3 |].
  destruct (vector_init_spec sample_heap [4; 5; 6] H3) as [Hok _].
  apply Hok. by vm_compute.
Defined.

(** The range of the first two elements of [sample_b]. *)
Lemma vector_range_spec_witness :
  range sample_heap (Ptr 3%positive 0) (Ptr 3%positive 2) [1; 2] /\
  exists v h',
    vector_range (Ptr 3%positive 0) (Ptr 3%positive 2) sample_heap = Ok v h' /\
    owns sample_heap h' v /\ size v = 2 /\ capacity v = 2 /\
    elements h' v = [1; 2] /\
    range h' (Ptr 3%positive 0) (Ptr 3%positive 2) [1; 2].
Proof.
  assert (Hr : range sample_heap (Ptr 3%positive 0) (Ptr 3%positive 2) [1; 2]).
  { apply (range_block sample_heap 3%positive
             [Some 1; Some 2; Some 3; Some 0] 0 2 [1; 2]);
      [reflexivity | lia | simpl; lia | reflexivity]. }
  split; [exact Hr |].
  destruct (vector_range_spec sample_heap _ _ [1; 2] Hr) as [Hok _];
    [by vm_compute |].
  apply Hok. by vm_compute.
Defined.

Lemma front_back_spec_witness :
  wf sample_heap sample_b /\
  exists x y,
    front sample_b sample_heap = Ok x sample_heap /\
    back sample_b sample_heap = Ok y sample_heap /\
    elements sample_heap sample_b !! 0%nat = Some x /\
    elements sample_heap sample_b !! Z.to_nat (size sample_b - 1) = Some y /\
    at_ 0 sample_b sample_heap = Ok x sample_heap /\
    at_ (size sample_b - 1) sample_b sample_heap = Ok y sample_heap.
Proof.
  assert (Hwf : wf sample_heap sample_b)
    by sample_wf 3%positive [1; 2; 3] [Some 0].
  split; [exact Hwf |].
  destruct (front_back_spec sample_heap sample_b Hwf) as [_ Hok].
  apply Hok. by vm_compute.
Defined.

(** [sample_b[1]] is [2]; [sample_b[3]] is past the length and
    [sample_b[4]] past the capacity. *)
Lemma subscript_unchecked_witness :
  wf sample_heap sample_b /\ 0 <= 1 /\
  (exists x,
     elements sample_heap sample_b !! Z.to_nat 1 = Some x /\
     subscript 1 sample_b sample_heap = Ok x sample_heap /\
     at_ 1 sample_b sample_heap = Ok x sample_heap) /\
  (exists f, at_ 3 sample_b sample_heap = Exit f) /\
  (forall f, subscript 3 sample_b sample_heap <> Exit f) /\
  subscript 4 sample_b sample_heap = Undefined.
Proof.
  assert (Hwf : wf sample_heap sample_b)
    by sample_wf 3%positive [1; 2; 3] [Some 0].
  split; [exact Hwf |]. split; [lia |].
  destruct (subscript_unchecked sample_heap sample_b 1 Hwf) as (Hin & _ & _);
    [lia |].
  destruct (subscript_unchecked sample_heap sample_b 3 Hwf) as (_ & Hat & _);
    [lia |].
  destruct (subscript_unchecked sample_heap sample_b 4 Hwf) as (_ & _ & Hout);
    [lia |].
  split; [apply Hin; by vm_compute |].
  destruct Hat as [Hexit Hnever]; [by vm_compute |].
  split; [exact Hexit |]. split; [exact Hnever |].
  apply Hout. by vm_compute.
Defined.

(** [sample_b.clear()] leaves the heap as it is; [sample_strings.clear()]
    leaves two slots without objects. *)
Lemma clear_keeps_capacity_witness :
  wf sample_heap sample_b /\
  (exists v',
     clear sample_b sample_heap = Ok v' sample_heap /\
     size v' = 0 /\ elements sample_heap v' = [] /\
     capacity v' = 4 /\ first v' = first sample_b) /\
  wf sample_strings_heap sample_strings /\
  exists v' h',
    clear sample_strings sample_strings_heap = Ok v' h' /\
    size v' = 0 /\ capacity v' = 2 /\
    h' !! 1%positive = Some [None; None] /\ ~ intact h' v'.
Proof.
  assert (Hwf : wf sample_heap sample_b)
    by sample_wf 3%positive [1; 2; 3] [Some 0].
  assert (Hwfs : wf sample_strings_heap sample_strings)
    by sample_wf 1%positive ["a"; "b"] (@nil (option string)).
  split; [exact Hwf |]. split.
  - destruct (clear_keeps_capacity sample_heap sample_b Hwf)
      as (v' & h' & Hrun & _ & Hs & He & Hc & Hf & _ & _ & Hsame & _).
    rewrite (Hsame eq_refl) in *. by exists v'.
  - split; [exact Hwfs |].
    destruct (clear_keeps_capacity sample_strings_heap sample_strings Hwfs)
      as (v' & h' & Hrun & _ & Hs & _ & Hc & _ & Harr & _ & _ & Hdead).
    exists v', h'. split; [exact Hrun |]. split; [exact Hs |].
    split; [exact Hc |].
    split; [exact (Harr 1%positive 0 _ eq_refl eq_refl) |].
    apply Hdead; [reflexivity | by vm_compute].
Defined.

(** [sample_b.resize(1, 9)], [sample_b.resize(6, 9)] and
    [sample_b.resize(6, sample_b[0])]. *)
Lemma resize_cases_witness :
  wf sample_heap sample_b /\ 0 <= 6 < size_type_modulus /\
  (exists v',
     resize 1 (Temp 9) sample_b sample_heap = Ok v' sample_heap /\
     capacity v' = 4 /\ elements sample_heap v' = [1]) /\
  (exists v' h',
     resize 6 (Temp 9) sample_b sample_heap = Ok v' h' /\
     capacity v' = 6 /\ elements h' v' = [1; 2; 3; 9; 9; 9]) /\
  resize 6 (Ref (Ptr 3%positive 0)) sample_b sample_heap = Undefined.
Proof.
  assert (Hwf : wf sample_heap sample_b)
    by sample_wf 3%positive [1; 2; 3] [Some 0].
  assert (Hi : intact sample_heap sample_b) by sample_intact.
  assert (H6 : 0 <= 6 < size_type_modulus) by (by vm_compute).
  assert (H1 : 0 <= 1 < size_type_modulus) by (by vm_compute).
  split; [exact Hwf |]. split; [exact H6 |]. split; [| split].
  - destruct (resize_cases sample_heap sample_b 1 (Temp 9) Hwf H1) as (Hdown & _).
    destruct Hdown as (v' & h' & Hrun & _ & _ & Hc & He & _ & Hsame);
      [by vm_compute |].
    rewrite (Hsame eq_refl) in *. by exists v'.
  - destruct (resize_cases sample_heap sample_b 6 (Temp 9) Hwf H6)
      as (_ & Hup & _).
    destruct (Hup ltac:(by vm_compute) ltac:(by vm_compute) Hi 9 eq_refl)
      as (v' & h' & Hrun & _ & _ & _ & Hc & He).
    by exists v', h'.
  - destruct (resize_cases sample_heap sample_b 6 (Ref (Ptr 3%positive 0))
                Hwf H6) as (_ & _ & _ & Halias).
    apply (Halias ltac:(by vm_compute) ltac:(by vm_compute) Hi
             3%positive 0 0 eq_refl eq_refl).
Defined.

(** [sample_b.resize(1); sample_b.resize(3, 8)] on [int], and
    [sample_strings.resize(1); sample_strings.resize(2)]. *)
Lemma resize_down_then_up_witness :
  wf sample_heap sample_b /\ 0 <= 1 <= size sample_b /\
  (exists v' h',
     (v1 <~ resize 1 (Temp 9) sample_b ;; resize 3 (Temp 8) v1) sample_heap
     = Ok v' h' /\
     size v' = 3 /\ capacity v' = 4 /\ elements h' v' = [1; 8; 8]) /\
  wf sample_strings_heap sample_strings /\
  (v1 <~ resize 1 (Temp EmptyString) sample_strings ;;
   resize 2 (Temp EmptyString) v1) sample_strings_heap = Undefined.
Proof.
  assert (Hwf : wf sample_heap sample_b)
    by sample_wf 3%positive [1; 2; 3] [Some 0].
  assert (Hi : intact sample_heap sample_b) by sample_intact.
  assert (Hwfs : wf sample_strings_heap sample_strings)
    by sample_wf 1%positive ["a"; "b"] (@nil (option string)).
  assert (H1 : 0 <= 1 <= size sample_b) by (by vm_compute).
  split; [exact Hwf |]. split; [exact H1 |]. split; [| split; [exact Hwfs |]].
  - destruct (resize_down_then_up sample_heap sample_b 1 3 (Temp 9) (Temp 8)
                Hwf H1) as [Hok _]; [by vm_compute |].
    destruct (Hok eq_refl Hi 8 eq_refl) as (v' & h' & Hrun & _ & Hs & Hc & He).
    by exists v', h'.
  - destruct (resize_down_then_up sample_strings_heap sample_strings 1 2
                (Temp EmptyString) (Temp EmptyString) Hwfs) as [_ Hbad];
      [by vm_compute | by vm_compute |].
    apply Hbad; [reflexivity | by vm_compute | lia].
Defined.

(** [sample_b.shrink_to_fit()] returns; [sample_popped.shrink_to_fit()]
    destroys a destroyed slot. *)
Lemma shrink_to_fit_spec_witness :
  wf sample_heap sample_b /\
  (exists v' h',
     shrink_to_fit sample_b sample_heap = Ok v' h' /\
     size v' = 3 /\ capacity v' = 3 /\ elements h' v' = [1; 2; 3] /\
     shrink_to_fit v' h' = Ok v' h') /\
  wf sample_popped_heap sample_popped /\
  shrink_to_fit sample_popped sample_popped_heap = Undefined.
Proof.
  assert (Hwf : wf sample_heap sample_b)
    by sample_wf 3%positive [1; 2; 3] [Some 0].
  assert (Hi : intact sample_heap sample_b) by sample_intact.
  assert (Hwfp : wf sample_popped_heap sample_popped)
    by sample_wf 1%positive ["a"] [@None string].
  split; [exact Hwf |]. split; [| split; [exact Hwfp |]].
  - destruct (shrink_to_fit_spec sample_heap sample_b Hwf) as [Hok _].
    destruct (Hok Hi) as (v' & h' & Hrun & _ & _ & Hs & Hc & He & Hagain).
    by exists v', h'.
  - destruct (shrink_to_fit_spec sample_popped_heap sample_popped Hwfp)
      as [_ Hbad].
    apply Hbad. intros Hdead.
    specialize (Hdead 1%positive 0 _ eq_refl eq_refl).
    apply Forall_cons in Hdead as [_ Hdead].
    apply Forall_cons in Hdead as [[y Hy] _]. discriminate Hy.
Defined.

(** [sample_b.reserve(10)] reallocates, [sample_b.reserve(2)] does
    nothing, and [sample_popped.reserve(10)] destroys a destroyed slot. *)
Lemma reserve_spec_witness :
  wf sample_heap sample_b /\ 0 <= 10 < size_type_modulus /\
  (exists v' h',
     reserve 10 sample_b sample_heap = Ok v' h' /\
     capacity v' = 10 /\ size v' = 3 /\ elements h' v' = [1; 2; 3]) /\
  reserve 2 sample_b sample_heap = Ok sample_b sample_heap /\
  wf sample_popped_heap sample_popped /\
  reserve 10 sample_popped sample_popped_heap = Undefined.
Proof.
  assert (Hwf : wf sample_heap sample_b)
    by sample_wf 3%positive [1; 2; 3] [Some 0].
  assert (Hi : intact sample_heap sample_b) by sample_intact.
  assert (Hwfp : wf sample_popped_heap sample_popped)
    by sample_wf 1%positive ["a"] [@None string].
  assert (H10 : 0 <= 10 < size_type_modulus) by (by vm_compute).
  assert (H2 : 0 <= 2 < size_type_modulus) by (by vm_compute).
  split; [exact Hwf |]. split; [exact H10 |].
  split; [| split; [| split; [exact Hwfp |]]].
  - destruct (reserve_spec sample_heap sample_b 10 Hwf H10) as (Hgrow & _).
    destruct Hgrow as (v' & h' & Hrun & _ & _ & Hc & Hs & He);
      [by vm_compute | by vm_compute | exact Hi |].
    by exists v', h'.
  - destruct (reserve_spec sample_heap sample_b 2 Hwf H2) as (_ & _ & _ & Hkeep).
    apply Hkeep. by vm_compute.
  - destruct (reserve_spec sample_popped_heap sample_popped 10 Hwfp H10)
      as (_ & Hbad & _).
    apply Hbad; [by vm_compute | by vm_compute |]. intros Hdead.
    specialize (Hdead 1%positive 0 _ eq_refl eq_refl).
    apply Forall_cons in Hdead as [_ Hdead].
    apply Forall_cons in Hdead as [[y Hy] _]. discriminate Hy.
Defined.

(** Two appends to an empty container beside [sample_a] and [sample_b]:
    the value [10], and the second element of [sample_a]. *)
Lemma push_back_sequence_witness :
  Forall2 (fun value x => read value sample_heap = Ok x sample_heap)
    [Temp 10; Ref (Ptr 1%positive 1)] [10; 2] /\
  read (Temp 30) sample_heap = Ok 30 sample_heap /\
  exists v h',
    push_back_all [Temp 10; Ref (Ptr 1%positive 1)] vector_default sample_heap
    = Ok v h' /\
    owns sample_heap h' v /\ size v = 2 /\ elements h' v = [10; 2] /\
    doubled 2 (capacity v).
Proof.
  assert (Hreads : Forall2
            (fun value x => read value sample_heap = Ok x sample_heap)
            [Temp 10; Ref (Ptr 1%positive 1)] [10; 2])
    by (repeat constructor).
  assert (Hread : read (Temp 30) sample_heap = Ok 30 sample_heap)
    by reflexivity.
  split; [exact Hreads |]. split; [exact Hread |].
  pose proof (push_back_sequence sample_heap _ _ (Temp 30) 30 Hreads Hread)
    as Hseq.
  cbv zeta in Hseq.
  destruct (push_back_all [Temp 10; Ref (Ptr 1%positive 1)] vector_default
              sample_heap) as [v h' | | | |]; try done.
  destruct Hseq as (Hown & Hs & He & _ & Hd & _). by exists v, h'.
Defined.

(** Two appends into the two spare slots of [sample_spare]. *)
Lemma push_back_within_capacity_witness :
  wf sample_spare_heap sample_spare /\
  intact sample_spare_heap sample_spare /\
  Forall2 (outside sample_spare_heap sample_spare) [Temp 7; Temp 8] [7; 8] /\
  size sample_spare + Z.of_nat (length [7; 8]) <= capacity sample_spare /\
  exists v' h',
    push_back_all [Temp 7; Temp 8] sample_spare sample_spare_heap = Ok v' h' /\
    first v' = first sample_spare /\ capacity v' = 3 /\
    elements h' v' = [1; 7; 8].
Proof.
  assert (Hwf : wf sample_spare_heap sample_spare)
    by sample_wf 2%positive [1] [Some 0; Some 0].
  assert (Hi : intact sample_spare_heap sample_spare) by sample_intact.
  assert (Hout : Forall2 (outside sample_spare_heap sample_spare)
            [Temp 7; Temp 8] [7; 8]) by (repeat constructor).
  assert (Hroom : size sample_spare + Z.of_nat (length [7; 8])
                  <= capacity sample_spare) by (by vm_compute).
  split; [exact Hwf |]. split; [exact Hi |]. split; [exact Hout |].
  split; [exact Hroom |].
  destruct (push_back_within_capacity sample_spare_heap sample_spare
              [Temp 7; Temp 8] [7; 8] Hwf Hi Hout Hroom)
    as (v' & h' & Hrun & _ & _ & Hf & Hc & _ & He & _).
  by exists v', h'.
Defined.

(** [sample_a.push_back(5)], and [sample_a.push_back(sample_a[0])]. *)
Lemma append_spec_witness :
  wf sample_heap sample_a /\
  (exists v' h',
     push_back (Temp 5) sample_a sample_heap = Ok v' h' /\
     emplace_back (Temp 5) sample_a sample_heap = Ok v' h' /\
     elements h' v' = [1; 2; 5] /\ capacity v' = 4 /\
     back v' h' = Ok 5 h') /\
  push_back (Ref (Ptr 1%positive 0)) sample_a sample_heap = Undefined /\
  emplace_back (Ref (Ptr 1%positive 0)) sample_a sample_heap = Undefined.
Proof.
  assert (Hwf : wf sample_heap sample_a)
    by sample_wf 1%positive [1; 2] (@nil (option Z)).
  assert (Hi : intact sample_heap sample_a) by sample_intact.
  split; [exact Hwf |]. split.
  - destruct (append_spec sample_heap sample_a (Temp 5) Hwf) as [Hok _].
    destruct (Hok Hi 5 eq_refl ltac:(by vm_compute))
      as (v' & h' & Hp & He & _ & Hel & _ & Hc & Hb & _).
    by exists v', h'.
  - destruct (append_spec sample_heap sample_a (Ref (Ptr 1%positive 0)) Hwf)
      as (_ & _ & Halias).
    apply (Halias ltac:(by vm_compute) ltac:(by vm_compute)
             1%positive 0 0 eq_refl eq_refl).
Defined.

(** [sample_a.push_back(5); sample_a.pop_back()], and
    [sample_strings.pop_back(); sample_strings.push_back("c")]. *)
Lemma push_back_pop_back_witness :
  wf sample_heap sample_a /\
  (exists v' h',
     (v1 <~ push_back (Temp 5) sample_a ;; pop_back v1) sample_heap
     = Ok v' h' /\
     elements h' v' = [1; 2] /\ size v' = 2 /\ capacity v' = 4) /\
  wf sample_strings_heap sample_strings /\
  (v1 <~ pop_back sample_strings ;; push_back (Temp "c") v1)
    sample_strings_heap = Undefined.
Proof.
  assert (Hwf : wf sample_heap sample_a)
    by sample_wf 1%positive [1; 2] (@nil (option Z)).
  assert (Hi : intact sample_heap sample_a) by sample_intact.
  assert (Hwfs : wf sample_strings_heap sample_strings)
    by sample_wf 1%positive ["a"; "b"] (@nil (option string)).
  split; [exact Hwf |]. split; [| split; [exact Hwfs |]].
  - destruct (push_back_pop_back sample_heap sample_a (Temp 5) Hwf) as [Hok _].
    destruct (Hok Hi 5 eq_refl ltac:(by vm_compute))
      as (v' & h' & Hrun & _ & He & Hs & Hc).
    by exists v', h'.
  - destruct (push_back_pop_back sample_strings_heap sample_strings
                (Temp "c") Hwfs) as [_ Hbad].
    apply Hbad; [reflexivity | by vm_compute].
Defined.

(** [sample_b = sample_a]: capacity [2] afterwards, not [4]. *)
Lemma copy_assign_spec_witness :
  wf sample_heap sample_b /\ wf sample_heap sample_a /\
  (first sample_a = nullptr \/ first sample_a <> first sample_b) /\
  exists v' h',
    copy_assign false sample_b sample_a sample_heap = Ok v' h' /\
    owns (heap_without sample_heap sample_b) h' v' /\
    capacity v' = 2 /\ elements h' v' = [1; 2] /\
    elements h' sample_a = [1; 2].
Proof.
  assert (Ha : wf sample_heap sample_a)
    by sample_wf 1%positive [1; 2] (@nil (option Z)).
  assert (Hb : wf sample_heap sample_b)
    by sample_wf 3%positive [1; 2; 3] [Some 0].
  assert (Hi : intact sample_heap sample_b) by sample_intact.
  assert (Hd : first sample_a = nullptr \/ first sample_a <> first sample_b)
    by (right; discriminate).
  split; [exact Hb |]. split; [exact Ha |]. split; [exact Hd |].
  destruct (copy_assign_spec sample_heap sample_b sample_a Hb Ha Hd)
    as [Hok _].
  destruct (Hok Hi) as (v' & h' & Hrun & Hown & _ & _ & Hc & He & _ & Hea).
  by exists v', h'.
Defined.

Lemma move_assign_spec_witness :
  wf sample_heap sample_b /\ wf sample_heap sample_a /\
  (first sample_a = nullptr \/ first sample_a <> first sample_b) /\
  move_assign false sample_b sample_a sample_heap
  = Ok (sample_a, Vector nullptr nullptr nullptr)
       (heap_without sample_heap sample_b) /\
  elements (heap_without sample_heap sample_b) sample_a = [1; 2] /\
  heap_without sample_heap sample_b !! 3%positive = None.
Proof.
  assert (Ha : wf sample_heap sample_a)
    by sample_wf 1%positive [1; 2] (@nil (option Z)).
  assert (Hb : wf sample_heap sample_b)
    by sample_wf 3%positive [1; 2; 3] [Some 0].
  assert (Hi : intact sample_heap sample_b) by sample_intact.
  assert (Hd : first sample_a = nullptr \/ first sample_a <> first sample_b)
    by (right; discriminate).
  split; [exact Hb |]. split; [exact Ha |]. split; [exact Hd |].
  destruct (move_assign_spec sample_heap sample_b sample_a Hb Ha Hd)
    as [Hok _].
  destruct (Hok Hi) as (Hrun & _ & He & Hfree).
  split; [exact Hrun |]. split; [exact He |].
  by apply (Hfree 3%positive 0).
Defined.

(** [sample_b] is reachable: [vector<int> b{1, 2}; b.push_back(3);]
    beside [sample_a]. *)
Lemma reachable_invariant_witness :
  reachable sample_heap sample_b /\
  0 <= size sample_b <= capacity sample_b /\
  capacity sample_b <= max_array_len /\
  Z.of_nat (length (elements sample_heap sample_b)) = 3 /\
  intact sample_heap sample_b.
Proof.
  assert (Hreach : reachable sample_heap sample_b).
  { apply (reach_push_back
             {[ 1%positive := [Some 1; Some 2];
                2%positive := [Some 1; Some 2] ]}
             (Vector (Ptr 2%positive 0) (Ptr 2%positive 2) (Ptr 2%positive 2))
             (Temp 3)); [| by vm_compute].
    apply (reach_init {[ 1%positive := [Some 1; Some 2] ]} [1; 2]);
      [by vm_compute | by vm_compute]. }
  split; [exact Hreach |].
  destruct (reachable_invariant sample_heap sample_b Hreach)
    as (Hs & Hc & Hl & _ & Hi).
  split; [exact Hs |]. split; [exact Hc |]. split; [exact Hl |].
  by apply Hi.
Defined.

(** [std::cout << sample_b] writes [1 2 3] and a line feed. *)
Lemma operator_out_spec_witness :
  wf sample_heap sample_b /\
  operator_out EmptyString sample_b sample_heap
  = Ok (String "1" (String " " (String "2" (String " " (String "3"
          (String "010" EmptyString)))))) sample_heap.
Proof.
  assert (Hwf : wf sample_heap sample_b)
    by sample_wf 3%positive [1; 2; 3] [Some 0].
  split; [exact Hwf |].
  exact (operator_out_spec sample_heap sample_b EmptyString Hwf).
Defined.

(** [sample_b] reads [7] and [8] from a stream that holds no more: the
    third element stays. *)
Lemma operator_in_spec_witness :
  wf sample_heap sample_b /\
  exists h',
    operator_in [7; 8] sample_b sample_heap = Ok [] h' /\
    elements h' sample_b = [7; 8; 3].
Proof.
  assert (Hwf : wf sample_heap sample_b)
    by sample_wf 3%positive [1; 2; 3] [Some 0].
  split; [exact Hwf |].
  destruct (operator_in_spec sample_heap sample_b [7; 8] Hwf)
    as (h' & Hrun & _ & He & _ & _).
  by exists h'.
Defined.

Lemma operator_lt_strict_order_witness :
  (forall x : Z, (x <? x) = false) /\
  wf sample_heap sample_a /\ wf sample_heap sample_b /\
  operator_lt sample_a sample_a sample_heap = Ok false sample_heap /\
  (operator_lt sample_a sample_b sample_heap = Ok true sample_heap ->
   operator_lt sample_b sample_a sample_heap = Ok false sample_heap).
Proof.
  assert (Hirr : forall x : Z, (x <? x) = false) by apply Z.ltb_irrefl.
  assert (Htrans : forall x y z : Z,
            (x <? y) = true -> (y <? z) = true -> (x <? z) = true).
  { intros x y z H1 H2. apply Z.ltb_lt in H1, H2. apply Z.ltb_lt. lia. }
  assert (Hweak : forall x y z : Z,
            (x <? y) = true -> (x <? z) = true \/ (z <? y) = true).
  { intros x y z H1. apply Z.ltb_lt in H1.
    destruct (x <? z) eqn:E; [by left | right].
    apply Z.ltb_ge in E. apply Z.ltb_lt. lia. }
  assert (Ha : wf sample_heap sample_a)
    by sample_wf 1%positive [1; 2] (@nil (option Z)).
  assert (Hb : wf sample_heap sample_b)
    by sample_wf 3%positive [1; 2; 3] [Some 0].
  split; [exact Hirr |]. split; [exact Ha |]. split; [exact Hb |].
  destruct (operator_lt_strict_order (ET := int_Element) sample_heap sample_a sample_b sample_b
              Hirr Htrans Hweak Ha Hb Hb) as (Hrefl & Hasym & _).
  by split.
Defined.

Lemma operator_eq_equivalence_witness :
  (forall x : Z, (x =? x) = true) /\
  wf sample_heap sample_a /\ wf sample_heap sample_b /\
  operator_eq sample_a sample_a sample_heap = Ok true sample_heap /\
  (operator_eq sample_a sample_b sample_heap = Ok true sample_heap ->
   operator_eq sample_b sample_a sample_heap = Ok true sample_heap).
Proof.
  assert (Hrefl : forall x : Z, (x =? x) = true) by apply Z.eqb_refl.
  assert (Hsym : forall x y : Z, (x =? y) = true -> (y =? x) = true).
  { intros x y H1. by rewrite Z.eqb_sym. }
  assert (Htrans : forall x y z : Z,
            (x =? y) = true -> (y =? z) = true -> (x =? z) = true).
  { intros x y z H1 H2. apply Z.eqb_eq in H1, H2. apply Z.eqb_eq. lia. }
  assert (Ha : wf sample_heap sample_a)
    by sample_wf 1%positive [1; 2] (@nil (option Z)).
  assert (Hb : wf sample_heap sample_b)
    by sample_wf 3%positive [1; 2; 3] [Some 0].
  split; [exact Hrefl |]. split; [exact Ha |]. split; [exact Hb |].
  destruct (operator_eq_equivalence (ET := int_Element) sample_heap sample_a sample_b sample_b
              Hrefl Hsym Htrans Ha Hb Hb) as (Hr & Hs & _).
  by split.
Defined.

Lemma equal_not_less_witness :
  (forall x y : Z, (x =? y) = true -> (x <? y) = false /\ (y <? x) = false) /\
  wf sample_heap sample_a /\
  operator_eq sample_a sample_a sample_heap = Ok true sample_heap /\
  operator_lt sample_a sample_a sample_heap = Ok false sample_heap /\
  operator_le sample_a sample_a sample_heap = Ok true sample_heap /\
  operator_ge sample_a sample_a sample_heap = Ok true sample_heap.
Proof.
  assert (Hcompat : forall x y : Z,
            (x =? y) = true -> (x <? y) = false /\ (y <? x) = false).
  { intros x y H1. apply Z.eqb_eq in H1. subst y.
    by rewrite Z.ltb_irrefl. }
  assert (Ha : wf sample_heap sample_a)
    by sample_wf 1%positive [1; 2] (@nil (option Z)).
  assert (Heq : operator_eq sample_a sample_a sample_heap
                = Ok true sample_heap) by (by vm_compute).
  split; [exact Hcompat |]. split; [exact Ha |]. split; [exact Heq |].
  destruct (equal_not_less (ET := int_Element) sample_heap sample_a sample_a Hcompat Ha Ha Heq)
    as (Hlt & _ & Hle & Hge).
  by repeat split.
Defined.


Lemma calls_leave_others_witness :
  wf sample_heap sample_b /\ wf sample_heap sample_a /\
  (first sample_a = nullptr \/ first sample_a <> first sample_b) /\
  forall v' h',
    run_calls [PushBack (Temp 4); PushBack (Temp 5); PopBack; Clear]
      sample_b sample_heap
    = Ok v' h' ->
    wf h' sample_a /\ elements h' sample_a = [1; 2].
Proof.
  assert (Ha : wf sample_heap sample_a)
    by sample_wf 1%positive [1; 2] (@nil (option Z)).
  assert (Hb : wf sample_heap sample_b)
    by sample_wf 3%positive [1; 2; 3] [Some 0].
  assert (Hd : first sample_a = nullptr \/ first sample_a <> first sample_b)
    by (right; discriminate).
  split; [exact Hb |]. split; [exact Ha |]. split; [exact Hd |].
  intros v' h' Hrun.
  destruct (calls_leave_others sample_heap sample_b sample_a
              [PushBack (Temp 4); PushBack (Temp 5); PopBack; Clear] v' h'
              Hb Ha Hd)
    as (Hwf' & He' & _); [by repeat constructor | exact Hrun |].
  by split.
Defined.
